(** * Aggregate functions of the Impala backend (be/src/exprs/aggregate-functions.cc)

    A shallow embedding of the aggregate-function runtime: the scalar
    accumulators (count, sum, min, max), the growable scratch buffer behind
    the text accumulators, and the Flajolet-Martin distinct-count sketch
    (plain and stochastic-averaging variants), followed by the properties
    proved about them.

    Conventions of the embedding.
    - A [uint8_t] is a [Z] in [0, 256); a buffer is the [list Z] of the bytes
      of its allocation; machine integers are [Z] with the wrap-around written
      out ([to_uint32], [to_int32], [to_int64]).
    - A [uint32_t] read through [reinterpret_cast<uint32_t*>] is assembled
      little-endian, the byte order of the x86-64 targets of the code.
    - A call returns an [outcome]: a value, the abort of a failed DCHECK, or
      [Undefined] where C++ gives the call no meaning (an access outside the
      allocation, the use of an indeterminate value).
    - A value the language leaves indeterminate ([__builtin_ctz(0)], a shift
      by the width of the type) is an [option] with [None]; it is harmless as
      long as nothing depends on it.
    - [double] is the kernel's binary64 ([PrimFloat.float]).
    - [AnyValUtil::Hash] and [pow], whose code is not in this file, are
      parameters; the allocator always succeeds; the [VLOG_ROW] logging,
      which only reads, is left out. *)

From Stdlib Require Import ZArith Lia Floats.
From stdpp Require Import base tactics option list numbers.

Local Open Scope Z_scope.

(** ** Outcomes *)

Inductive outcome (A : Type) : Type :=
| Ok (a : A)
| DcheckFailure
| Undefined
| OutOfFuel.
Arguments Ok {A} a.
Arguments DcheckFailure {A}.
Arguments Undefined {A}.
Arguments OutOfFuel {A}.

#[global] Instance outcome_ret : MRet outcome := fun A a => Ok a.
#[global] Instance outcome_bind : MBind outcome := fun A B k m =>
  match m with
  | Ok a => k a
  | DcheckFailure => DcheckFailure
  | Undefined => Undefined
  | OutOfFuel => OutOfFuel
  end.

(** Using a value: an indeterminate one has no defined use. *)
Definition determinate {A : Type} (v : option A) : outcome A :=
  match v with
  | Some a => Ok a
  | None => Undefined
  end.

(** [DCHECK(cond)] of common/logging.h: aborts in a build that keeps the
    checks ([dchecks = true]), and is no code at all otherwise. *)
Definition DCHECK (dchecks cond : bool) : outcome unit :=
  if dchecks && negb cond then DcheckFailure else Ok ().

(** A counted loop [for (int i = lo; i < hi; ++i) body] over a state. *)
Fixpoint for_range {S : Type} (n : nat) (i : Z) (body : Z -> S -> outcome S) (s : S)
  : outcome S :=
  match n with
  | O => Ok s
  | Datatypes.S n' => s' ← body i s; for_range n' (i + 1) body s'
  end.

Definition for_loop {S : Type} (lo hi : Z) (body : Z -> S -> outcome S) (s : S)
  : outcome S :=
  for_range (Z.to_nat (hi - lo)) lo body s.

(** ** Machine integers *)

Definition to_uint8 (x : Z) : Z := x mod 2 ^ 8.
Definition to_uint32 (x : Z) : Z := x mod 2 ^ 32.
Definition to_int32 (x : Z) : Z := (x + 2 ^ 31) mod 2 ^ 32 - 2 ^ 31.
Definition to_int64 (x : Z) : Z := (x + 2 ^ 63) mod 2 ^ 64 - 2 ^ 63.

(** [a << n] on [int]: the value is indeterminate when the count is not
    below the width. *)
Definition shl_int (a n : Z) : option Z :=
  if (0 <=? n) && (n <? 32) then Some (to_int32 (Z.shiftl a n)) else None.

Fixpoint ctz_pos (p : positive) : Z :=
  match p with
  | xO q => Z.succ (ctz_pos q)
  | _ => 0
  end.

(** [__builtin_ctz(x)] on a [uint32_t]: the number of trailing zero bits,
    indeterminate for [x = 0]. *)
Definition builtin_ctz (x : Z) : option Z :=
  match x with
  | Zpos p => Some (ctz_pos p)
  | _ => None
  end.

(** ** Values of the UDF interface *)

(** Every [*Val] derives from [AnyVal], which holds the null flag. *)
Class AnyVal (T : Type) := is_null : T -> bool.

Record ScalarVal (V : Type) : Type := mkScalarVal {
  scalar_is_null : bool;
  val : V
}.
Arguments mkScalarVal {V} _ _.
Arguments scalar_is_null {V} _.
Arguments val {V} _.

#[global] Instance ScalarVal_AnyVal {V : Type} : AnyVal (ScalarVal V) := scalar_is_null.

(** [StringVal]: [ptr] stands for the bytes of the allocation [ptr] points
    into, from [ptr] on; [len] is the field of the same name. *)
Record StringVal : Type := mkStringVal {
  string_is_null : bool;
  len : Z;
  ptr : list Z
}.

#[global] Instance StringVal_AnyVal : AnyVal StringVal := string_is_null.

(** ** Memory accesses *)

Definition load8 (m : list Z) (i : Z) : outcome Z :=
  if 0 <=? i then
    match m !! Z.to_nat i with
    | Some b => Ok b
    | None => Undefined
    end
  else Undefined.

Definition store8 (m : list Z) (i v : Z) : outcome (list Z) :=
  if (0 <=? i) && (i <? Z.of_nat (length m))
  then Ok (<[Z.to_nat i := to_uint8 v]> m)
  else Undefined.

(** [reinterpret_cast<uint32_t*>(m)[k]], read and written. *)
Definition load32 (m : list Z) (k : Z) : outcome Z :=
  b0 ← load8 m (4 * k);
  b1 ← load8 m (4 * k + 1);
  b2 ← load8 m (4 * k + 2);
  b3 ← load8 m (4 * k + 3);
  Ok (Z.lor b0 (Z.lor (Z.shiftl b1 8) (Z.lor (Z.shiftl b2 16) (Z.shiftl b3 24)))).

Definition store32 (m : list Z) (k w : Z) : outcome (list Z) :=
  m ← store8 m (4 * k) w;
  m ← store8 m (4 * k + 1) (Z.shiftr w 8);
  m ← store8 m (4 * k + 2) (Z.shiftr w 16);
  store8 m (4 * k + 3) (Z.shiftr w 24).

(** ** The distinct-count sketch *)

Definition NUM_PC_BITMAPS : Z := 64.
Definition PC_BITMAP_LENGTH : Z := 32.
(** [0.77351f]: the single-precision constant, as the double it promotes to. *)
Definition PC_THETA : float := 0x1.8c098p-1%float.

Definition PcInit : StringVal :=
  let str_len := NUM_PC_BITMAPS * PC_BITMAP_LENGTH / 8 in
  {| string_is_null := false; len := str_len; ptr := replicate (Z.to_nat str_len) 0 |}.

Definition SetDistinctEstimateBit (bitmap : list Z) (row_index bit_index : Z)
  : outcome (list Z) :=
  w ← load32 bitmap row_index;
  mask ← determinate (shl_int 1 bit_index);
  store32 bitmap row_index (to_uint32 (Z.lor w (to_uint32 mask))).

(** The bit read is indeterminate when [1 << bit_index] is. *)
Definition GetDistinctEstimateBit (bitmap : list Z) (row_index bit_index : Z)
  : outcome (option bool) :=
  w ← load32 bitmap row_index;
  Ok (mask ← shl_int 1 bit_index; Some (0 <? Z.land w (to_uint32 mask))).

Section Update.
Context {T : Type} `{AnyVal T}.
(** [AnyValUtil::Hash(input, seed)], of exprs/anyval-util.h. *)
Variable Hash : T -> Z -> Z.

(** One iteration of the loop of [PcUpdate], for the hash value of row [i]. *)
Definition PcUpdate_row (hash_value : Z) (i : Z) (bitmap : list Z) : outcome (list Z) :=
  let bit_index := builtin_ctz hash_value in
  let bit_index :=
    if hash_value =? 0 then Some (PC_BITMAP_LENGTH - 1) else bit_index in
  bit_index ← determinate bit_index;
  SetDistinctEstimateBit bitmap i (to_uint32 bit_index).

Definition PcUpdate (input : T) (dst : StringVal) : outcome StringVal :=
  if is_null input then Ok dst else
  bitmap ← for_loop 0 NUM_PC_BITMAPS
    (fun i bitmap => PcUpdate_row (to_uint32 (Hash input i)) i bitmap) (ptr dst);
  Ok {| string_is_null := string_is_null dst; len := len dst; ptr := bitmap |}.

(** The body of [PcsaUpdate] after the hash is taken. *)
Definition PcsaUpdate_hash (hash_value : Z) (bitmap : list Z) : outcome (list Z) :=
  let row_index := hash_value mod NUM_PC_BITMAPS in
  let bit_index := builtin_ctz (hash_value / NUM_PC_BITMAPS) in
  let bit_index :=
    if hash_value =? 0 then Some (PC_BITMAP_LENGTH - 1) else bit_index in
  bit_index ← determinate bit_index;
  SetDistinctEstimateBit bitmap row_index (to_uint32 bit_index).

Definition PcsaUpdate (input : T) (dst : StringVal) : outcome StringVal :=
  if is_null input then Ok dst else
  bitmap ← PcsaUpdate_hash (to_uint32 (Hash input 0)) (ptr dst);
  Ok {| string_is_null := string_is_null dst; len := len dst; ptr := bitmap |}.
End Update.

(** ** The debug dump of a bitmap *)

(** [debugstr << b] for a [bool]: the digit 0 or 1. Text is the list of its
    character codes. *)
Definition print_bool (b : bool) : list Z := [if b then 49 else 48].

Definition DistinctEstimateBitMapToString (v : list Z) : outcome (list Z) :=
  debugstr ← for_loop 0 NUM_PC_BITMAPS
    (fun i debugstr =>
       debugstr ← for_loop 0 PC_BITMAP_LENGTH
         (fun j debugstr =>
            bit ← GetDistinctEstimateBit v i j;
            bit ← determinate bit;
            Ok (debugstr ++ print_bool bit))
         debugstr;
       Ok (debugstr ++ [10]))
    [];
  Ok (debugstr ++ [10]).

Section Merge.
Variable dchecks : bool.

(** [*(dst->ptr + i) |= *(src.ptr + i)]. *)
Definition PcMerge_byte (src : list Z) (i : Z) (dst : list Z) : outcome (list Z) :=
  d ← load8 dst i;
  s ← load8 src i;
  store8 dst i (Z.lor d s).

Definition PcMerge (src dst : StringVal) : outcome StringVal :=
  DCHECK dchecks (negb (is_null src));;
  DCHECK dchecks (negb (is_null dst));;
  DCHECK dchecks (len src =? NUM_PC_BITMAPS * PC_BITMAP_LENGTH / 8);;
  bitmap ← for_loop 0 (NUM_PC_BITMAPS * PC_BITMAP_LENGTH / 8)
    (PcMerge_byte (ptr src)) (ptr dst);
  Ok {| string_is_null := string_is_null dst; len := len dst; ptr := bitmap |}.
End Merge.

(** ** Conversions and text *)

(** [static_cast<double>(z)] for an [int]; exact below [2^53]. *)
Definition int_to_double (z : Z) : float :=
  if 0 <=? z then PrimFloat.of_uint63 (Uint63.of_Z z)
  else PrimFloat.opp (PrimFloat.of_uint63 (Uint63.of_Z (- z))).

(** [int64_t result = estimate]: truncation toward zero; the value is
    indeterminate when the truncated value is no [int64_t] (and for NaN). *)
Definition double_to_int64 (f : float) : option Z :=
  match Prim2SF f with
  | S754_zero _ => Some 0
  | S754_finite s m e =>
      let mag := if 0 <=? e then Zpos m * 2 ^ e else Zpos m / 2 ^ (- e) in
      let v := if s then - mag else mag in
      if (- 2 ^ 63 <=? v) && (v <? 2 ^ 63) then Some v else None
  | _ => None
  end.

(** The decimal digits of [n > 0], least significant first, as ASCII codes. *)
Fixpoint digits_rev (fuel : nat) (n : Z) : list Z :=
  match fuel with
  | O => []
  | Datatypes.S fuel' =>
      (48 + n mod 10) :: (if n / 10 =? 0 then [] else digits_rev fuel' (n / 10))
  end.

(** [ss << result] for an [int64_t]: at most 19 digits and a sign. *)
Definition int64_to_string (z : Z) : list Z :=
  if z <? 0 then 45 :: reverse (digits_rev 19 (- z)) else reverse (digits_rev 19 z).

(** [memcpy(dst + off, src, n)]: both ranges must lie in their allocations. *)
Definition memcpy (dst : list Z) (off : Z) (src : list Z) (n : Z) : outcome (list Z) :=
  if (0 <=? off) && (0 <=? n) && (off + n <=? Z.of_nat (length dst))
     && (n <=? Z.of_nat (length src))
  then Ok (take (Z.to_nat off) dst ++ take (Z.to_nat n) src
           ++ drop (Z.to_nat (off + n)) dst)
  else Undefined.

Section Finalize.
Variable dchecks : bool.
(** [pow] of <math.h>. *)
Variable pow : float -> float -> float.

(** The emptiness scan, with its [break]. *)
Fixpoint is_empty_loop (n : nat) (i : Z) (bytes : list Z) : outcome bool :=
  match n with
  | O => Ok true
  | Datatypes.S n' =>
      b ← load8 bytes i;
      if negb (b =? 0) then Ok false else is_empty_loop n' (i + 1) bytes
  end.

(** [l && r] with [l] evaluated first: when [l] is indeterminate the
    condition is [false] all the same if [r] is, and indeterminate if not. *)
Definition and_then (l : option bool) (r : bool) : option bool :=
  match l with
  | Some true => Some r
  | Some false => Some false
  | None => if r then None else Some false
  end.

(** The [while] loop counting the leading ones of row [i]; the second
    component lists the bit indices handed to [GetDistinctEstimateBit]. *)
Fixpoint leading_ones_loop (fuel : nat) (bitmap : list Z) (i row_bit_count : Z)
    (reads : list Z) : outcome (Z * list Z) :=
  match fuel with
  | O => OutOfFuel
  | Datatypes.S fuel' =>
      bit ← GetDistinctEstimateBit bitmap i row_bit_count;
      let reads := reads ++ [row_bit_count] in
      cond ← determinate (and_then bit (row_bit_count <? PC_BITMAP_LENGTH));
      if cond : bool
      then leading_ones_loop fuel' bitmap i (row_bit_count + 1) reads
      else Ok (row_bit_count, reads)
  end.

Definition leading_ones (bitmap : list Z) (i : Z) : outcome (Z * list Z) :=
  leading_ones_loop (Z.to_nat (PC_BITMAP_LENGTH + 1)) bitmap i 0 [].

(** The loop over the rows: the sum of the counts, and every (row, bit
    index) read on the way. *)
Definition sum_rows (bitmap : list Z) : outcome (Z * list (Z * Z)) :=
  for_loop 0 NUM_PC_BITMAPS
    (fun i (st : Z * list (Z * Z)) =>
       r ← leading_ones bitmap i;
       Ok (st.1 + r.1, st.2 ++ map (pair i) r.2))
    (0, []).

Definition DistinceEstimateFinalize (src : StringVal) : outcome float :=
  DCHECK dchecks (negb (is_null src));;
  DCHECK dchecks (len src =? NUM_PC_BITMAPS * PC_BITMAP_LENGTH / 8);;
  is_empty ← is_empty_loop (Z.to_nat (NUM_PC_BITMAPS * PC_BITMAP_LENGTH / 8)) 0 (ptr src);
  if is_empty : bool then Ok 0%float else
  st ← sum_rows (ptr src);
  let sum := st.1 in
  let avg := (int_to_double sum / int_to_double NUM_PC_BITMAPS)%float in
  let result := (pow (int_to_double 2) avg / PC_THETA)%float in
  Ok result.

(** The tail shared by [PcFinalize] and [PcsaFinalize]: the estimate as an
    [int64_t], printed into the buffer of [src]. *)
Definition finalize_text (src : StringVal) (estimate : float) : outcome StringVal :=
  result ← determinate (double_to_int64 estimate);
  let str := int64_to_string result in
  let dst := src in
  bytes ← memcpy (ptr dst) 0 str (Z.of_nat (length str));
  Ok {| string_is_null := string_is_null dst;
        len := Z.of_nat (length str);
        ptr := bytes |}.

Definition PcFinalize (src : StringVal) : outcome StringVal :=
  estimate ← DistinceEstimateFinalize src;
  finalize_text src estimate.

Definition PcsaFinalize (src : StringVal) : outcome StringVal :=
  e ← DistinceEstimateFinalize src;
  let estimate := (e * int_to_double NUM_PC_BITMAPS)%float in
  finalize_text src estimate.
End Finalize.

(** A stand-in for [pow] in the examples: exact on a whole exponent (which
    is rounded down otherwise). *)
Definition pow_whole (x y : float) : float :=
  match double_to_int64 y with
  | Some n => Nat.iter (Z.to_nat n) (fun acc => (acc * x)%float) 1%float
  | None => nan
  end.


(** ** Scalar accumulators *)

Definition InitNull {V : Type} (dst : ScalarVal V) : ScalarVal V :=
  {| scalar_is_null := true; val := val dst |}.

Definition InitZero {V : Type} (zero : V) (dst : ScalarVal V) : ScalarVal V :=
  {| scalar_is_null := false; val := zero |}.

Abbreviation BigIntVal := (ScalarVal Z).
Abbreviation DoubleVal := (ScalarVal float).

Section Count.
Variable dchecks : bool.
Context {T : Type} `{AnyVal T}.

Definition CountUpdate (src : T) (dst : BigIntVal) : outcome BigIntVal :=
  DCHECK dchecks (negb (is_null dst));;
  if negb (is_null src)
  then Ok {| scalar_is_null := scalar_is_null dst; val := to_int64 (val dst + 1) |}
  else Ok dst.

Definition CountStarUpdate (dst : BigIntVal) : outcome BigIntVal :=
  DCHECK dchecks (negb (is_null dst));;
  Ok {| scalar_is_null := scalar_is_null dst; val := to_int64 (val dst + 1) |}.
End Count.

(** [Sum<SRC_VAL, DST_VAL>]: [add] is [+=] of the destination's arithmetic
    after the usual conversion of the source, [zero] its [0]. *)
Section Sum.
Context {SRC DST : Type}.
Variable add : DST -> SRC -> DST.
Variable zero : DST.

Definition Sum (src : ScalarVal SRC) (dst : ScalarVal DST) : ScalarVal DST :=
  if is_null src then dst else
  let dst := if is_null dst then InitZero zero dst else dst in
  {| scalar_is_null := scalar_is_null dst; val := add (val dst) (val src) |}.
End Sum.

(** The instances with a [BigIntVal] destination (sources [BooleanVal],
    [TinyIntVal], [SmallIntVal], [IntVal], [BigIntVal]): 64-bit two's
    complement addition. *)
Definition Sum_BigIntVal : ScalarVal Z -> BigIntVal -> BigIntVal :=
  Sum (fun d s => to_int64 (d + s)) 0.

(** The instances with a [DoubleVal] destination (sources [FloatVal],
    [DoubleVal]): binary64 addition. *)
Definition Sum_DoubleVal : ScalarVal float -> DoubleVal -> DoubleVal :=
  Sum PrimFloat.add 0%float.

(** [Min<T>] and [Max<T>] of the fixed-width domains; [ltb] is [<] of the
    payload, and [a > b] is [b < a]. *)
Section MinMax.
Context {V : Type}.
Variable ltb : V -> V -> bool.

Definition Min (src dst : ScalarVal V) : ScalarVal V :=
  if is_null src then dst else
  if is_null dst || ltb (val src) (val dst) then src else dst.

Definition Max (src dst : ScalarVal V) : ScalarVal V :=
  if is_null src then dst else
  if is_null dst || ltb (val dst) (val src) then src else dst.

(** The [TimestampVal] specialisations, [ltb] being the order of
    [TimestampValue] (runtime/timestamp-value.h). *)
Definition Min_TimestampVal (src dst : ScalarVal V) : ScalarVal V :=
  if is_null src then dst else
  if is_null dst then src else
  if ltb (val src) (val dst) then src else dst.

Definition Max_TimestampVal (src dst : ScalarVal V) : ScalarVal V :=
  if is_null src then dst else
  if is_null dst then src else
  if ltb (val dst) (val src) then src else dst.
End MinMax.

(** ** The scratch buffer *)

(** [buffer] is [None] for [NULL], and the bytes of the allocation else. *)
Record StringValScratch : Type := mkScratch {
  buffer_len : Z;
  str_len : Z;
  buffer : option (list Z)
}.

Definition new_StringValScratch : StringValScratch :=
  {| buffer_len := 0; str_len := 0; buffer := None |}.

(** [ctx->Allocate(n)]: [n] fresh bytes. Their contents are indeterminate;
    the code writes every byte of a buffer before it reads it. *)
Definition Allocate (n : Z) : list Z := replicate (Z.to_nat n) 0.

(** [memcpy] into a buffer that may be [NULL]: nothing is copied for
    [n = 0]. *)
Definition memcpy_to (dst : option (list Z)) (off : Z) (src : list Z) (n : Z)
  : outcome (option (list Z)) :=
  if n =? 0 then Ok dst else
  match dst with
  | Some d => d' ← memcpy d off src n; Ok (Some d')
  | None => Undefined
  end.

Definition bytes_of (b : option (list Z)) : list Z := default [] b.

Definition sizeof_StringValScratch : Z := 16.

Section Scratch.
Variable dchecks : bool.

Definition ResizeBufferTo (s : StringValScratch) (new_len : Z) (copy : bool)
  : outcome StringValScratch :=
  if new_len <=? buffer_len s then Ok s else
  DCHECK dchecks (0 <? new_len);;
  let new_len := new_len + Z.quot new_len 2 in
  (* signed overflow of [int] *)
  (if new_len <? 2 ^ 31 then Ok () else Undefined);;
  let new_buffer := Allocate new_len in
  new_buffer ← (if copy then memcpy_to (Some new_buffer) 0 (bytes_of (buffer s)) (str_len s)
                else Ok (Some new_buffer));
  Ok {| buffer_len := new_len; str_len := str_len s; buffer := new_buffer |}.

Definition StringValScratch_Set (s : StringValScratch) (sv : StringVal)
  : outcome StringValScratch :=
  s ← ResizeBufferTo s (len sv) false;
  b ← memcpy_to (buffer s) 0 (ptr sv) (len sv);
  Ok {| buffer_len := buffer_len s; str_len := len sv; buffer := b |}.

Definition StringValScratch_Append (s : StringValScratch) (sv : StringVal)
  : outcome StringValScratch :=
  if len sv =? 0 then Ok s else
  let new_len := str_len s + len sv in
  s ← (if buffer_len s <? new_len then ResizeBufferTo s new_len true else Ok s);
  b ← memcpy_to (buffer s) (str_len s) (ptr sv) (len sv);
  Ok {| buffer_len := buffer_len s; str_len := str_len s + len sv; buffer := b |}.

(** The [StringVal] slot whose [ptr] is a [StringValScratch*]. *)
Record ScratchVal : Type := mkScratchVal {
  scratch_is_null : bool;
  scratch_len : Z;
  scratch : StringValScratch
}.

Definition InitScratch : ScratchVal :=
  {| scratch_is_null := false;
     scratch_len := sizeof_StringValScratch;
     scratch := new_StringValScratch |}.

Definition StringVal_null : StringVal :=
  {| string_is_null := true; len := 0; ptr := [] |}.

Definition SerializeScratch (sv : ScratchVal) : outcome StringVal :=
  DCHECK dchecks (negb (scratch_is_null sv));;
  DCHECK dchecks (scratch_len sv =? sizeof_StringValScratch);;
  let s := scratch sv in
  let result := StringVal_null in
  let result :=
    match buffer s with
    | Some b => {| string_is_null := false; len := str_len s; ptr := b |}
    | None => result
    end in
  Ok result.

(** Modelled from the spec: [operator<] of [StringValue]
    (runtime/string-value.h) is not among the sources; the text order is
    lexicographic over the bytes. *)
Fixpoint StringValue_lt (a b : list Z) : bool :=
  match a, b with
  | _, [] => false
  | [], _ :: _ => true
  | x :: a', y :: b' => (x <? y) || ((x =? y) && StringValue_lt a' b')
  end.

(** The bytes a [StringValue(ptr, len)] denotes. *)
Definition StringValue (p : list Z) (n : Z) : list Z := take (Z.to_nat n) p.

Definition with_scratch (dst : ScratchVal) (s : StringValScratch) : ScratchVal :=
  {| scratch_is_null := scratch_is_null dst; scratch_len := scratch_len dst; scratch := s |}.

Definition Min_StringVal (src : StringVal) (dst : ScratchVal) : outcome ScratchVal :=
  if is_null src then Ok dst else
  DCHECK dchecks (negb (scratch_is_null dst));;
  DCHECK dchecks (scratch_len dst =? sizeof_StringValScratch);;
  let s := scratch dst in
  let src_sv := StringValue (ptr src) (len src) in
  let dst_sv := StringValue (bytes_of (buffer s)) (str_len s) in
  if bool_decide (buffer s = None) || StringValue_lt src_sv dst_sv
  then s ← StringValScratch_Set s src; Ok (with_scratch dst s)
  else Ok dst.

Definition Max_StringVal (src : StringVal) (dst : ScratchVal) : outcome ScratchVal :=
  if is_null src then Ok dst else
  DCHECK dchecks (negb (scratch_is_null dst));;
  DCHECK dchecks (scratch_len dst =? sizeof_StringValScratch);;
  let s := scratch dst in
  let src_sv := StringValue (ptr src) (len src) in
  let dst_sv := StringValue (bytes_of (buffer s)) (str_len s) in
  if bool_decide (buffer s = None) || StringValue_lt dst_sv src_sv
  then s ← StringValScratch_Set s src; Ok (with_scratch dst s)
  else Ok dst.

(** [", "], the delimiter used when the separator is NULL. *)
Definition DEFAULT_STRING_CONCAT_DELIM : StringVal :=
  {| string_is_null := false; len := 2; ptr := [44; 32] |}.

Definition StringConcat (src separator : StringVal) (result : ScratchVal)
  : outcome ScratchVal :=
  if is_null src then Ok result else
  if is_null src then Ok result else
  DCHECK dchecks (negb (scratch_is_null result));;
  DCHECK dchecks (scratch_len result =? sizeof_StringValScratch);;
  let s := scratch result in
  if bool_decide (buffer s = None)
  then s ← StringValScratch_Set s src; Ok (with_scratch result s)
  else
    s ← (if is_null separator
         then StringValScratch_Append s DEFAULT_STRING_CONCAT_DELIM
         else StringValScratch_Append s separator);
    s ← StringValScratch_Append s src;
    Ok (with_scratch result s).
End Scratch.

(** * Notions used in the statements *)

(** A well-formed byte buffer: every element is a [uint8_t]. *)
Definition bytes_ok (m : list Z) : Prop :=
  forallb (fun b => (0 <=? b) && (b <? 256)) m = true.

(** A sketch bitmap: a non-null [StringVal] of 256 bytes. *)
Definition is_bitmap (s : StringVal) : Prop :=
  is_null s = false /\ len s = 256 /\ length (ptr s) = 256%nat /\ bytes_ok (ptr s).

Definition all_zero (m : list Z) : bool := forallb (Z.eqb 0) m.

Definition byte_at (m : list Z) (i : Z) : Z := default 0 (m !! Z.to_nat i).

(** Row [k] of a bitmap: the 32-bit word of bytes [4k .. 4k+3]; column [c]
    of the row is bit [c] of the word. *)
Definition word_at (m : list Z) (k : Z) : Z :=
  Z.lor (byte_at m (4 * k))
    (Z.lor (Z.shiftl (byte_at m (4 * k + 1)) 8)
       (Z.lor (Z.shiftl (byte_at m (4 * k + 2)) 16)
          (Z.shiftl (byte_at m (4 * k + 3)) 24))).

(** The bytes of a buffer after [store32] of [w] at word [k]. *)
Definition store32_bytes (m : list Z) (k w : Z) : list Z :=
  <[Z.to_nat (4 * k + 3) := to_uint8 (Z.shiftr w 24)]>
    (<[Z.to_nat (4 * k + 2) := to_uint8 (Z.shiftr w 16)]>
       (<[Z.to_nat (4 * k + 1) := to_uint8 (Z.shiftr w 8)]>
          (<[Z.to_nat (4 * k) := to_uint8 w]> m))).

Definition bitmap_bit (m : list Z) (row col : Z) : bool := Z.testbit (word_at m row) col.

(** The leading-run length of a row, in the words of the design: the run of
    consecutive set bits from column 0 up to the first unset bit or the row
    width. *)
Fixpoint run_of_ones (n : nat) (w c : Z) : Z :=
  match n with
  | O => 0
  | Datatypes.S n' => if Z.testbit w c then 1 + run_of_ones n' w (c + 1) else 0
  end.

Definition leading_run_length (w : Z) : Z :=
  run_of_ones (Z.to_nat PC_BITMAP_LENGTH) w 0.

Definition sum_leading_runs (m : list Z) : Z :=
  foldr Z.add 0 ((fun r => leading_run_length (word_at m r)) <$> seqZ 0 NUM_PC_BITMAPS).

(** [c] is the trailing-zero count of [h]: bit [c] is the lowest set bit. *)
Definition trailing_zero_count (h c : Z) : Prop :=
  0 <= c /\ Z.testbit h c = true /\ forall j, 0 <= j < c -> Z.testbit h j = false.

(** The column the sketch uses for a hash value. *)
Definition hash_column (h c : Z) : Prop :=
  if h =? 0 then c = PC_BITMAP_LENGTH - 1 else trailing_zero_count h c.

(** The bit index [PcUpdate] and [PcsaUpdate] compute from a hash value and
    the argument they hand to [__builtin_ctz]. *)
Definition column_of (hash_value ctz_arg : Z) : Z :=
  if hash_value =? 0 then PC_BITMAP_LENGTH - 1 else default 0 (builtin_ctz ctz_arg).

(** What a finalize call returns for the integer [r]: the buffer of [src]
    with the decimal text of [r] over its first bytes, and the length of
    that text. *)
Definition estimate_text (src : StringVal) (r : Z) : StringVal :=
  let str := int64_to_string r in
  {| string_is_null := string_is_null src;
     len := Z.of_nat (length str);
     ptr := str ++ drop (length str) (ptr src) |}.

(** State of the loop of [PcUpdate] before iteration [i], from the bitmap
    [m0]: the rows below [i] have gained their column. *)
Definition PcUpdate_inv (col : Z -> Z) (m0 : list Z) (i : Z) (m : list Z) : Prop :=
  length m = length m0 /\ bytes_ok m /\
  forall r c, 0 <= r -> 0 <= c < 32 ->
    bitmap_bit m r c = bitmap_bit m0 r c || ((r <? i) && (col r =? c)).

(** A stand-in hash for the examples: eight times the value, plus the seed. *)
Definition example_hash (v : ScalarVal Z) (seed : Z) : Z := val v * 8 + seed.

(** Byte-wise OR of two buffers, as stored back into [uint8_t]s. *)
Definition or_bytes (dst src : list Z) : list Z :=
  zip_with (fun d s => to_uint8 (Z.lor d s)) dst src.

(** State of the loop of [PcMerge] before iteration [i]. *)
Definition PcMerge_inv (src dst : list Z) (i : Z) (m : list Z) : Prop :=
  length m = length dst /\
  forall j : nat,
    m !! j = if decide (Z.of_nat j < i)
             then d ← dst !! j; s ← src !! j; Some (to_uint8 (Z.lor d s))
             else dst !! j.

(** A buffer of 300 zero bytes that calls itself 300 bytes long. *)
Definition bitmap300 : StringVal :=
  {| string_is_null := false; len := 300; ptr := replicate 300 0 |}.

(** A call does not end in the abort of a DCHECK. *)
Definition no_abort {A : Type} (o : outcome A) : Prop := o <> DcheckFailure.

(** The (row, bit index) pairs [DistinceEstimateFinalize] hands to
    [GetDistinctEstimateBit] while it counts: for each row, the indices from
    0 up to and including the leading-run length. *)
Definition finalize_reads (m : list Z) : list (Z * Z) :=
  concat ((fun r => pair r <$> seqZ 0 (leading_run_length (word_at m r) + 1))
            <$> seqZ 0 NUM_PC_BITMAPS).

(** State of the loop over the rows before row [i]. *)
Definition sum_rows_inv (m : list Z) (i : Z) (st : Z * list (Z * Z)) : Prop :=
  st.1 = foldr Z.add 0 ((fun r => leading_run_length (word_at m r)) <$> seqZ 0 i) /\
  st.2 = concat ((fun r => pair r <$> seqZ 0 (leading_run_length (word_at m r) + 1))
                   <$> seqZ 0 i).

(** A bitmap with column 0 set in every row, and one with every bit set. *)
Definition bitmap_ones : StringVal :=
  {| string_is_null := false; len := 256; ptr := concat (replicate 64 [1; 0; 0; 0]) |}.
Definition bitmap_full : StringVal :=
  {| string_is_null := false; len := 256; ptr := replicate 256 255 |}.

(** A bitmap with column 1 set in every row. *)
Definition bitmap_twos : StringVal :=
  {| string_is_null := false; len := 256; ptr := concat (replicate 64 [2; 0; 0; 0]) |}.

(** [dst] is the buffer of [src] with the decimal text of [r] over its
    first bytes and every other byte as it was, and carries the length of
    the text. *)
Definition prefix_overwritten (src dst : StringVal) (r : Z) : Prop :=
  let n := length (int64_to_string r) in
  (1 <= n <= 20)%nat /\
  len dst = Z.of_nat n /\
  length (ptr dst) = length (ptr src) /\
  take n (ptr dst) = int64_to_string r /\
  drop n (ptr dst) = drop n (ptr src).

(** A run of Update calls over the inputs in order, from the state [init]. *)
Definition updates {I S : Type} (update : I -> S -> S) (init : S) (inputs : list I) : S :=
  foldl (fun dst src => update src dst) init inputs.

(** The payloads of the non-null inputs, in order. *)
Definition non_null_vals {V : Type} (inputs : list (ScalarVal V)) : list V :=
  val <$> filter (fun x => is_null x = false) inputs.

Definition sum_Z (l : list Z) : Z := foldr Z.add 0 l.

(** The partial states of the partitions, each accumulated from [init], are
    combined by the same [Sum] (its instance with the destination type as
    source), into a state that starts from [init] too. *)
Definition Sum_BigIntVal_partitioned (init : BigIntVal) (parts : list (list (ScalarVal Z)))
  : BigIntVal :=
  updates Sum_BigIntVal init (updates Sum_BigIntVal init <$> parts).

(** The scenario of the design: the inputs 3, NULL, 7, 2. *)
Definition scenario_inputs : list (ScalarVal Z) :=
  [mkScalarVal false 3; mkScalarVal true 0; mkScalarVal false 7; mkScalarVal false 2].

(** Three doubles: 1, 2^60 and -2^60. *)
Definition double_inputs : list (ScalarVal float) :=
  [mkScalarVal false 1%float; mkScalarVal false 0x1p60%float;
   mkScalarVal false (-0x1p60)%float].

(** A run of fallible Update calls over the inputs in order. *)
Definition updates_o {I S : Type} (update : I -> S -> outcome S) (init : S)
    (inputs : list I) : outcome S :=
  foldl (fun acc src => dst ← acc; update src dst) (Ok init) inputs.

(** A non-null text value, and the text a [StringVal] denotes ([None] for
    NULL). *)
Definition text (bytes : list Z) : StringVal :=
  {| string_is_null := false; len := Z.of_nat (length bytes); ptr := bytes |}.

Definition text_of (sv : StringVal) : option (list Z) :=
  if is_null sv then None else Some (StringValue (ptr sv) (len sv)).

(** Text accumulators run from [InitScratch] and serialised at the end. *)
Definition Min_StringVal_result (dchecks : bool) (inputs : list StringVal)
  : outcome (option (list Z)) :=
  s ← updates_o (Min_StringVal dchecks) InitScratch inputs;
  sv ← SerializeScratch dchecks s;
  Ok (text_of sv).

Definition Max_StringVal_result (dchecks : bool) (inputs : list StringVal)
  : outcome (option (list Z)) :=
  s ← updates_o (Max_StringVal dchecks) InitScratch inputs;
  sv ← SerializeScratch dchecks s;
  Ok (text_of sv).

Definition StringConcat_result (dchecks : bool) (inputs : list (StringVal * StringVal))
  : outcome (option (list Z)) :=
  s ← updates_o (fun x => StringConcat dchecks x.1 x.2) InitScratch inputs;
  sv ← SerializeScratch dchecks s;
  Ok (text_of sv).

(** The concatenation the design promises for the calls (value, separator)
    with non-null values: the first value, then for each later call its
    separator (the default delimiter if that is NULL) and its value. *)
Definition separator_text (separator : StringVal) : list Z :=
  StringValue (ptr (if is_null separator then DEFAULT_STRING_CONCAT_DELIM else separator))
    (len (if is_null separator then DEFAULT_STRING_CONCAT_DELIM else separator)).

Definition concat_expected (calls : list (StringVal * StringVal)) : list Z :=
  match calls with
  | [] => []
  | first :: rest =>
      StringValue (ptr first.1) (len first.1)
      ++ concat ((fun c => separator_text c.2 ++ StringValue (ptr c.1) (len c.1)) <$> rest)
  end.

(** [m] is a least element of [vs] for the order [ltb]. *)
Definition is_least {V : Type} (ltb : V -> V -> bool) (m : V) (vs : list V) : Prop :=
  m ∈ vs /\ forall v, v ∈ vs -> ltb v m = false.

(** [ltb] is a strict total order. *)
Definition strict_total_order {V : Type} (ltb : V -> V -> bool) : Prop :=
  (forall x, ltb x x = false) /\
  (forall x y z, ltb x y = true -> ltb y z = true -> ltb x z = true) /\
  (forall x y, ltb x y = false -> ltb y x = false -> x = y).

(** Partitions accumulated from the null state and combined by the same
    function. *)
Definition partitioned {V : Type} (update : ScalarVal V -> ScalarVal V -> ScalarVal V)
    (init : ScalarVal V) (parts : list (list (ScalarVal V))) : ScalarVal V :=
  updates update init (updates update init <$> parts).

(** A consistent scratch: a NULL buffer is empty, and the current string
    lies within the allocation otherwise. *)
Definition scratch_wf (s : StringValScratch) : Prop :=
  match buffer s with
  | None => buffer_len s = 0 /\ str_len s = 0
  | Some b => Z.of_nat (length b) = buffer_len s /\ 0 <= str_len s <= buffer_len s
  end.

(** The string a scratch holds: [buffer[0, str_len)]. *)
Definition scratch_text (s : StringValScratch) : list Z :=
  StringValue (bytes_of (buffer s)) (str_len s).

(** A [StringVal] whose length lies within its allocation, and its bytes. *)
Definition sv_ok (sv : StringVal) : Prop := 0 <= len sv <= Z.of_nat (length (ptr sv)).
Definition sv_bytes (sv : StringVal) : list Z := StringValue (ptr sv) (len sv).

(** A length the 1.5-fold growth of the buffer can take without overflow. *)
Definition growable (n : Z) : Prop := n + Z.quot n 2 < 2 ^ 31.

(** A scratch slot as [InitScratch] makes it, holding [s]. *)
Definition slot (s : StringValScratch) : ScratchVal := with_scratch InitScratch s.

(** What the calls after the first add: for each, its separator and value. *)
Definition tail_text (rest : list (StringVal * StringVal)) : list Z :=
  concat ((fun c => separator_text c.2 ++ StringValue (ptr c.1) (len c.1)) <$> rest).

(** The calls whose value is not NULL. *)
Definition live_calls (calls : list (StringVal * StringVal)) : list (StringVal * StringVal) :=
  filter (fun c => is_null c.1 = false) calls.

Definition calls_ok (calls : list (StringVal * StringVal)) : Prop :=
  Forall (fun c => sv_ok c.1 /\ sv_ok c.2) calls.

(** Calls with the values "a", "b", NULL, "c": separators ",", ",", ";" and
    NULL. *)
Definition example_calls : list (StringVal * StringVal) :=
  [(text [97], text [44]); (text [98], text [44]); (StringVal_null, text [59]);
   (text [99], StringVal_null)].

(** The body the text Min and Max share: [better src dst] tells whether the
    input replaces the current winner. *)
Definition select_StringVal (better : list Z -> list Z -> bool) (dchecks : bool)
    (src : StringVal) (dst : ScratchVal) : outcome ScratchVal :=
  if is_null src then Ok dst else
  DCHECK dchecks (negb (scratch_is_null dst));;
  DCHECK dchecks (scratch_len dst =? sizeof_StringValScratch);;
  let s := scratch dst in
  if bool_decide (buffer s = None)
     || better (StringValue (ptr src) (len src))
          (StringValue (bytes_of (buffer s)) (str_len s))
  then s ← StringValScratch_Set dchecks s src; Ok (with_scratch dst s)
  else Ok dst.

(** The texts of the non-null inputs. *)
Definition texts (inputs : list StringVal) : list (list Z) :=
  sv_bytes <$> filter (fun sv => is_null sv = false) inputs.

(** Inputs the text Min and Max handle: lengths within the allocations and
    within what the buffer growth can take, and no empty string among the
    non-null ones. *)
Definition texts_ok (inputs : list StringVal) : Prop :=
  Forall (fun sv => sv_ok sv /\ growable (len sv) /\ (is_null sv = false -> len sv <> 0))
    inputs.

Definition select_result (better : list Z -> list Z -> bool) (dchecks : bool)
    (inputs : list StringVal) : outcome (option (list Z)) :=
  s ← updates_o (select_StringVal better dchecks) InitScratch inputs;
  sv ← SerializeScratch dchecks s;
  Ok (text_of sv).

(** Calls in sequence, collecting the results. *)
Fixpoint collect {A B : Type} (f : A -> outcome B) (l : list A) : outcome (list B) :=
  match l with
  | [] => Ok []
  | x :: l' => y ← f x; ys ← collect f l'; Ok (y :: ys)
  end.

(** The serialised partial state of one partition, and the result over
    partitions: the partial states are fed, as inputs, to the same function
    on a fresh scratch. *)
Definition select_partial (better : list Z -> list Z -> bool) (dchecks : bool)
    (part : list StringVal) : outcome StringVal :=
  s ← updates_o (select_StringVal better dchecks) InitScratch part;
  SerializeScratch dchecks s.

Definition select_partitioned (better : list Z -> list Z -> bool) (dchecks : bool)
    (parts : list (list StringVal)) : outcome (option (list Z)) :=
  partials ← collect (select_partial better dchecks) parts;
  select_result better dchecks partials.

(** The text Min and Max over partitions: each partition is accumulated on
    a fresh scratch and serialised, and the partial results are fed to the
    same function on a fresh scratch. *)
Definition Min_StringVal_partitioned (dchecks : bool) (parts : list (list StringVal))
  : outcome (option (list Z)) :=
  partials ← collect (fun part =>
                        s ← updates_o (Min_StringVal dchecks) InitScratch part;
                        SerializeScratch dchecks s) parts;
  Min_StringVal_result dchecks partials.

Definition Max_StringVal_partitioned (dchecks : bool) (parts : list (list StringVal))
  : outcome (option (list Z)) :=
  partials ← collect (fun part =>
                        s ← updates_o (Max_StringVal dchecks) InitScratch part;
                        SerializeScratch dchecks s) parts;
  Max_StringVal_result dchecks partials.

(** The texts "bc", NULL, "ad", "b". *)
Definition example_texts : list StringVal :=
  [text [98; 99]; StringVal_null; text [97; 100]; text [98]].

(** Two buffers hold the same 64 x 32 bit matrix. *)
Definition same_bits (m1 m2 : list Z) : Prop :=
  forall r c, 0 <= r < NUM_PC_BITMAPS -> 0 <= c < PC_BITMAP_LENGTH ->
    bitmap_bit m1 r c = bitmap_bit m2 r c.

(** The text of one row of the dump, and of the whole dump. *)
Definition dump_row (m : list Z) (r : Z) : list Z :=
  ((fun c => if bitmap_bit m r c then 49 else 48) <$> seqZ 0 PC_BITMAP_LENGTH) ++ [10].

Definition dump (m : list Z) : list Z :=
  concat (dump_row m <$> seqZ 0 NUM_PC_BITMAPS) ++ [10].

(** The bits one input sets: for [PcUpdate], in every row the column of the
    row's hash; for [PcsaUpdate], one bit, in the row the hash selects. *)
Definition PcUpdate_sets {T : Type} `{AnyVal T} (Hash : T -> Z -> Z) (x : T) (r c : Z) : bool :=
  negb (is_null x)
  && (column_of (to_uint32 (Hash x r)) (to_uint32 (Hash x r)) =? c).

Definition PcsaUpdate_sets {T : Type} `{AnyVal T} (Hash : T -> Z -> Z) (x : T) (r c : Z)
  : bool :=
  negb (is_null x)
  && (r =? to_uint32 (Hash x 0) mod NUM_PC_BITMAPS)
  && (column_of (to_uint32 (Hash x 0)) (to_uint32 (Hash x 0) / NUM_PC_BITMAPS) =? c).

(** An input [PcsaUpdate] has a defined call for: NULL, or with a hash that
    is zero or at least 64. *)
Definition pcsa_input_ok {T : Type} `{AnyVal T} (Hash : T -> Z -> Z) (x : T) : Prop :=
  is_null x = true \/ to_uint32 (Hash x 0) = 0 \/ NUM_PC_BITMAPS <= to_uint32 (Hash x 0).

(** A distributed run of a sketch: every partition is accumulated from
    [PcInit], and the partial bitmaps are merged into a fresh [PcInit]. *)
Definition sketch_partitioned {T : Type} (dchecks : bool)
    (update : T -> StringVal -> outcome StringVal) (parts : list (list T))
  : outcome StringVal :=
  partials ← collect (updates_o update PcInit) parts;
  updates_o (PcMerge dchecks) PcInit partials.

(** Example inputs for the sketches: the values 100 and 16, and NULL. *)
Definition sketch_inputs : list (ScalarVal Z) :=
  [mkScalarVal false 100; mkScalarVal true 0; mkScalarVal false 16].

(** [s] is the sum of the leading-run lengths that [DistinceEstimateFinalize]
    computes for the buffer [m]. *)
Definition leading_sum (m : list Z) (s : Z) : Prop :=
  exists reads, sum_rows m = Ok (s, reads).

(** A buffer of 100 zero bytes that calls itself 256 bytes long. *)
Definition bitmap100 : StringVal :=
  {| string_is_null := false; len := 256; ptr := replicate 100 0 |}.

(** The number of inputs that are not NULL. *)
Definition count_non_null {T : Type} `{AnyVal T} (inputs : list T) : Z :=
  Z.of_nat (length (filter (fun x => is_null x = false) inputs)).

(** The states of a scratch along a run of [Append] calls: the state before
    each call, and the final one. *)
Fixpoint append_states (dchecks : bool) (s : StringValScratch) (svs : list StringVal)
  : outcome (list StringValScratch) :=
  match svs with
  | [] => Ok [s]
  | sv :: rest =>
      s' ← StringValScratch_Append dchecks s sv;
      states ← append_states dchecks s' rest;
      Ok (s :: states)
  end.

(** The number of calls along a run that left the scratch with another
    capacity, which are the calls that allocated a new buffer. *)
Fixpoint reallocations (states : list StringValScratch) : nat :=
  match states with
  | s :: rest =>
      match rest with
      | s' :: _ => (if buffer_len s =? buffer_len s' then 0 else 1) + reallocations rest
      | [] => 0
      end
  | [] => 0
  end.

(** The bytes of a list of values, one after the other. *)
Definition all_bytes (svs : list StringVal) : list Z := concat (sv_bytes <$> svs).

(** Ten one-byte values. *)
Definition ten_bytes : list StringVal := replicate 10 (text [97]).

(** The integer a decimal text denotes: digits, most significant first,
    after an optional minus sign. *)
Definition decimal_value (digits : list Z) : Z :=
  foldl (fun acc d => 10 * acc + (d - 48)) 0 digits.

Definition parse_int64 (txt : list Z) : Z :=
  match txt with
  | 45 :: digits => - decimal_value digits
  | _ => decimal_value txt
  end.

Definition is_digit (d : Z) : Prop := 48 <= d <= 57.

(** A slot that is not what [InitScratch] makes: NULL, or of another
    length than a [StringValScratch]. *)
Definition bad_slot (dst : ScratchVal) : Prop :=
  scratch_is_null dst = true \/ scratch_len dst <> sizeof_StringValScratch.

(** [txt] is the decimal notation of [r]: a minus sign when [r] is
    negative, then the digits of its magnitude, most significant first,
    with no leading zero. *)
Definition is_decimal_of (txt : list Z) (r : Z) : Prop :=
  exists digits,
    txt = (if r <? 0 then [45] else []) ++ digits /\
    digits <> [] /\ Forall is_digit digits /\
    decimal_value digits = Z.abs r /\
    (forall rest, digits = 48 :: rest -> rest = []).

(** [dst] is a non-null value whose [len] bytes are the decimal notation of
    [r]. *)
Definition decimal_result (dst : StringVal) (r : Z) : Prop :=
  is_null dst = false /\ sv_ok dst /\ is_decimal_of (sv_bytes dst) r.

(** The double nearest to 0.77351, which is not the single-precision
    [PC_THETA]. *)
Definition theta_double : float := 0x1.8c0980b242071p-1%float.

(** A bitmap with columns 0 to 23 set in every row. *)
Definition bitmap_24 : StringVal :=
  {| string_is_null := false; len := 256; ptr := concat (replicate 64 [255; 255; 255; 0]) |}.
(** * Properties *)

(** ** Loops and memory *)

Lemma for_range_inv {S : Type} (P : Z -> S -> Prop) (body : Z -> S -> outcome S) :
  forall (n : nat) (i : Z) (s : S),
    P i s ->
    (forall j t, i <= j < i + Z.of_nat n -> P j t ->
                 exists t', body j t = Ok t' /\ P (j + 1) t') ->
    exists s', for_range n i body s = Ok s' /\ P (i + Z.of_nat n) s'.
Proof.
  induction n as [|n IH]; intros i s HP Hstep; simpl.
  - exists s. split; [done|]. by replace (i + Z.of_nat 0) with i by lia.
  - destruct (Hstep i s) as (t & Hb & Ht); [lia|done|].
    rewrite Hb. simpl.
    destruct (IH (i + 1) t Ht) as (s' & Hs' & HP').
    { intros j u Hj Hu. apply Hstep; [lia|done]. }
    exists s'. split; [done|].
    by replace (i + Z.of_nat (Datatypes.S n)) with (i + 1 + Z.of_nat n) by lia.
Qed.

Lemma load8_lookup (m : list Z) (i : Z) :
  0 <= i < Z.of_nat (length m) -> load8 m i = Ok (byte_at m i).
Proof.
  intros Hi. unfold load8, byte_at.
  destruct (Z.leb_spec 0 i); [|lia].
  destruct (lookup_lt_is_Some_2 m (Z.to_nat i)) as [b Hb]; [lia|].
  by rewrite Hb.
Qed.

Lemma store8_in (m : list Z) (i v : Z) :
  0 <= i < Z.of_nat (length m) ->
  store8 m i v = Ok (<[Z.to_nat i := to_uint8 v]> m).
Proof.
  intros Hi. unfold store8.
  destruct (Z.leb_spec 0 i); [|lia].
  destruct (Z.ltb_spec i (Z.of_nat (length m))); [done|lia].
Qed.

Lemma bytes_ok_lookup (m : list Z) (i : nat) (b : Z) :
  bytes_ok m -> m !! i = Some b -> 0 <= b < 256.
Proof.
  unfold bytes_ok. rewrite forallb_forall. intros Hm Hb.
  apply list_elem_of_lookup_2, list_elem_of_In, Hm in Hb. lia.
Qed.

Lemma bytes_ok_insert (m : list Z) (i : nat) (v : Z) :
  bytes_ok m -> bytes_ok (<[i := to_uint8 v]> m).
Proof.
  unfold bytes_ok. rewrite !forallb_forall. intros Hm x Hx.
  apply list_elem_of_In, list_elem_of_lookup in Hx as [j Hj].
  destruct (decide (i = j)) as [->|Hne].
  - destruct (decide (j < length m)%nat).
    + rewrite list_lookup_insert_eq in Hj by done. injection Hj as <-.
      unfold to_uint8. pose proof (Z.mod_pos_bound v (2 ^ 8)). lia.
    + rewrite list_insert_ge in Hj by lia.
      apply Hm, list_elem_of_In. by eapply list_elem_of_lookup_2.
  - rewrite list_lookup_insert_ne in Hj by done.
    apply Hm, list_elem_of_In. by eapply list_elem_of_lookup_2.
Qed.

Lemma byte_at_insert (m : list Z) (i : nat) (j v : Z) :
  0 <= j ->
  byte_at (<[i := v]> m) j =
    if decide (i = Z.to_nat j /\ (i < length m)%nat) then v else byte_at m j.
Proof.
  intros Hj. unfold byte_at.
  destruct (decide (i = Z.to_nat j /\ (i < length m)%nat)) as [[-> Hlt]|Hn].
  - by rewrite list_lookup_insert_eq.
  - destruct (decide (i = Z.to_nat j)) as [->|Hne].
    + rewrite list_insert_ge; [done|lia].
    + by rewrite list_lookup_insert_ne.
Qed.

Ltac split_ltb :=
  repeat match goal with
         | |- context [?a <? ?b] => destruct (Z.ltb_spec a b); try lia
         end.

Lemma le_bytes_word (w : Z) :
  Z.lor (to_uint8 w)
    (Z.lor (Z.shiftl (to_uint8 (Z.shiftr w 8)) 8)
       (Z.lor (Z.shiftl (to_uint8 (Z.shiftr w 16)) 16)
          (Z.shiftl (to_uint8 (Z.shiftr w 24)) 24))) = to_uint32 w.
Proof.
  unfold to_uint8, to_uint32. apply Z.bits_inj'. intros n Hn.
  rewrite !Z.lor_spec, !Z.shiftl_spec, !Z.testbit_mod_pow2 by lia.
  assert (n < 8 \/ 8 <= n < 16 \/ 16 <= n < 24 \/ 24 <= n < 32 \/ 32 <= n) as Hc by lia.
  destruct Hc as [?|[?|[?|[?|?]]]]; split_ltb; simpl;
    rewrite ?(Z.testbit_neg_r _ (n - 8)), ?(Z.testbit_neg_r _ (n - 16)),
      ?(Z.testbit_neg_r _ (n - 24)) by lia;
    rewrite ?Z.shiftr_spec by lia; simpl; rewrite ?orb_false_r; try done;
    f_equal; lia.
Qed.

Lemma load32_word (m : list Z) (k : Z) :
  0 <= k -> 4 * k + 3 < Z.of_nat (length m) -> load32 m k = Ok (word_at m k).
Proof.
  intros Hk Hlen. unfold load32.
  rewrite !load8_lookup by lia. done.
Qed.

Lemma store32_in (m : list Z) (k w : Z) :
  0 <= k -> 4 * k + 3 < Z.of_nat (length m) ->
  store32 m k w = Ok (store32_bytes m k w).
Proof.
  intros Hk Hlen. unfold store32, store32_bytes.
  rewrite store8_in by lia. simpl.
  rewrite store8_in by (rewrite length_insert; lia). simpl.
  rewrite store8_in by (rewrite !length_insert; lia). simpl.
  rewrite store8_in by (rewrite !length_insert; lia). done.
Qed.

Lemma length_store32_bytes (m : list Z) (k w : Z) :
  length (store32_bytes m k w) = length m.
Proof. unfold store32_bytes. by rewrite !length_insert. Qed.

Lemma bytes_ok_store32_bytes (m : list Z) (k w : Z) :
  bytes_ok m -> bytes_ok (store32_bytes m k w).
Proof. intros Hm. unfold store32_bytes. by do 4 apply bytes_ok_insert. Qed.

Ltac decide_lia :=
  repeat match goal with
         | |- context [decide ?P] =>
             first [ rewrite (decide_True (P := P)) by lia
                   | rewrite (decide_False (P := P)) by lia ]
         end.

Lemma word_at_store32_bytes (m : list Z) (k k' w : Z) :
  0 <= k -> 4 * k + 3 < Z.of_nat (length m) -> 0 <= k' ->
  word_at (store32_bytes m k w) k' =
    if decide (k = k') then to_uint32 w else word_at m k'.
Proof.
  intros Hk Hlen Hk'. unfold word_at, store32_bytes.
  repeat (rewrite byte_at_insert by lia; rewrite ?length_insert).
  destruct (decide (k = k')) as [<-|Hne].
  - decide_lia. apply le_bytes_word.
  - decide_lia. done.
Qed.

(** ** Bits of a row *)

Lemma land_pow2 (w c : Z) :
  0 <= c -> Z.land w (2 ^ c) = if Z.testbit w c then 2 ^ c else 0.
Proof.
  intros Hc. apply Z.bits_inj'. intros n Hn.
  rewrite Z.land_spec, Z.pow2_bits_eqb by done.
  destruct (Z.testbit w c) eqn:Hw.
  - rewrite Z.pow2_bits_eqb by done.
    destruct (Z.eqb_spec c n) as [->|]; [by rewrite Hw|by rewrite andb_false_r].
  - rewrite Z.bits_0.
    destruct (Z.eqb_spec c n) as [->|]; [by rewrite Hw|by rewrite andb_false_r].
Qed.

Lemma shl_int_1 (c : Z) :
  0 <= c < 32 -> shl_int 1 c = Some (to_int32 (2 ^ c)) /\ to_uint32 (to_int32 (2 ^ c)) = 2 ^ c.
Proof.
  intros Hc. unfold shl_int.
  destruct (Z.leb_spec 0 c); [|lia]. destruct (Z.ltb_spec c 32); [|lia]. simpl.
  rewrite Z.shiftl_1_l. split; [done|].
  unfold to_uint32, to_int32.
  assert (0 < 2 ^ c <= 2 ^ 31) as Hp.
  { split; [apply Z.pow_pos_nonneg; lia|apply Z.pow_le_mono_r; lia]. }
  change (2 ^ 32) with (2 * 2 ^ 31). change (2 ^ 31) with 2147483648 in *.
  rewrite Zminus_mod_idemp_l.
  replace (2 ^ c + 2147483648 - 2147483648) with (2 ^ c) by lia.
  apply Z.mod_small. lia.
Qed.

Lemma GetDistinctEstimateBit_in (m : list Z) (r c : Z) :
  0 <= r -> 4 * r + 3 < Z.of_nat (length m) -> 0 <= c < 32 ->
  GetDistinctEstimateBit m r c = Ok (Some (bitmap_bit m r c)).
Proof.
  intros Hr Hlen Hc. unfold GetDistinctEstimateBit, bitmap_bit.
  rewrite load32_word by done. simpl.
  destruct (shl_int_1 c Hc) as [-> Hmask]. simpl. rewrite Hmask.
  rewrite land_pow2 by lia.
  destruct (Z.testbit (word_at m r) c); [|done].
  assert (0 < 2 ^ c) by (apply Z.pow_pos_nonneg; lia).
  by destruct (Z.ltb_spec 0 (2 ^ c)); [|lia].
Qed.

Lemma GetDistinctEstimateBit_width (m : list Z) (r : Z) :
  0 <= r -> 4 * r + 3 < Z.of_nat (length m) ->
  GetDistinctEstimateBit m r PC_BITMAP_LENGTH = Ok None.
Proof.
  intros Hr Hlen. unfold GetDistinctEstimateBit.
  rewrite load32_word by done. done.
Qed.

Lemma SetDistinctEstimateBit_in (m : list Z) (r c : Z) :
  0 <= r -> 4 * r + 3 < Z.of_nat (length m) -> 0 <= c < 32 ->
  SetDistinctEstimateBit m r c =
    Ok (store32_bytes m r (to_uint32 (Z.lor (word_at m r) (2 ^ c)))).
Proof.
  intros Hr Hlen Hc. unfold SetDistinctEstimateBit.
  rewrite load32_word by done. simpl.
  destruct (shl_int_1 c Hc) as [-> Hmask]. simpl. rewrite Hmask.
  by apply store32_in.
Qed.

Lemma bitmap_bit_set (m : list Z) (r c r' c' : Z) :
  0 <= r -> 4 * r + 3 < Z.of_nat (length m) -> 0 <= c < 32 ->
  0 <= r' -> 0 <= c' < 32 ->
  bitmap_bit (store32_bytes m r (to_uint32 (Z.lor (word_at m r) (2 ^ c)))) r' c' =
    bitmap_bit m r' c' || ((r =? r') && (c =? c')).
Proof.
  intros Hr Hlen Hc Hr' Hc'. unfold bitmap_bit.
  rewrite word_at_store32_bytes by done.
  destruct (decide (r = r')) as [<-|Hne].
  - rewrite Z.eqb_refl. simpl. unfold to_uint32.
    rewrite !Z.mod_pow2_bits_low by lia.
    by rewrite Z.lor_spec, Z.pow2_bits_eqb by lia.
  - destruct (Z.eqb_spec r r'); [done|]. simpl. by rewrite orb_false_r.
Qed.

(** ** Trailing zeros *)

Lemma ctz_pos_nonneg (p : positive) : 0 <= ctz_pos p.
Proof. induction p; simpl; lia. Qed.

Lemma ctz_pos_spec (p : positive) : trailing_zero_count (Zpos p) (ctz_pos p).
Proof.
  unfold trailing_zero_count. split; [apply ctz_pos_nonneg|].
  induction p as [p IH|p IH|]; simpl.
  - split; [done|]. intros j Hj. lia.
  - destruct IH as [IH1 IH2]. pose proof (ctz_pos_nonneg p).
    change (Z.pos p~0) with (2 * Z.pos p). split.
    + by rewrite Z.testbit_even_succ.
    + intros j Hj. destruct (decide (j = 0)) as [->|Hj0].
      * apply Z.testbit_even_0.
      * replace j with (Z.succ (j - 1)) by lia.
        rewrite Z.testbit_even_succ by lia. apply IH2. lia.
  - split; [done|]. intros j Hj. lia.
Qed.

Lemma ctz_pos_bound (p : positive) : 2 ^ ctz_pos p <= Zpos p.
Proof.
  induction p as [p IH|p IH|]; simpl; try lia.
  pose proof (ctz_pos_nonneg p).
  rewrite Z.pow_succ_r by done. lia.
Qed.

Lemma ctz_pos_lt (p : positive) (n : Z) : 0 <= n -> Zpos p < 2 ^ n -> ctz_pos p < n.
Proof.
  intros Hn Hp. pose proof (ctz_pos_bound p). pose proof (ctz_pos_nonneg p).
  destruct (Z.lt_ge_cases (ctz_pos p) n) as [|Hge]; [done|].
  pose proof (Z.pow_le_mono_r 2 n (ctz_pos p)). lia.
Qed.

Lemma trailing_zero_count_unique (h c c' : Z) :
  trailing_zero_count h c -> trailing_zero_count h c' -> c = c'.
Proof.
  intros (Hc & Ht & Hlow) (Hc' & Ht' & Hlow').
  destruct (Z.lt_total c c') as [Hlt|[->|Hlt]]; [|done|].
  - rewrite Hlow' in Ht by lia. done.
  - rewrite Hlow in Ht' by lia. done.
Qed.

Lemma column_of_hash (h : Z) :
  0 <= h < 2 ^ 32 -> hash_column h (column_of h h) /\ 0 <= column_of h h < 32.
Proof.
  intros Hh. unfold hash_column, column_of.
  destruct (Z.eqb_spec h 0) as [->|Hne]; [by unfold PC_BITMAP_LENGTH|].
  destruct h as [|p|p]; [done| |lia]. simpl.
  split; [apply ctz_pos_spec|].
  split; [apply ctz_pos_nonneg|apply ctz_pos_lt; lia].
Qed.

Lemma hash_column_unique (h c c' : Z) :
  hash_column h c -> hash_column h c' -> c = c'.
Proof.
  unfold hash_column. destruct (h =? 0); [congruence|apply trailing_zero_count_unique].
Qed.

(** ** Update of the plain sketch *)

Lemma to_uint32_small (x : Z) : 0 <= x < 2 ^ 32 -> to_uint32 x = x.
Proof. intros Hx. unfold to_uint32. by apply Z.mod_small. Qed.

Lemma to_uint32_range (x : Z) : 0 <= to_uint32 x < 2 ^ 32.
Proof. unfold to_uint32. apply Z.mod_pos_bound. lia. Qed.

Lemma PcUpdate_row_in (m : list Z) (h i : Z) :
  0 <= h < 2 ^ 32 -> 0 <= i -> 4 * i + 3 < Z.of_nat (length m) ->
  PcUpdate_row h i m =
    Ok (store32_bytes m i (to_uint32 (Z.lor (word_at m i) (2 ^ column_of h h)))).
Proof.
  intros Hh Hi Hlen.
  destruct (column_of_hash h Hh) as [_ Hcol].
  unfold PcUpdate_row, column_of in *.
  destruct (Z.eqb_spec h 0) as [->|Hne]; simpl.
  - rewrite to_uint32_small by (unfold PC_BITMAP_LENGTH; lia).
    by apply SetDistinctEstimateBit_in.
  - destruct h as [|p|p]; [done| |lia]. simpl in *.
    rewrite to_uint32_small by lia.
    by apply SetDistinctEstimateBit_in.
Qed.

Lemma PcUpdate_loop_in (hash : Z -> Z) (m0 : list Z) :
  length m0 = 256%nat -> bytes_ok m0 ->
  exists m, for_loop 0 NUM_PC_BITMAPS
              (fun i bitmap => PcUpdate_row (to_uint32 (hash i)) i bitmap) m0 = Ok m
            /\ PcUpdate_inv (fun r => column_of (to_uint32 (hash r)) (to_uint32 (hash r)))
                 m0 NUM_PC_BITMAPS m.
Proof.
  intros Hlen Hok. unfold for_loop.
  set (col := fun r => column_of (to_uint32 (hash r)) (to_uint32 (hash r))).
  apply (for_range_inv (PcUpdate_inv col m0)).
  - split; [done|]. split; [done|]. intros r c Hr Hc.
    destruct (Z.ltb_spec r 0); [lia|]. by rewrite orb_false_r.
  - intros j m Hj (Hl & Hb & Hbits). change (Z.of_nat (Z.to_nat (NUM_PC_BITMAPS - 0))) with 64 in Hj.
    pose proof (to_uint32_range (hash j)) as Hh.
    destruct (column_of_hash _ Hh) as [_ Hcol]. fold (col j) in Hcol.
    rewrite PcUpdate_row_in by (rewrite ?Hl, ?Hlen; lia). fold (col j).
    eexists. split; [done|]. split; [|split].
    + by rewrite length_store32_bytes.
    + by apply bytes_ok_store32_bytes.
    + intros r c Hr Hc.
      rewrite bitmap_bit_set by (rewrite ?Hl, ?Hlen; lia).
      rewrite Hbits by done.
      destruct (Z.eqb_spec j r) as [->|Hne].
      * destruct (Z.ltb_spec r r); [lia|]. destruct (Z.ltb_spec r (r + 1)); [|lia].
        simpl. by rewrite orb_false_r.
      * destruct (Z.ltb_spec r j), (Z.ltb_spec r (j + 1)); try lia; simpl;
          by rewrite ?orb_false_r.
Qed.

(** C2. For a non-null input and a 256-byte bitmap, the plain-variant update
    returns a 256-byte bitmap in which bit (row [r], column [c]) is set
    exactly when it was set before or [c] is the column of the hash seeded
    with [r]: its trailing-zero count, or 31 for the hash zero. Bits are
    read back with [GetDistinctEstimateBit]. A null input returns the
    bitmap as it was. *)
Theorem PcUpdate_sets_hash_columns {T : Type} `{AnyVal T} (Hash : T -> Z -> Z)
    (input : T) (dst : StringVal) :
  is_bitmap dst ->
  (is_null input = true -> PcUpdate Hash input dst = Ok dst) /\
  (is_null input = false ->
   exists dst', PcUpdate Hash input dst = Ok dst' /\ is_bitmap dst' /\
     forall r c, 0 <= r < NUM_PC_BITMAPS -> 0 <= c < PC_BITMAP_LENGTH ->
       exists b b',
         GetDistinctEstimateBit (ptr dst) r c = Ok (Some b) /\
         GetDistinctEstimateBit (ptr dst') r c = Ok (Some b') /\
         (b' = true <-> b = true \/ hash_column (to_uint32 (Hash input r)) c)).
Proof.
  intros (Hnull & Hlen & Hbytes & Hok). unfold PcUpdate. split; intros Hin; rewrite Hin; [done|].
  destruct (PcUpdate_loop_in (Hash input) (ptr dst) Hbytes Hok) as (m & -> & Hl & Hb & Hbits).
  simpl. eexists. split; [done|]. split.
  { unfold is_bitmap; simpl. by rewrite Hl. }
  simpl. unfold NUM_PC_BITMAPS, PC_BITMAP_LENGTH. intros r c Hr Hc.
  exists (bitmap_bit (ptr dst) r c), (bitmap_bit m r c).
  rewrite !GetDistinctEstimateBit_in by (rewrite ?Hl, ?Hbytes; lia).
  split; [done|]. split; [done|].
  rewrite Hbits by lia.
  destruct (Z.ltb_spec r NUM_PC_BITMAPS) as [_|Hge]; [|unfold NUM_PC_BITMAPS in Hge; lia].
  simpl.
  pose proof (to_uint32_range (Hash input r)) as Hh.
  destruct (column_of_hash _ Hh) as [Hcol _].
  rewrite orb_true_iff. split.
  - intros [Hold|Heq]; [by left|right].
    apply Z.eqb_eq in Heq. by rewrite <- Heq.
  - intros [Hold|Hc']; [by left|right].
    apply Z.eqb_eq. by eapply hash_column_unique.
Qed.

Lemma PcInit_is_bitmap : is_bitmap PcInit.
Proof. by repeat split. Qed.

(** An instance of [PcUpdate_sets_hash_columns]. *)
Lemma PcUpdate_sets_hash_columns_witness :
  (is_null (mkScalarVal false 5) = true ->
   PcUpdate example_hash (mkScalarVal false 5) PcInit = Ok PcInit) /\
  (is_null (mkScalarVal false 5) = false ->
   exists dst', PcUpdate example_hash (mkScalarVal false 5) PcInit = Ok dst' /\ is_bitmap dst' /\
     forall r c, 0 <= r < NUM_PC_BITMAPS -> 0 <= c < PC_BITMAP_LENGTH ->
       exists b b',
         GetDistinctEstimateBit (ptr PcInit) r c = Ok (Some b) /\
         GetDistinctEstimateBit (ptr dst') r c = Ok (Some b') /\
         (b' = true <-> b = true \/ hash_column (to_uint32 (example_hash (mkScalarVal false 5) r)) c)).
Proof.
  apply (PcUpdate_sets_hash_columns example_hash (mkScalarVal false 5) PcInit).
  exact PcInit_is_bitmap.
Defined.

(** ** Update of the stochastic-averaging sketch *)

(** C3. Whenever the hash value lies in 1..63, [PcsaUpdate] hands
    [__builtin_ctz] the argument zero ([hash_value / 64]) although the hash
    is not zero, so the substitution of column 31 does not apply: the bit
    index is indeterminate and the update has no defined result. *)
Theorem PcsaUpdate_small_hash_undefined (hash_value : Z) (bitmap : list Z) :
  0 < hash_value < NUM_PC_BITMAPS ->
  hash_value / NUM_PC_BITMAPS = 0 /\
  builtin_ctz (hash_value / NUM_PC_BITMAPS) = None /\
  PcsaUpdate_hash hash_value bitmap = Undefined.
Proof.
  intros Hh. unfold PcsaUpdate_hash.
  assert (hash_value / NUM_PC_BITMAPS = 0) as -> by (apply Z.div_small; lia).
  destruct (Z.eqb_spec hash_value 0); [lia|]. done.
Qed.

(** An instance of [PcsaUpdate_small_hash_undefined]. *)
Lemma PcsaUpdate_small_hash_undefined_witness :
  1 / NUM_PC_BITMAPS = 0 /\
  builtin_ctz (1 / NUM_PC_BITMAPS) = None /\
  PcsaUpdate_hash 1 (ptr PcInit) = Undefined.
Proof.
  apply (PcsaUpdate_small_hash_undefined 1 (ptr PcInit)).
  unfold NUM_PC_BITMAPS. lia.
Defined.

Lemma PcsaUpdate_hash_in (m : list Z) (h : Z) :
  length m = 256%nat -> h = 0 \/ NUM_PC_BITMAPS <= h < 2 ^ 32 ->
  0 <= column_of h (h / NUM_PC_BITMAPS) < 32 /\
  PcsaUpdate_hash h m =
    Ok (store32_bytes m (h mod NUM_PC_BITMAPS)
          (to_uint32 (Z.lor (word_at m (h mod NUM_PC_BITMAPS))
                        (2 ^ column_of h (h / NUM_PC_BITMAPS))))).
Proof.
  intros Hlen Hh. unfold PcsaUpdate_hash, column_of.
  pose proof (Z.mod_pos_bound h NUM_PC_BITMAPS) as Hrow.
  unfold NUM_PC_BITMAPS in *.
  destruct (Z.eqb_spec h 0) as [->|Hne]; simpl.
  - unfold PC_BITMAP_LENGTH. split; [lia|].
    rewrite to_uint32_small by lia.
    apply SetDistinctEstimateBit_in; rewrite ?Hlen; lia.
  - assert (1 <= h / 64 < 2 ^ 26) as Hq.
    { split; [apply Z.div_le_lower_bound; lia|apply Z.div_lt_upper_bound; lia]. }
    destruct (h / 64) as [|p|p] eqn:Hp; [lia| |lia]. simpl.
    pose proof (ctz_pos_nonneg p). pose proof (ctz_pos_lt p 26). 
    split; [lia|]. rewrite to_uint32_small by lia.
    apply SetDistinctEstimateBit_in; rewrite ?Hlen; lia.
Qed.

(** ** Merge *)

Lemma lor_byte (d s : Z) : 0 <= d < 256 -> 0 <= s < 256 -> to_uint8 (Z.lor d s) = Z.lor d s.
Proof.
  intros Hd Hs. unfold to_uint8. apply Z.mod_small. split.
  - apply Z.lor_nonneg. lia.
  - change 256 with (2 ^ 8) in *.
    apply Z.bounded_iff_bits_nonneg; [lia|apply Z.lor_nonneg; lia|].
    intros l Hl. rewrite Z.lor_spec.
    rewrite (proj1 (Z.bounded_iff_bits_nonneg 8 d ltac:(lia) ltac:(lia))) by lia.
    rewrite (proj1 (Z.bounded_iff_bits_nonneg 8 s ltac:(lia) ltac:(lia))) by lia.
    done.
Qed.

Lemma or_bytes_lor (dst src : list Z) :
  bytes_ok dst -> bytes_ok src -> or_bytes dst src = zip_with Z.lor dst src.
Proof.
  intros Hd Hs. unfold or_bytes. apply list_eq. intros i.
  rewrite !lookup_zip_with.
  destruct (dst !! i) as [d|] eqn:Hdi; [|done]. simpl.
  destruct (src !! i) as [s|] eqn:Hsi; [|done]. simpl.
  f_equal. apply lor_byte;
    [exact (bytes_ok_lookup dst i d Hd Hdi)|exact (bytes_ok_lookup src i s Hs Hsi)].
Qed.

Lemma PcMerge_loop_in (src dst : list Z) :
  length src = 256%nat -> length dst = 256%nat ->
  for_loop 0 (NUM_PC_BITMAPS * PC_BITMAP_LENGTH / 8) (PcMerge_byte src) dst
  = Ok (or_bytes dst src).
Proof.
  intros Hs Hd. unfold for_loop.
  destruct (for_range_inv (PcMerge_inv src dst) (PcMerge_byte src)
              (Z.to_nat (NUM_PC_BITMAPS * PC_BITMAP_LENGTH / 8 - 0)) 0 dst)
    as (m & -> & Hl & Hm).
  - split; [done|]. intros j. destruct (decide (Z.of_nat j < 0)); [lia|done].
  - change (Z.of_nat (Z.to_nat (NUM_PC_BITMAPS * PC_BITMAP_LENGTH / 8 - 0))) with 256.
    intros j m Hj (Hl & Hm). unfold PcMerge_byte.
    rewrite !load8_lookup by lia. simpl.
    rewrite store8_in by lia.
    eexists. split; [done|]. split; [by rewrite length_insert|].
    intros k. destruct (decide (Z.to_nat j = k)) as [<-|Hne].
    + rewrite list_lookup_insert_eq by lia.
      rewrite decide_True by lia. unfold byte_at.
      rewrite (Hm (Z.to_nat j)), decide_False by lia.
      destruct (lookup_lt_is_Some_2 dst (Z.to_nat j)) as [d ->]; [lia|].
      destruct (lookup_lt_is_Some_2 src (Z.to_nat j)) as [s ->]; [lia|]. done.
    + rewrite list_lookup_insert_ne by done. rewrite Hm.
      destruct (decide (Z.of_nat k < j)), (decide (Z.of_nat k < j + 1)); try done; lia.
  - f_equal. apply list_eq. intros j. rewrite Hm. unfold or_bytes.
    rewrite lookup_zip_with.
    change (0 + Z.of_nat (Z.to_nat (NUM_PC_BITMAPS * PC_BITMAP_LENGTH / 8 - 0))) with 256.
    destruct (decide (Z.of_nat j < 256)); [done|].
    rewrite (lookup_ge_None_2 dst) by lia. done.
Qed.

Lemma PcMerge_in (dchecks : bool) (src dst : StringVal) :
  is_bitmap src -> is_bitmap dst ->
  PcMerge dchecks src dst =
    Ok {| string_is_null := false; len := 256; ptr := zip_with Z.lor (ptr dst) (ptr src) |}.
Proof.
  intros (Hsn & Hsl & Hsb & Hso) (Hdn & Hdl & Hdb & Hdo). unfold PcMerge, DCHECK.
  rewrite Hsn, Hdn, Hsl. simpl. rewrite andb_false_r. simpl.
  rewrite PcMerge_loop_in by done. simpl.
  unfold is_null, StringVal_AnyVal in Hdn.
  by rewrite or_bytes_lor, Hdn, Hdl.
Qed.

(** C4. Merge ORs the source into the destination byte by byte; on 256-byte
    bitmaps it leaves the same contents whichever operand is the
    destination, and merging a bitmap with itself leaves it as it was. *)
Theorem PcMerge_commutative_idempotent (dchecks : bool) (A B : StringVal) :
  is_bitmap A -> is_bitmap B ->
  exists ab ba,
    PcMerge dchecks A B = Ok ab /\
    PcMerge dchecks B A = Ok ba /\
    ptr ab = zip_with Z.lor (ptr B) (ptr A) /\
    ptr ab = ptr ba /\
    PcMerge dchecks A A = Ok A.
Proof.
  intros HA HB.
  rewrite !PcMerge_in by done.
  do 2 eexists. split; [done|]. split; [done|]. simpl. split; [done|]. split.
  - apply list_eq. intros i. rewrite !lookup_zip_with.
    destruct (ptr B !! i), (ptr A !! i); simpl; try done.
    by rewrite Z.lor_comm.
  - f_equal. destruct HA as (Hn & Hl & _ & _). destruct A as [n l p]. simpl in *.
    unfold is_null, StringVal_AnyVal in Hn. simpl in Hn. subst. f_equal.
    apply list_eq. intros i. rewrite lookup_zip_with.
    destruct (p !! i); simpl; [|done]. by rewrite Z.lor_diag.
Qed.

(** An instance of [PcMerge_commutative_idempotent]: column 0 of every row
    merged with column 1 of every row gives columns 0 and 1 of every row,
    whichever operand is the destination. *)
Lemma PcMerge_commutative_idempotent_witness :
  exists ab ba,
    PcMerge true bitmap_ones bitmap_twos = Ok ab /\
    PcMerge true bitmap_twos bitmap_ones = Ok ba /\
    ptr ab = zip_with Z.lor (ptr bitmap_twos) (ptr bitmap_ones) /\
    ptr ab = ptr ba /\
    PcMerge true bitmap_ones bitmap_ones = Ok bitmap_ones /\
    ptr ab = concat (replicate 64 [3; 0; 0; 0]).
Proof.
  destruct (PcMerge_commutative_idempotent true bitmap_ones bitmap_twos)
    as (ab & ba & H1 & H2 & H3 & H4 & H5).
  - by repeat split.
  - by repeat split.
  - exists ab, ba.
    refine (conj H1 (conj H2 (conj H3 (conj H4 (conj H5 _))))).
    rewrite H3. reflexivity.
Defined.

(** ** DCHECKs of the sketch *)

Lemma no_abort_bind {A B : Type} (m : outcome A) (k : A -> outcome B) :
  no_abort m -> (forall a, no_abort (k a)) -> no_abort (m ≫= k).
Proof. intros Hm Hk. destruct m; simpl; [apply Hk|done..]. Qed.

Lemma no_abort_load8 (m : list Z) (i : Z) : no_abort (load8 m i).
Proof. unfold load8. destruct (0 <=? i); [|done]. by destruct (m !! Z.to_nat i). Qed.

Lemma no_abort_store8 (m : list Z) (i v : Z) : no_abort (store8 m i v).
Proof. unfold store8. by destruct (_ && _). Qed.

Lemma no_abort_determinate {A : Type} (v : option A) : no_abort (determinate v).
Proof. by destruct v. Qed.

Lemma no_abort_load32 (m : list Z) (k : Z) : no_abort (load32 m k).
Proof.
  unfold load32. repeat (apply no_abort_bind; [apply no_abort_load8|intros ?]). done.
Qed.

Lemma no_abort_store32 (m : list Z) (k w : Z) : no_abort (store32 m k w).
Proof.
  unfold store32. repeat (apply no_abort_bind; [apply no_abort_store8|intros ?]).
  apply no_abort_store8.
Qed.

Lemma no_abort_SetDistinctEstimateBit (m : list Z) (r c : Z) :
  no_abort (SetDistinctEstimateBit m r c).
Proof.
  unfold SetDistinctEstimateBit.
  apply no_abort_bind; [apply no_abort_load32|intros ?].
  apply no_abort_bind; [apply no_abort_determinate|intros ?].
  apply no_abort_store32.
Qed.

Lemma no_abort_for_range {S : Type} (body : Z -> S -> outcome S) :
  (forall j t, no_abort (body j t)) ->
  forall n i s, no_abort (for_range n i body s).
Proof.
  intros Hb. induction n as [|n IH]; intros i s; simpl; [done|].
  apply no_abort_bind; [apply Hb|]. intros a. apply IH.
Qed.

Lemma no_abort_PcUpdate {T : Type} `{AnyVal T} (Hash : T -> Z -> Z) (input : T)
    (dst : StringVal) :
  no_abort (PcUpdate Hash input dst).
Proof.
  unfold PcUpdate. destruct (is_null input); [done|].
  apply no_abort_bind; [|done].
  apply no_abort_for_range. intros j t. unfold PcUpdate_row.
  apply no_abort_bind; [apply no_abort_determinate|intros ?].
  apply no_abort_SetDistinctEstimateBit.
Qed.

Lemma no_abort_PcsaUpdate {T : Type} `{AnyVal T} (Hash : T -> Z -> Z) (input : T)
    (dst : StringVal) :
  no_abort (PcsaUpdate Hash input dst).
Proof.
  unfold PcsaUpdate. destruct (is_null input); [done|].
  apply no_abort_bind; [|done]. unfold PcsaUpdate_hash.
  apply no_abort_bind; [apply no_abort_determinate|intros ?].
  apply no_abort_SetDistinctEstimateBit.
Qed.

Lemma no_abort_PcMerge_loop (src dst : list Z) :
  no_abort (for_loop 0 (NUM_PC_BITMAPS * PC_BITMAP_LENGTH / 8) (PcMerge_byte src) dst).
Proof.
  apply no_abort_for_range. intros j t. unfold PcMerge_byte.
  apply no_abort_bind; [apply no_abort_load8|intros ?].
  apply no_abort_bind; [apply no_abort_load8|intros ?].
  apply no_abort_store8.
Qed.

(** C5 (counterexample). A bitmap operand 300 bytes long is processed by both
    updates, and as the destination of a merge, without any abort, DCHECKs
    enabled. *)
Lemma length_mismatch_not_aborted :
  len bitmap300 <> 256 /\
  (exists dst', PcUpdate example_hash (mkScalarVal false 5) bitmap300 = Ok dst') /\
  (exists dst', PcsaUpdate example_hash (mkScalarVal false 100) bitmap300 = Ok dst') /\
  (exists dst', PcMerge true PcInit bitmap300 = Ok dst').
Proof.
  split; [done|]. repeat split; eexists; vm_compute; reflexivity.
Qed.

(** C5 (amended). With DCHECKs enabled a merge aborts exactly when its source
    is null, its destination is null, or its source is not 256 bytes long;
    the length of the destination is not checked. With DCHECKs compiled out
    a merge never aborts, and neither update ever aborts, whatever the
    length of the bitmap. *)
Theorem sketch_length_checks {T : Type} `{AnyVal T} (Hash : T -> Z -> Z) (input : T)
    (src dst : StringVal) :
  (PcMerge true src dst = DcheckFailure <->
     is_null src = true \/ is_null dst = true \/ len src <> 256) /\
  no_abort (PcMerge false src dst) /\
  no_abort (PcUpdate Hash input dst) /\
  no_abort (PcsaUpdate Hash input dst).
Proof.
  split; [|split; [|split]].
  - unfold PcMerge, DCHECK.
    destruct (is_null src) eqn:Hs; simpl; [by split; [left|]|].
    destruct (is_null dst) eqn:Hd; simpl; [by split; [right; left|]|].
    destruct (Z.eqb_spec (len src) (NUM_PC_BITMAPS * PC_BITMAP_LENGTH / 8)) as [He|He]; simpl.
    + split.
      * intros Habs. exfalso. revert Habs.
        apply (no_abort_bind _ (fun bitmap => Ok _)); [apply no_abort_PcMerge_loop|done].
      * intros [?|[?|Hne]]; [done..|]. by destruct Hne.
    + split; [|done]. intros _. right. right. exact He.
  - unfold PcMerge, DCHECK. simpl.
    apply (no_abort_bind _ (fun bitmap => Ok _)); [apply no_abort_PcMerge_loop|done].
  - apply no_abort_PcUpdate.
  - apply no_abort_PcsaUpdate.
Qed.

(** ** Finalize: the scan of the bitmap *)

Lemma is_empty_loop_spec (m : list Z) :
  forall (n : nat) (i : Z),
    0 <= i -> i + Z.of_nat n <= Z.of_nat (length m) ->
    is_empty_loop n i m = Ok (all_zero (take n (drop (Z.to_nat i) m))).
Proof.
  induction n as [|n IH]; intros i Hi Hlen; simpl; [done|].
  rewrite load8_lookup by lia. simpl. unfold byte_at.
  destruct (lookup_lt_is_Some_2 m (Z.to_nat i)) as [b Hb]; [lia|].
  rewrite Hb. simpl. rewrite (drop_S _ _ _ Hb).
  unfold all_zero. cbn [take forallb]. fold (all_zero (take n (drop (S (Z.to_nat i)) m))).
  rewrite (Z.eqb_sym 0 b).
  destruct (b =? 0); simpl; [|done].
  rewrite IH by lia.
  by replace (Z.to_nat (i + 1)) with (Datatypes.S (Z.to_nat i)) by lia.
Qed.

Lemma is_empty_loop_bitmap (m : list Z) :
  length m = 256%nat ->
  is_empty_loop (Z.to_nat (NUM_PC_BITMAPS * PC_BITMAP_LENGTH / 8)) 0 m = Ok (all_zero m).
Proof.
  intros Hlen. rewrite is_empty_loop_spec.
  - change (Z.to_nat (NUM_PC_BITMAPS * PC_BITMAP_LENGTH / 8)) with 256%nat.
    change (Z.to_nat 0) with 0%nat. rewrite drop_0, take_ge by lia. done.
  - done.
  - rewrite Hlen. change (Z.to_nat (NUM_PC_BITMAPS * PC_BITMAP_LENGTH / 8)) with 256%nat. lia.
Qed.

Lemma run_of_ones_range (n : nat) (w c : Z) : 0 <= run_of_ones n w c <= Z.of_nat n.
Proof.
  revert c. induction n as [|n IH]; intros c; simpl; [lia|].
  destruct (Z.testbit w c); [|lia]. specialize (IH (c + 1)). lia.
Qed.

(** The run counted from column [c] is the first column from [c] on that is
    unset, or the width. *)
Lemma run_of_ones_spec (n : nat) (w c : Z) :
  let r := run_of_ones n w c in
  (forall j, c <= j < c + r -> Z.testbit w j = true) /\
  (r < Z.of_nat n -> Z.testbit w (c + r) = false).
Proof.
  revert c. induction n as [|n IH]; intros c; simpl.
  - split; [lia|lia].
  - destruct (Z.testbit w c) eqn:Hc.
    + destruct (IH (c + 1)) as [IH1 IH2]. split.
      * intros j Hj. destruct (decide (j = c)) as [->|]; [done|]. apply IH1. lia.
      * intros Hr. replace (c + (1 + run_of_ones n w (c + 1)))
          with (c + 1 + run_of_ones n w (c + 1)) by lia. apply IH2. lia.
    + split; [lia|]. intros _. by rewrite Z.add_0_r.
Qed.

Lemma leading_ones_loop_spec (m : list Z) (i : Z) :
  0 <= i -> 4 * i + 3 < Z.of_nat (length m) ->
  forall (fuel : nat) (c : Z) (reads : list Z),
    0 <= c <= 32 -> 32 - c < Z.of_nat fuel ->
    let run := run_of_ones (Z.to_nat (32 - c)) (word_at m i) c in
    leading_ones_loop fuel m i c reads = Ok (c + run, reads ++ seqZ c (run + 1)).
Proof.
  intros Hi Hlen. induction fuel as [|fuel IH]; intros c reads Hc Hfuel; [lia|].
  simpl. destruct (decide (c = 32)) as [->|Hne].
  - change 32 with PC_BITMAP_LENGTH at 1.
    rewrite GetDistinctEstimateBit_width by done. reflexivity.
  - rewrite GetDistinctEstimateBit_in by (try done; lia). simpl.
    unfold PC_BITMAP_LENGTH. destruct (Z.ltb_spec c 32) as [_|]; [|lia].
    replace (Z.to_nat (32 - c)) with (Datatypes.S (Z.to_nat (32 - (c + 1)))) by lia.
    simpl. unfold bitmap_bit.
    destruct (Z.testbit (word_at m i) c) eqn:Hbit; simpl.
    + rewrite IH by lia. simpl.
      pose proof (run_of_ones_range (Z.to_nat (32 - (c + 1))) (word_at m i) (c + 1)).
      f_equal. f_equal; [lia|].
      rewrite <- app_assoc. f_equal. simpl.
      rewrite (seqZ_cons c) by lia. f_equal. f_equal; lia.
    + rewrite Z.add_0_r. reflexivity.
Qed.

Lemma leading_ones_spec (m : list Z) (i : Z) :
  0 <= i -> 4 * i + 3 < Z.of_nat (length m) ->
  leading_ones m i =
    Ok (leading_run_length (word_at m i), seqZ 0 (leading_run_length (word_at m i) + 1)).
Proof.
  intros Hi Hlen. unfold leading_ones.
  rewrite leading_ones_loop_spec by (try done; unfold PC_BITMAP_LENGTH; lia).
  done.
Qed.

Lemma sum_rows_spec (m : list Z) :
  length m = 256%nat -> sum_rows m = Ok (sum_leading_runs m, finalize_reads m).
Proof.
  intros Hlen. unfold sum_rows, for_loop.
  destruct (for_range_inv (sum_rows_inv m)
              (fun i (st : Z * list (Z * Z)) =>
                 r ← leading_ones m i; Ok (st.1 + r.1, st.2 ++ map (pair i) r.2))
              (Z.to_nat (NUM_PC_BITMAPS - 0)) 0 (0, []))
    as ([s rd] & -> & Hs & Hrd).
  - done.
  - change (Z.of_nat (Z.to_nat (NUM_PC_BITMAPS - 0))) with 64.
    intros j [s rd] Hj [Hs Hrd]. simpl in *.
    rewrite leading_ones_spec by lia. simpl.
    eexists. split; [done|].
    unfold sum_rows_inv. simpl.
    rewrite seqZ_app by lia. rewrite !fmap_app, foldr_app, concat_app.
    change (seqZ (0 + j) 1) with [0 + j]. simpl.
    rewrite ?Z.add_0_l, ?Z.add_0_r, app_nil_r. split; [|by rewrite Hrd].
    rewrite Hs. generalize (leading_run_length (word_at m j)).
    generalize ((fun r => leading_run_length (word_at m r)) <$> seqZ 0 j).
    intros l z. induction l as [|x l IHl]; simpl; lia.
  - simpl in *. by rewrite Hs, Hrd.
Qed.

(** ** Finalize: the text of the estimate *)

Lemma length_digits_rev (fuel : nat) (n : Z) :
  (length (digits_rev fuel n) <= fuel)%nat /\
  (0 < fuel -> 0 < length (digits_rev fuel n))%nat.
Proof.
  revert n. induction fuel as [|fuel IH]; intros n; simpl; [lia|].
  destruct (n / 10 =? 0); simpl; [lia|].
  destruct (IH (n / 10)). lia.
Qed.

Lemma length_int64_to_string (z : Z) : (1 <= length (int64_to_string z) <= 20)%nat.
Proof.
  unfold int64_to_string.
  destruct (z <? 0); cbn [length]; rewrite ?length_reverse.
  - destruct (length_digits_rev 19 (- z)). lia.
  - destruct (length_digits_rev 19 z). lia.
Qed.

Lemma finalize_text_in (src : StringVal) (estimate : float) (r : Z) :
  (20 <= length (ptr src))%nat ->
  double_to_int64 estimate = Some r ->
  finalize_text src estimate = Ok (estimate_text src r).
Proof.
  intros Hlen Hr. unfold finalize_text, estimate_text. rewrite Hr. simpl.
  pose proof (length_int64_to_string r) as Hs.
  unfold memcpy.
  destruct (Z.leb_spec (0 + Z.of_nat (length (int64_to_string r))) (Z.of_nat (length (ptr src))));
    [|lia].
  destruct (Z.leb_spec 0 (Z.of_nat (length (int64_to_string r)))); [|lia].
  rewrite !Z.leb_refl. simpl.
  rewrite Z.add_0_l, Nat2Z.id, firstn_all. done.
Qed.

Lemma DCHECK_true (dchecks : bool) : DCHECK dchecks true = Ok ().
Proof. unfold DCHECK. by rewrite andb_false_r. Qed.

Lemma DistinceEstimateFinalize_in (dchecks : bool) (pow : float -> float -> float)
    (src : StringVal) :
  is_bitmap src ->
  DistinceEstimateFinalize dchecks pow src =
    Ok (if all_zero (ptr src) then 0%float
        else (pow (int_to_double 2)
                (int_to_double (sum_leading_runs (ptr src)) / int_to_double NUM_PC_BITMAPS)
              / PC_THETA)%float).
Proof.
  intros (Hn & Hl & Hb & Hok). unfold DistinceEstimateFinalize.
  rewrite Hn, Hl. change (256 =? NUM_PC_BITMAPS * PC_BITMAP_LENGTH / 8) with true.
  rewrite !DCHECK_true. cbn [mbind outcome_bind].
  rewrite is_empty_loop_bitmap by done. cbn [mbind outcome_bind].
  destruct (all_zero (ptr src)); [done|].
  by rewrite sum_rows_spec.
Qed.

(** ** Finalize: what it writes and what it reads *)

Lemma estimate_text_prefix (src : StringVal) (r : Z) :
  (20 <= length (ptr src))%nat -> prefix_overwritten src (estimate_text src r) r.
Proof.
  intros Hlen. pose proof (length_int64_to_string r) as Hs.
  unfold prefix_overwritten, estimate_text. cbn [len ptr].
  split; [done|]. split; [done|]. split; [|split].
  - rewrite length_app, length_drop. lia.
  - by rewrite take_app_length.
  - by rewrite drop_app_length.
Qed.

(** C9 (counterexample). Finalize on the fresh all-zero bitmap, whose every
    byte the emptiness scan reads, returns the same buffer with byte 0
    changed from 0 to the digit '0' (48); on the bitmap with column 0 of
    each row set, byte 0 changes from 1 to the digit '2' (50). *)
Lemma PcFinalize_overwrites_bitmap :
  (exists dst, PcFinalize true pow_whole PcInit = Ok dst /\
               load8 (ptr PcInit) 0 = Ok 0 /\ load8 (ptr dst) 0 = Ok 48) /\
  (exists dst, PcFinalize true pow_whole bitmap_ones = Ok dst /\
               load8 (ptr bitmap_ones) 0 = Ok 1 /\ load8 (ptr dst) 0 = Ok 50).
Proof.
  split; eexists; (split; [vm_compute; reflexivity|]); split; reflexivity.
Qed.

(** C9 (amended). The estimate computation only reads the bitmap. The
    finalize calls then print the estimate into the same buffer: for an
    estimate that converts to the integer [r], they return the buffer with
    the decimal text of [r] (1 to 20 bytes) over its first bytes, the bytes
    after the text unchanged, and the length of the text as [len]. *)
Theorem Finalize_overwrites_prefix (dchecks : bool) (pow : float -> float -> float)
    (src : StringVal) :
  is_bitmap src ->
  exists estimate,
    DistinceEstimateFinalize dchecks pow src = Ok estimate /\
    (forall r, double_to_int64 estimate = Some r ->
       PcFinalize dchecks pow src = Ok (estimate_text src r) /\
       prefix_overwritten src (estimate_text src r) r) /\
    (forall r, double_to_int64 (estimate * int_to_double NUM_PC_BITMAPS) = Some r ->
       PcsaFinalize dchecks pow src = Ok (estimate_text src r) /\
       prefix_overwritten src (estimate_text src r) r).
Proof.
  intros Hsrc.
  pose proof (DistinceEstimateFinalize_in dchecks pow src Hsrc) as HF.
  destruct Hsrc as (Hn & Hl & Hb & Hok).
  eexists. split; [exact HF|].
  unfold PcFinalize, PcsaFinalize. rewrite HF. cbn [mbind outcome_bind].
  split; intros r Hr; (split; [apply finalize_text_in; [rewrite Hb; lia|exact Hr]|]);
    apply estimate_text_prefix; rewrite Hb; lia.
Qed.

(** An instance of [Finalize_overwrites_prefix]. *)
Lemma Finalize_overwrites_prefix_witness :
  exists estimate,
    DistinceEstimateFinalize true pow_whole bitmap_ones = Ok estimate /\
    (forall r, double_to_int64 estimate = Some r ->
       PcFinalize true pow_whole bitmap_ones = Ok (estimate_text bitmap_ones r) /\
       prefix_overwritten bitmap_ones (estimate_text bitmap_ones r) r) /\
    (forall r, double_to_int64 (estimate * int_to_double NUM_PC_BITMAPS) = Some r ->
       PcsaFinalize true pow_whole bitmap_ones = Ok (estimate_text bitmap_ones r) /\
       prefix_overwritten bitmap_ones (estimate_text bitmap_ones r) r).
Proof.
  apply (Finalize_overwrites_prefix true pow_whole bitmap_ones).
  by repeat split.
Defined.

Lemma run_of_ones_full (n : nat) (w c : Z) :
  (forall j, c <= j < c + Z.of_nat n -> Z.testbit w j = true) ->
  run_of_ones n w c = Z.of_nat n.
Proof.
  revert c. induction n as [|n IH]; intros c Hall; simpl; [done|].
  rewrite Hall by lia. rewrite IH; [lia|].
  intros j Hj. apply Hall. lia.
Qed.

(** C10. When the 32 bits of a row are all set (the row is [0xFFFFFFFF]),
    the counting loop of Finalize calls [GetDistinctEstimateBit] with bit
    index 32 for that row (after the indices 0..31): the bound is tested
    after the read. The bit read there is indeterminate ([1 << 32]); the
    count is 32 all the same. *)
Theorem Finalize_reads_bit_index_32 (m : list Z) (i : Z) :
  length m = 256%nat -> 0 <= i < NUM_PC_BITMAPS ->
  word_at m i = Z.ones PC_BITMAP_LENGTH ->
  leading_ones m i = Ok (PC_BITMAP_LENGTH, seqZ 0 (PC_BITMAP_LENGTH + 1)) /\
  GetDistinctEstimateBit m i PC_BITMAP_LENGTH = Ok None /\
  exists st, sum_rows m = Ok st /\ In (i, PC_BITMAP_LENGTH) st.2.
Proof.
  unfold NUM_PC_BITMAPS. intros Hlen Hi Hfull.
  assert (leading_run_length (word_at m i) = PC_BITMAP_LENGTH) as Hrun.
  { unfold leading_run_length. rewrite run_of_ones_full; [done|].
    intros j Hj. rewrite Hfull. apply Z.ones_spec_low.
    unfold PC_BITMAP_LENGTH in *. lia. }
  split; [|split].
  - rewrite leading_ones_spec by lia. by rewrite Hrun.
  - apply GetDistinctEstimateBit_width; lia.
  - rewrite sum_rows_spec by done. eexists. split; [done|].
    cbn [snd]. unfold finalize_reads. apply in_concat.
    exists (pair i <$> seqZ 0 (leading_run_length (word_at m i) + 1)). split.
    + apply in_map_iff. exists i. split; [done|].
      apply list_elem_of_In, elem_of_seqZ. unfold NUM_PC_BITMAPS. lia.
    + apply in_map_iff. exists PC_BITMAP_LENGTH. split; [done|].
      apply list_elem_of_In, elem_of_seqZ. rewrite Hrun. unfold PC_BITMAP_LENGTH. lia.
Qed.

(** An instance of [Finalize_reads_bit_index_32]. *)
Lemma Finalize_reads_bit_index_32_witness :
  leading_ones (ptr bitmap_full) 0 = Ok (PC_BITMAP_LENGTH, seqZ 0 (PC_BITMAP_LENGTH + 1)) /\
  GetDistinctEstimateBit (ptr bitmap_full) 0 PC_BITMAP_LENGTH = Ok None /\
  exists st, sum_rows (ptr bitmap_full) = Ok st /\ In (0, PC_BITMAP_LENGTH) st.2.
Proof.
  apply (Finalize_reads_bit_index_32 (ptr bitmap_full) 0).
  - reflexivity.
  - unfold NUM_PC_BITMAPS. lia.
  - reflexivity.
Defined.

(** ** Sum *)

Lemma to_int64_idemp_l (a b : Z) : to_int64 (to_int64 a + b) = to_int64 (a + b).
Proof.
  unfold to_int64. f_equal.
  replace ((a + 2 ^ 63) mod 2 ^ 64 - 2 ^ 63 + b + 2 ^ 63)
    with ((a + 2 ^ 63) mod 2 ^ 64 + b) by lia.
  rewrite Zplus_mod_idemp_l. f_equal. lia.
Qed.

Lemma to_int64_idemp_r (a b : Z) : to_int64 (a + to_int64 b) = to_int64 (a + b).
Proof. by rewrite Z.add_comm, to_int64_idemp_l, Z.add_comm. Qed.

Lemma to_int64_idemp (a : Z) : to_int64 (to_int64 a) = to_int64 a.
Proof.
  pose proof (to_int64_idemp_l a 0) as H. by rewrite !Z.add_0_r in H.
Qed.

Lemma non_null_vals_cons {V : Type} (x : ScalarVal V) (l : list (ScalarVal V)) :
  non_null_vals (x :: l) =
    if is_null x then non_null_vals l else val x :: non_null_vals l.
Proof.
  unfold non_null_vals. rewrite filter_cons.
  destruct (is_null x) eqn:Hx.
  - by rewrite decide_False by congruence.
  - by rewrite decide_True.
Qed.

Lemma non_null_vals_app {V : Type} (l k : list (ScalarVal V)) :
  non_null_vals (l ++ k) = non_null_vals l ++ non_null_vals k.
Proof. unfold non_null_vals. by rewrite list.filter_app, fmap_app. Qed.

Lemma non_null_vals_perm {V : Type} (l k : list (ScalarVal V)) :
  l ≡ₚ k -> non_null_vals l ≡ₚ non_null_vals k.
Proof. intros Hp. unfold non_null_vals. by rewrite Hp. Qed.

Lemma sum_Z_app (l k : list Z) : sum_Z (l ++ k) = sum_Z l + sum_Z k.
Proof. unfold sum_Z. induction l as [|x l IH]; simpl; lia. Qed.

Lemma sum_Z_perm (l k : list Z) : l ≡ₚ k -> sum_Z l = sum_Z k.
Proof. unfold sum_Z. induction 1; simpl; lia. Qed.

(** From a non-null state holding a 64-bit value. *)
Lemma Sum_BigIntVal_updates_value (inputs : list (ScalarVal Z)) :
  forall v, to_int64 v = v ->
    updates Sum_BigIntVal (mkScalarVal false v) inputs
    = mkScalarVal false (to_int64 (v + sum_Z (non_null_vals inputs))).
Proof.
  unfold updates.
  induction inputs as [|x l IH]; intros v Hv; simpl.
  - unfold sum_Z. simpl. by rewrite Z.add_0_r, Hv.
  - rewrite non_null_vals_cons. unfold Sum_BigIntVal at 2, Sum.
    destruct (is_null x) eqn:Hx; simpl; [by apply IH|].
    rewrite IH by apply to_int64_idemp.
    rewrite to_int64_idemp_l. f_equal. f_equal. unfold sum_Z. simpl. lia.
Qed.

(** From a null state. *)
Lemma Sum_BigIntVal_updates_null (inputs : list (ScalarVal Z)) :
  forall d : BigIntVal, is_null d = true ->
    updates Sum_BigIntVal d inputs
    = if decide (non_null_vals inputs = []) then d
      else mkScalarVal false (to_int64 (sum_Z (non_null_vals inputs))).
Proof.
  induction inputs as [|x l IH]; intros d Hd; [done|].
  rewrite non_null_vals_cons. unfold updates in *. simpl.
  unfold Sum_BigIntVal at 2, Sum.
  destruct (is_null x) eqn:Hx; simpl; [by apply IH|].
  rewrite Hd. simpl.
  pose proof (Sum_BigIntVal_updates_value l (to_int64 (val x)) (to_int64_idemp _)) as Hrun.
  unfold updates in Hrun. rewrite Z.add_0_l, Hrun.
  rewrite to_int64_idemp_l. done.
Qed.

Lemma to_int64_sum_Z_fmap (l : list Z) :
  to_int64 (sum_Z (to_int64 <$> l)) = to_int64 (sum_Z l).
Proof.
  induction l as [|x l IH]; [done|]. unfold sum_Z in *.
  rewrite fmap_cons. cbn [foldr].
  rewrite to_int64_idemp_l.
  rewrite <- (to_int64_idemp_r x (foldr Z.add 0 (to_int64 <$> l))), IH.
  apply to_int64_idemp_r.
Qed.

Lemma non_null_vals_concat {V : Type} (parts : list (list (ScalarVal V))) :
  non_null_vals (concat parts) = concat (non_null_vals <$> parts).
Proof.
  induction parts as [|p parts IH]; [done|]. simpl.
  by rewrite non_null_vals_app, IH.
Qed.

Lemma sum_Z_concat (ls : list (list Z)) : sum_Z (concat ls) = sum_Z (sum_Z <$> ls).
Proof.
  induction ls as [|l ls IH]; [done|]. simpl. rewrite sum_Z_app, IH. done.
Qed.

Lemma Sum_BigIntVal_partitioned_zero (parts : list (list (ScalarVal Z))) :
  Sum_BigIntVal_partitioned (mkScalarVal false 0) parts
  = mkScalarVal false (to_int64 (sum_Z (non_null_vals (concat parts)))).
Proof.
  unfold Sum_BigIntVal_partitioned.
  rewrite Sum_BigIntVal_updates_value by done. f_equal. rewrite Z.add_0_l.
  assert (non_null_vals (updates Sum_BigIntVal (mkScalarVal false 0) <$> parts)
          = to_int64 <$> (sum_Z <$> (non_null_vals <$> parts))) as ->.
  { induction parts as [|p parts IH]; [done|]. rewrite !fmap_cons, non_null_vals_cons.
    rewrite Sum_BigIntVal_updates_value by done. simpl. by rewrite IH. }
  by rewrite to_int64_sum_Z_fmap, non_null_vals_concat, sum_Z_concat.
Qed.

Lemma Sum_BigIntVal_partials_null (d : BigIntVal) (parts : list (list (ScalarVal Z))) :
  is_null d = true ->
  let partials := updates Sum_BigIntVal d <$> parts in
  (non_null_vals partials = [] <-> non_null_vals (concat parts) = []) /\
  to_int64 (sum_Z (non_null_vals partials))
  = to_int64 (sum_Z (non_null_vals (concat parts))).
Proof.
  intros Hd. induction parts as [|p parts [IH1 IH2]]; [done|].
  cbn [concat]. rewrite fmap_cons, non_null_vals_cons, non_null_vals_app.
  rewrite Sum_BigIntVal_updates_null by done.
  destruct (decide (non_null_vals p = [])) as [Hp|Hp].
  - rewrite Hd, Hp. simpl. done.
  - simpl. split.
    + split; [done|]. intros Happ. by apply app_eq_nil in Happ as [? _].
    + rewrite sum_Z_app. unfold sum_Z at 1. simpl. fold (sum_Z (non_null_vals
        (updates Sum_BigIntVal d <$> parts))).
      rewrite to_int64_idemp_l.
      rewrite <- (to_int64_idemp_r (sum_Z (non_null_vals p))
                    (sum_Z (non_null_vals (updates Sum_BigIntVal d <$> parts)))), IH2.
      apply to_int64_idemp_r.
Qed.

Lemma Sum_BigIntVal_partitioned_null (d : BigIntVal) (parts : list (list (ScalarVal Z))) :
  is_null d = true ->
  Sum_BigIntVal_partitioned d parts = updates Sum_BigIntVal d (concat parts).
Proof.
  intros Hd. unfold Sum_BigIntVal_partitioned.
  destruct (Sum_BigIntVal_partials_null d parts Hd) as [Hnil Hsum].
  rewrite !Sum_BigIntVal_updates_null by done. rewrite Hsum.
  destruct (decide (non_null_vals (concat parts) = [])) as [He|He].
  - by rewrite decide_True by (by apply Hnil).
  - by rewrite decide_False by (by rewrite Hnil).
Qed.

Lemma Sum_DoubleVal_updates (inputs : list (ScalarVal float)) :
  forall v : float,
    updates Sum_DoubleVal (mkScalarVal false v) inputs
    = mkScalarVal false (foldl PrimFloat.add v (non_null_vals inputs)).
Proof.
  unfold updates. induction inputs as [|x l IH]; intros v; [done|].
  rewrite non_null_vals_cons. simpl. unfold Sum_DoubleVal at 2, Sum.
  destruct (is_null x); simpl; by rewrite IH.
Qed.

(** C6 (counterexample). With a [DoubleVal] destination the sum depends on
    the order of the Updates: 1, 2^60, -2^60 sum to 0 in this order (the 1
    is absorbed by 2^60), and to 1 when the 1 comes last. *)
Lemma Sum_DoubleVal_order_dependent :
  reverse double_inputs ≡ₚ double_inputs /\
  updates Sum_DoubleVal (InitZero 0%float (mkScalarVal true 0%float)) double_inputs
  = mkScalarVal false 0%float /\
  updates Sum_DoubleVal (InitZero 0%float (mkScalarVal true 0%float)) (reverse double_inputs)
  = mkScalarVal false 1%float /\
  PrimFloat.eqb 0%float 1%float = false.
Proof.
  split; [apply reverse_Permutation|].
  repeat split; vm_compute; reflexivity.
Qed.

(** C6 (amended). For [Sum] with a [BigIntVal] destination: null inputs are
    no-ops, and from the zero-initialised state the final state is not null
    and holds the sum of the non-null inputs reduced to 64 bits, whatever
    the order of the Updates and however the inputs are split into
    partitions whose partial states are then combined. From the null state
    the same holds as soon as one input is not null (and the state stays
    null otherwise). The inputs 3, NULL, 7, 2 yield 12. With a [DoubleVal]
    destination the state holds the binary64 sum of the non-null inputs
    taken from left to right. *)
Theorem Sum_BigIntVal_order_partition_independent
    (inputs inputs' : list (ScalarVal Z)) (parts : list (list (ScalarVal Z)))
    (dst : BigIntVal) :
  inputs' ≡ₚ inputs -> concat parts ≡ₚ inputs ->
  let total := mkScalarVal false (to_int64 (sum_Z (non_null_vals inputs))) in
  let zero := InitZero 0 dst in
  let null := InitNull dst in
  (updates Sum_BigIntVal zero inputs = total /\
   updates Sum_BigIntVal zero inputs' = total /\
   Sum_BigIntVal_partitioned zero parts = total) /\
  (non_null_vals inputs <> [] ->
   updates Sum_BigIntVal null inputs = total /\
   updates Sum_BigIntVal null inputs' = total /\
   Sum_BigIntVal_partitioned null parts = total) /\
  (non_null_vals inputs = [] ->
   updates Sum_BigIntVal null inputs = null /\
   updates Sum_BigIntVal null inputs' = null /\
   Sum_BigIntVal_partitioned null parts = null) /\
  updates Sum_BigIntVal null scenario_inputs = mkScalarVal false 12 /\
  updates Sum_BigIntVal zero scenario_inputs = mkScalarVal false 12 /\
  (forall (dinputs : list (ScalarVal float)) (ddst : DoubleVal),
     updates Sum_DoubleVal (InitZero 0%float ddst) dinputs
     = mkScalarVal false (foldl PrimFloat.add 0%float (non_null_vals dinputs))).
Proof.
  intros Hperm Hparts total zero null.
  assert (sum_Z (non_null_vals inputs') = sum_Z (non_null_vals inputs)) as Hs'.
  { by apply sum_Z_perm, non_null_vals_perm. }
  assert (sum_Z (non_null_vals (concat parts)) = sum_Z (non_null_vals inputs)) as Hsp.
  { by apply sum_Z_perm, non_null_vals_perm. }
  assert (forall l k : list (ScalarVal Z), l ≡ₚ k ->
            non_null_vals k = [] -> non_null_vals l = []) as Hnil.
  { intros l k Hlk Hk. apply Permutation_nil_r. rewrite <- Hk.
    symmetry. by apply non_null_vals_perm. }
  assert (is_null null = true) as Hnull by done.
  split; [|split; [|split; [|split; [|split]]]].
  - unfold zero, InitZero.
    rewrite !Sum_BigIntVal_updates_value, Sum_BigIntVal_partitioned_zero by done.
    by rewrite !Z.add_0_l, Hs', Hsp.
  - intros Hne.
    rewrite Sum_BigIntVal_partitioned_null by done.
    rewrite !Sum_BigIntVal_updates_null by done.
    rewrite decide_False by done.
    rewrite decide_False by (intros He; apply Hne; by apply (Hnil inputs inputs')).
    rewrite decide_False by (intros He; apply Hne; by apply (Hnil inputs (concat parts))).
    by rewrite Hs', Hsp.
  - intros He.
    rewrite Sum_BigIntVal_partitioned_null by done.
    rewrite !Sum_BigIntVal_updates_null by done.
    rewrite decide_True by done.
    rewrite decide_True by (by apply (Hnil inputs' inputs)).
    rewrite decide_True by (by apply (Hnil (concat parts) inputs)).
    done.
  - reflexivity.
  - reflexivity.
  - intros dinputs ddst. apply Sum_DoubleVal_updates.
Qed.

(** An instance of [Sum_BigIntVal_order_partition_independent]. *)
Lemma Sum_BigIntVal_order_partition_independent_witness :
  updates Sum_BigIntVal (InitZero 0 (mkScalarVal true 0)) scenario_inputs
  = mkScalarVal false 12 /\
  updates Sum_BigIntVal (InitZero 0 (mkScalarVal true 0)) (reverse scenario_inputs)
  = mkScalarVal false 12 /\
  Sum_BigIntVal_partitioned (InitZero 0 (mkScalarVal true 0))
    [take 2 scenario_inputs; drop 2 scenario_inputs]
  = mkScalarVal false 12.
Proof.
  destruct (Sum_BigIntVal_order_partition_independent scenario_inputs
              (reverse scenario_inputs)
              [take 2 scenario_inputs; drop 2 scenario_inputs] (mkScalarVal true 0))
    as [Hzero _].
  - apply reverse_Permutation.
  - reflexivity.
  - exact Hzero.
Defined.

(** ** Text accumulators and the empty string *)

(** C7. A non-null empty string leaves the scratch buffer NULL, which the
    text Min and Max read as "no value yet". The minimum (and maximum) of
    the single value "" is returned as NULL, not as ""; the minimum of
    "", "a" taken in this order is "a", although "" is the least text, while
    the order "a", "" yields "". *)
Theorem Min_Max_StringVal_empty_string :
  Min_StringVal_result true [text []] = Ok None /\
  Max_StringVal_result true [text []] = Ok None /\
  Min_StringVal_result true [text []; text [97]] = Ok (Some [97]) /\
  Min_StringVal_result true [text [97]; text []] = Ok (Some []) /\
  StringValue_lt [] [97] = true.
Proof. repeat split; vm_compute; reflexivity. Qed.

(** C8. A first value that is the empty string leaves the scratch buffer
    NULL, so the next call sets its value verbatim and drops its separator:
    the calls ("", ","), ("a", ",") accumulate "a" where the promised
    concatenation is ",a"; a single call with "" accumulates nothing and
    serialises to NULL. *)
Theorem StringConcat_empty_first_value :
  StringConcat_result true [(text [], text [44]); (text [97], text [44])] = Ok (Some [97]) /\
  concat_expected [(text [], text [44]); (text [97], text [44])] = [44; 97] /\
  StringConcat_result true [(text [], text [44])] = Ok None /\
  concat_expected [(text [], text [44])] = [].
Proof. repeat split; vm_compute; reflexivity. Qed.

(** ** Further properties of the sketch *)

(** For a hash value that is zero or at least 64, the stochastic-averaging
    update sets exactly the bit at row [hash mod 64] and the column that is
    the trailing-zero count of [hash div 64] (31 for the hash zero); a null
    input returns the bitmap as it was. *)
Theorem PcsaUpdate_sets_one_bit {T : Type} `{AnyVal T} (Hash : T -> Z -> Z)
    (input : T) (dst : StringVal) :
  is_bitmap dst ->
  (is_null input = true -> PcsaUpdate Hash input dst = Ok dst) /\
  (is_null input = false ->
   to_uint32 (Hash input 0) = 0 \/ NUM_PC_BITMAPS <= to_uint32 (Hash input 0) ->
   exists dst' col,
     PcsaUpdate Hash input dst = Ok dst' /\ is_bitmap dst' /\
     (if to_uint32 (Hash input 0) =? 0 then col = PC_BITMAP_LENGTH - 1
      else trailing_zero_count (to_uint32 (Hash input 0) / NUM_PC_BITMAPS) col) /\
     forall r c, 0 <= r < NUM_PC_BITMAPS -> 0 <= c < PC_BITMAP_LENGTH ->
       exists b b',
         GetDistinctEstimateBit (ptr dst) r c = Ok (Some b) /\
         GetDistinctEstimateBit (ptr dst') r c = Ok (Some b') /\
         (b' = true <->
          b = true \/ (r = to_uint32 (Hash input 0) mod NUM_PC_BITMAPS /\ c = col))).
Proof.
  intros (Hnull & Hlen & Hbytes & Hok). unfold PcsaUpdate.
  split; intros Hin; rewrite Hin; [done|]. intros Hh.
  pose proof (to_uint32_range (Hash input 0)) as Hrange.
  set (h := to_uint32 (Hash input 0)) in *.
  destruct (PcsaUpdate_hash_in (ptr dst) h Hbytes) as [Hcol ->]; [lia|].
  cbn [mbind outcome_bind].
  pose proof (Z.mod_pos_bound h NUM_PC_BITMAPS) as Hrow.
  unfold NUM_PC_BITMAPS, PC_BITMAP_LENGTH in *.
  eexists. exists (column_of h (h / 64)). split; [done|]. split; [|split].
  - unfold is_bitmap. cbn [ptr len]. rewrite length_store32_bytes.
    split; [done|]. split; [done|]. split; [done|]. by apply bytes_ok_store32_bytes.
  - unfold column_of. destruct (Z.eqb_spec h 0) as [|Hne]; [done|].
    destruct (h / 64) as [|p|p] eqn:Hq.
    + apply Z.div_small_iff in Hq; [|lia].
      assert (h = 0 \/ 64 <= h) by lia. lia.
    + apply ctz_pos_spec.
    + pose proof (Z.div_pos h 64). lia.
  - cbn [ptr]. intros r c Hr Hc.
    exists (bitmap_bit (ptr dst) r c). eexists.
    rewrite !GetDistinctEstimateBit_in
      by (rewrite ?length_store32_bytes, ?Hbytes; lia).
    split; [done|]. split; [done|].
    rewrite bitmap_bit_set by (rewrite ?Hbytes; lia).
    rewrite orb_true_iff, andb_true_iff, !Z.eqb_eq.
    split; (intros [?|[? ?]]; [by left|right; done]).
Qed.

(** An instance of [PcsaUpdate_sets_one_bit]. *)
Lemma PcsaUpdate_sets_one_bit_witness :
  exists dst' col,
    PcsaUpdate example_hash (mkScalarVal false 100) PcInit = Ok dst' /\ is_bitmap dst' /\
    (if to_uint32 (example_hash (mkScalarVal false 100) 0) =? 0 then col = PC_BITMAP_LENGTH - 1
     else trailing_zero_count
            (to_uint32 (example_hash (mkScalarVal false 100) 0) / NUM_PC_BITMAPS) col) /\
    forall r c, 0 <= r < NUM_PC_BITMAPS -> 0 <= c < PC_BITMAP_LENGTH ->
      exists b b',
        GetDistinctEstimateBit (ptr PcInit) r c = Ok (Some b) /\
        GetDistinctEstimateBit (ptr dst') r c = Ok (Some b') /\
        (b' = true <->
         b = true \/
         (r = to_uint32 (example_hash (mkScalarVal false 100) 0) mod NUM_PC_BITMAPS /\
          c = col)).
Proof.
  destruct (PcsaUpdate_sets_one_bit example_hash (mkScalarVal false 100) PcInit
              PcInit_is_bitmap) as [_ Hset].
  apply Hset; [reflexivity|]. right. vm_compute. discriminate.
Defined.

Lemma bytes_ok_zip_lor (a b : list Z) :
  bytes_ok a -> bytes_ok b -> bytes_ok (zip_with Z.lor a b).
Proof.
  intros Ha Hb. rewrite <- or_bytes_lor by done.
  unfold bytes_ok. rewrite forallb_forall. intros x Hx.
  apply list_elem_of_In, list_elem_of_lookup in Hx as [i Hi].
  unfold or_bytes in Hi. rewrite lookup_zip_with in Hi.
  destruct (a !! i); simpl in Hi; [|done]. destruct (b !! i); simpl in Hi; [|done].
  injection Hi as <-. unfold to_uint8. pose proof (Z.mod_pos_bound (Z.lor z z0) (2 ^ 8)). lia.
Qed.

Lemma PcMerge_is_bitmap (src dst : StringVal) :
  is_bitmap src -> is_bitmap dst ->
  is_bitmap {| string_is_null := false; len := 256;
               ptr := zip_with Z.lor (ptr dst) (ptr src) |}.
Proof.
  intros (_ & _ & Hsb & Hso) (_ & _ & Hdb & Hdo). unfold is_bitmap. cbn [ptr len].
  split; [done|]. split; [done|]. split.
  - rewrite length_zip_with. lia.
  - by apply bytes_ok_zip_lor.
Qed.

(** Merge is associative: merging A into the result of merging B into C
    leaves the contents that merging (A merged into B) into C leaves. *)
Theorem PcMerge_associative (dchecks : bool) (A B C : StringVal) :
  is_bitmap A -> is_bitmap B -> is_bitmap C ->
  exists bc ab r1 r2,
    PcMerge dchecks B C = Ok bc /\ PcMerge dchecks A bc = Ok r1 /\
    PcMerge dchecks A B = Ok ab /\ PcMerge dchecks ab C = Ok r2 /\
    r1 = r2.
Proof.
  intros HA HB HC.
  pose proof (PcMerge_is_bitmap B C HB HC) as HBC.
  pose proof (PcMerge_is_bitmap A B HA HB) as HAB.
  do 4 eexists.
  split; [by apply PcMerge_in|]. split; [by apply PcMerge_in|].
  split; [by apply PcMerge_in|]. split; [by apply PcMerge_in|].
  cbn [ptr]. f_equal. apply list_eq. intros i. rewrite !lookup_zip_with.
  destruct (ptr C !! i), (ptr B !! i), (ptr A !! i); simpl; try done.
  by rewrite Z.lor_assoc.
Qed.

(** An instance of [PcMerge_associative]. *)
Lemma PcMerge_associative_witness :
  exists bc ab r1 r2,
    PcMerge true bitmap_ones bitmap_full = Ok bc /\ PcMerge true PcInit bc = Ok r1 /\
    PcMerge true PcInit bitmap_ones = Ok ab /\ PcMerge true ab bitmap_full = Ok r2 /\
    r1 = r2.
Proof.
  apply (PcMerge_associative true PcInit bitmap_ones bitmap_full); by repeat split.
Defined.

(** ** Min and Max of the fixed-width domains *)

Section MinMaxProps.
Context {V : Type}.
Variable ltb : V -> V -> bool.
Hypothesis ltb_order : strict_total_order ltb.

Lemma is_least_unique (m m' : V) (vs : list V) :
  is_least ltb m vs -> is_least ltb m' vs -> m = m'.
Proof.
  destruct ltb_order as (_ & _ & Htot).
  intros [Hm Hle] [Hm' Hle']. apply Htot; [by apply Hle'|by apply Hle].
Qed.

Lemma not_lt_trans (x y z : V) :
  ltb x y = false -> ltb y z = false -> ltb x z = false.
Proof.
  destruct ltb_order as (Hirr & Htrans & Htot).
  intros Hxy Hyz. destruct (ltb x z) eqn:Hxz; [|done].
  destruct (ltb z y) eqn:Hzy.
  - by rewrite (Htrans x z y Hxz Hzy) in Hxy.
  - assert (y = z) as -> by (by apply Htot). by rewrite Hxz in Hxy.
Qed.

Lemma is_least_perm (m : V) (vs vs' : list V) :
  vs ≡ₚ vs' -> is_least ltb m vs -> is_least ltb m vs'.
Proof.
  intros Hp [Hm Hle]. split; [by rewrite <- Hp|].
  intros v Hv. apply Hle. by rewrite Hp.
Qed.

(** A run of [Min] from a non-null state holding [x]. *)
Lemma Min_updates_value (inputs : list (ScalarVal V)) :
  forall x, exists m,
    updates (Min ltb) (mkScalarVal false x) inputs = mkScalarVal false m /\
    is_least ltb m (x :: non_null_vals inputs).
Proof.
  destruct ltb_order as (Hirr & Htrans & Htot).
  unfold updates. induction inputs as [|i l IH]; intros x.
  - exists x. split; [done|]. split; [apply list_elem_of_here|].
    intros v Hv. apply elem_of_cons in Hv as [->|Hv]; [apply Hirr|].
    by apply not_elem_of_nil in Hv.
  - rewrite non_null_vals_cons. cbn [foldl]. unfold Min at 2.
    destruct i as [n v]. cbn [is_null ScalarVal_AnyVal scalar_is_null val orb].
    destruct n; [apply IH|].
    destruct (ltb v x) eqn:Hvx.
    + destruct (IH v) as (m & -> & Hm & Hle). exists m. split; [done|]. split.
      * apply elem_of_cons in Hm as [->|Hm]; [|by do 2 apply list_elem_of_further].
        apply list_elem_of_further, list_elem_of_here.
      * intros w Hw. apply elem_of_cons in Hw as [->|Hw]; [|by apply Hle].
        apply (not_lt_trans x v m); [|apply Hle, list_elem_of_here].
        destruct (ltb x v) eqn:Hxv; [|done].
        pose proof (Hirr v) as Hc. by rewrite (Htrans v x v Hvx Hxv) in Hc.
    + destruct (IH x) as (m & -> & Hm & Hle). exists m. split; [done|]. split.
      * apply elem_of_cons in Hm as [->|Hm]; [apply list_elem_of_here|].
        by do 2 apply list_elem_of_further.
      * intros w Hw. apply elem_of_cons in Hw as [->|Hw]; [apply Hle, list_elem_of_here|].
        apply elem_of_cons in Hw as [->|Hw].
        -- apply (not_lt_trans v x m); [done|apply Hle, list_elem_of_here].
        -- by apply Hle, list_elem_of_further.
Qed.

(** A run of [Min] from a null state. *)
Lemma Min_updates_null (inputs : list (ScalarVal V)) :
  forall d : ScalarVal V, is_null d = true ->
    (non_null_vals inputs = [] /\ updates (Min ltb) d inputs = d) \/
    (exists m, updates (Min ltb) d inputs = mkScalarVal false m /\
               is_least ltb m (non_null_vals inputs)).
Proof.
  unfold updates. induction inputs as [|i l IH]; intros d Hd; [by left|].
  rewrite non_null_vals_cons. cbn [foldl]. unfold Min at 2 4.
  destruct i as [n v]. cbn [is_null ScalarVal_AnyVal scalar_is_null val].
  destruct n; [by apply IH|].
  destruct d as [dn dv]. cbv in Hd. subst dn.
  cbn [is_null ScalarVal_AnyVal scalar_is_null val orb]. right.
  destruct (Min_updates_value l v) as (m & Hm & Hleast).
  exists m. by split.
Qed.

Lemma Min_partials (d : ScalarVal V) (parts : list (list (ScalarVal V))) :
  is_null d = true ->
  let partials := updates (Min ltb) d <$> parts in
  (forall v, v ∈ non_null_vals partials -> v ∈ non_null_vals (concat parts)) /\
  (forall w, w ∈ non_null_vals (concat parts) ->
             exists v, v ∈ non_null_vals partials /\ ltb w v = false).
Proof.
  intros Hd. induction parts as [|p parts [IHa IHb]].
  - split; [done|]. intros w Hw. by apply not_elem_of_nil in Hw.
  - cbn [concat]. rewrite fmap_cons, non_null_vals_cons, non_null_vals_app.
    destruct (Min_updates_null p d Hd) as [[Hnil ->]|(m & -> & Hm & Hle)].
    + rewrite Hd, Hnil. cbn [app]. by split.
    + cbn [is_null ScalarVal_AnyVal scalar_is_null val]. split.
      * intros v Hv. apply elem_of_app.
        apply elem_of_cons in Hv as [->|Hv]; [by left|right; by apply IHa].
      * intros w Hw. apply elem_of_app in Hw as [Hw|Hw].
        -- exists m. split; [apply list_elem_of_here|by apply Hle].
        -- destruct (IHb w Hw) as (v & Hv & Hwv). exists v.
           split; [by apply list_elem_of_further|done].
Qed.

Lemma Min_partitioned_least (d : ScalarVal V) (parts : list (list (ScalarVal V))) :
  is_null d = true -> non_null_vals (concat parts) <> [] ->
  exists m, partitioned (Min ltb) d parts = mkScalarVal false m /\
            is_least ltb m (non_null_vals (concat parts)).
Proof.
  intros Hd Hne. unfold partitioned.
  destruct (Min_partials d parts Hd) as [Ha Hb].
  destruct (Min_updates_null (updates (Min ltb) d <$> parts) d Hd)
    as [[Hnil _]|(m & -> & Hm & Hle)].
  - exfalso. destruct (non_null_vals (concat parts)) as [|w ws] eqn:Hc; [done|].
    destruct (Hb w) as (v & Hv & _); [apply list_elem_of_here|].
    rewrite Hnil in Hv. by apply not_elem_of_nil in Hv.
  - exists m. split; [done|]. split; [by apply Ha|].
    intros w Hw. destruct (Hb w Hw) as (v & Hv & Hwv).
    apply (not_lt_trans w v m); [done|by apply Hle].
Qed.

Lemma Min_runs_least
    (inputs inputs' : list (ScalarVal V)) (parts : list (list (ScalarVal V)))
    (dst : ScalarVal V) :
  inputs' ≡ₚ inputs -> concat parts ≡ₚ inputs -> non_null_vals inputs <> [] ->
  exists m,
    is_least ltb m (non_null_vals inputs) /\
    updates (Min ltb) (InitNull dst) inputs = mkScalarVal false m /\
    updates (Min ltb) (InitNull dst) inputs' = mkScalarVal false m /\
    partitioned (Min ltb) (InitNull dst) parts = mkScalarVal false m /\
    (forall src d, Min_TimestampVal ltb src d = Min ltb src d).
Proof.
  intros Hperm Hparts Hne.
  assert (forall l : list (ScalarVal V), l ≡ₚ inputs -> non_null_vals l <> []) as Hne'.
  { intros l Hl He. apply Hne. apply Permutation_nil_r. rewrite <- He.
    by apply non_null_vals_perm. }
  destruct (Min_updates_null inputs (InitNull dst) eq_refl) as [[He _]|(m & Hrun & Hm)];
    [done|].
  exists m. split; [done|]. split; [done|]. split; [|split].
  - destruct (Min_updates_null inputs' (InitNull dst) eq_refl)
      as [[He _]|(m' & Hrun' & Hm')]; [by apply Hne' in He|].
    rewrite Hrun'. f_equal. apply (is_least_unique m' m (non_null_vals inputs)); [|done].
    apply (is_least_perm m' (non_null_vals inputs')); [by apply non_null_vals_perm|done].
  - destruct (Min_partitioned_least (InitNull dst) parts eq_refl (Hne' _ Hparts))
      as (m' & -> & Hm').
    f_equal. apply (is_least_unique m' m (non_null_vals inputs)); [|done].
    apply (is_least_perm m' (non_null_vals (concat parts))); [by apply non_null_vals_perm|done].
  - intros [sn sv] [dn dv]. unfold Min_TimestampVal, Min.
    cbn [is_null ScalarVal_AnyVal scalar_is_null val]. by destruct sn, dn.
Qed.
End MinMaxProps.

Lemma strict_total_order_flip {V : Type} (ltb : V -> V -> bool) :
  strict_total_order ltb -> strict_total_order (fun a b => ltb b a).
Proof.
  intros (Hirr & Htrans & Htot). split; [done|]. split.
  - intros x y z Hxy Hyz. by apply (Htrans z y x).
  - intros x y Hxy Hyx. by apply Htot.
Qed.

(** Min over the non-null inputs, from the null state: the result is not
    null and holds the least non-null value, whatever the order of the
    Updates and however the inputs are split into partitions whose partial
    states are combined by [Min]. The [TimestampVal] specialisation is the
    same function. *)
Theorem Min_least_order_partition_independent {V : Type} (ltb : V -> V -> bool)
    (inputs inputs' : list (ScalarVal V)) (parts : list (list (ScalarVal V)))
    (dst : ScalarVal V) :
  strict_total_order ltb ->
  inputs' ≡ₚ inputs -> concat parts ≡ₚ inputs -> non_null_vals inputs <> [] ->
  exists m,
    is_least ltb m (non_null_vals inputs) /\
    updates (Min ltb) (InitNull dst) inputs = mkScalarVal false m /\
    updates (Min ltb) (InitNull dst) inputs' = mkScalarVal false m /\
    partitioned (Min ltb) (InitNull dst) parts = mkScalarVal false m /\
    (forall src d, Min_TimestampVal ltb src d = Min ltb src d).
Proof. intros Hord. by apply Min_runs_least. Qed.

(** Max over the non-null inputs, from the null state: the result is not
    null and holds the greatest non-null value (the least for the reversed
    order), whatever the order of the Updates and however the inputs are
    split into partitions combined by [Max]. *)
Theorem Max_greatest_order_partition_independent {V : Type} (ltb : V -> V -> bool)
    (inputs inputs' : list (ScalarVal V)) (parts : list (list (ScalarVal V)))
    (dst : ScalarVal V) :
  strict_total_order ltb ->
  inputs' ≡ₚ inputs -> concat parts ≡ₚ inputs -> non_null_vals inputs <> [] ->
  exists m,
    is_least (fun a b => ltb b a) m (non_null_vals inputs) /\
    updates (Max ltb) (InitNull dst) inputs = mkScalarVal false m /\
    updates (Max ltb) (InitNull dst) inputs' = mkScalarVal false m /\
    partitioned (Max ltb) (InitNull dst) parts = mkScalarVal false m /\
    (forall src d, Max_TimestampVal ltb src d = Max ltb src d).
Proof.
  intros Hord Hperm Hparts Hne.
  apply (Min_runs_least (fun a b => ltb b a)
           (strict_total_order_flip ltb Hord) inputs inputs' parts dst Hperm Hparts Hne).
Qed.

Lemma Z_ltb_order : strict_total_order Z.ltb.
Proof.
  split; [|split].
  - intros x. apply Z.ltb_irrefl.
  - intros x y z Hxy Hyz. apply Z.ltb_lt in Hxy, Hyz. apply Z.ltb_lt. lia.
  - intros x y Hxy Hyx. apply Z.ltb_ge in Hxy, Hyx. lia.
Qed.

Lemma scenario_inputs_non_null : non_null_vals scenario_inputs <> [].
Proof. done. Qed.

(** An instance of [Min_least_order_partition_independent]. *)
Lemma Min_least_order_partition_independent_witness :
  exists m,
    is_least Z.ltb m (non_null_vals scenario_inputs) /\
    updates (Min Z.ltb) (InitNull (mkScalarVal true 0)) scenario_inputs = mkScalarVal false m /\
    updates (Min Z.ltb) (InitNull (mkScalarVal true 0)) (reverse scenario_inputs)
    = mkScalarVal false m /\
    partitioned (Min Z.ltb) (InitNull (mkScalarVal true 0))
      [take 2 scenario_inputs; drop 2 scenario_inputs] = mkScalarVal false m /\
    (forall src d, Min_TimestampVal Z.ltb src d = Min Z.ltb src d).
Proof.
  apply (Min_least_order_partition_independent Z.ltb scenario_inputs
           (reverse scenario_inputs) [take 2 scenario_inputs; drop 2 scenario_inputs]).
  - exact Z_ltb_order.
  - apply reverse_Permutation.
  - reflexivity.
  - exact scenario_inputs_non_null.
Defined.

(** An instance of [Max_greatest_order_partition_independent]. *)
Lemma Max_greatest_order_partition_independent_witness :
  exists m,
    is_least (fun a b => Z.ltb b a) m (non_null_vals scenario_inputs) /\
    updates (Max Z.ltb) (InitNull (mkScalarVal true 0)) scenario_inputs = mkScalarVal false m /\
    updates (Max Z.ltb) (InitNull (mkScalarVal true 0)) (reverse scenario_inputs)
    = mkScalarVal false m /\
    partitioned (Max Z.ltb) (InitNull (mkScalarVal true 0))
      [take 2 scenario_inputs; drop 2 scenario_inputs] = mkScalarVal false m /\
    (forall src d, Max_TimestampVal Z.ltb src d = Max Z.ltb src d).
Proof.
  apply (Max_greatest_order_partition_independent Z.ltb scenario_inputs
           (reverse scenario_inputs) [take 2 scenario_inputs; drop 2 scenario_inputs]).
  - exact Z_ltb_order.
  - apply reverse_Permutation.
  - reflexivity.
  - exact scenario_inputs_non_null.
Defined.

(** The scenario of the design on the inputs 3, NULL, 7, 2: Max yields 7,
    Min 2, CountUpdate 3 and CountStarUpdate 4. *)
Theorem scenario_counts_and_extremes :
  updates (Max Z.ltb) (InitNull (mkScalarVal true 0)) scenario_inputs = mkScalarVal false 7 /\
  updates (Min Z.ltb) (InitNull (mkScalarVal true 0)) scenario_inputs = mkScalarVal false 2 /\
  updates_o (CountUpdate true) (InitZero 0 (mkScalarVal true 0)) scenario_inputs
  = Ok (mkScalarVal false 3) /\
  updates_o (fun _ : ScalarVal Z => CountStarUpdate true) (InitZero 0 (mkScalarVal true 0))
    scenario_inputs = Ok (mkScalarVal false 4).
Proof. repeat split; reflexivity. Qed.

(** ** The scratch buffer *)

Lemma updates_o_bind {I S : Type} (update : I -> S -> outcome S) (inputs : list I) :
  forall m : outcome S,
    foldl (fun acc src => dst ← acc; update src dst) m inputs
    = (s ← m; updates_o update s inputs).
Proof.
  unfold updates_o. induction inputs as [|x l IH]; intros m.
  - by destruct m.
  - cbn [foldl]. rewrite IH. destruct m; cbn [mbind outcome_bind]; [|done..].
    by rewrite (IH (update x a)).
Qed.

Lemma updates_o_cons {I S : Type} (update : I -> S -> outcome S) (x : I)
    (inputs : list I) (init : S) :
  updates_o update init (x :: inputs) = (s ← update x init; updates_o update s inputs).
Proof. unfold updates_o at 1. cbn [foldl]. by rewrite updates_o_bind. Qed.

Lemma growable_le (n m : Z) : 0 <= n <= m -> growable m -> growable n.
Proof.
  unfold growable. intros Hn Hm.
  pose proof (Z.quot_le_mono n m 2). lia.
Qed.

Lemma memcpy_in (dst : list Z) (off : Z) (src : list Z) (n : Z) :
  0 <= off -> 0 <= n -> off + n <= Z.of_nat (length dst) -> n <= Z.of_nat (length src) ->
  memcpy dst off src n
  = Ok (take (Z.to_nat off) dst ++ take (Z.to_nat n) src ++ drop (Z.to_nat (off + n)) dst).
Proof.
  intros Hoff Hn Hd Hs. unfold memcpy.
  destruct (Z.leb_spec 0 off); [|lia]. destruct (Z.leb_spec 0 n); [|lia].
  destruct (Z.leb_spec (off + n) (Z.of_nat (length dst))); [|lia].
  destruct (Z.leb_spec n (Z.of_nat (length src))); [|lia]. done.
Qed.

Lemma bytes_of_Some (b : list Z) : bytes_of (Some b) = b.
Proof. done. Qed.

Lemma scratch_wf_nonneg (s : StringValScratch) :
  scratch_wf s -> 0 <= str_len s <= buffer_len s.
Proof. unfold scratch_wf. destruct (buffer s); lia. Qed.

Lemma ResizeBufferTo_ok (dchecks : bool) (s : StringValScratch) (n : Z) (copy : bool) :
  scratch_wf s -> 0 <= n -> growable n ->
  exists s',
    ResizeBufferTo dchecks s n copy = Ok s' /\ scratch_wf s' /\
    n <= buffer_len s' /\ str_len s' = str_len s /\
    (buffer s <> None -> buffer s' <> None) /\
    (buffer s = None -> n = 0 -> buffer s' = None) /\
    (copy = true -> scratch_text s' = scratch_text s).
Proof.
  intros Hwf Hn Hgrow. pose proof (scratch_wf_nonneg s Hwf) as Hs.
  unfold ResizeBufferTo.
  destruct (Z.leb_spec n (buffer_len s)) as [Hle|Hgt].
  { exists s. repeat split; try done. }
  unfold DCHECK. destruct (Z.ltb_spec 0 n) as [_|]; [|lia].
  rewrite andb_false_r. cbn [mbind outcome_bind negb].
  unfold growable in Hgrow.
  destruct (Z.ltb_spec (n + Z.quot n 2) (2 ^ 31)) as [_|]; [|lia].
  cbn [mbind outcome_bind].
  assert (0 <= Z.quot n 2) as Hq by (apply Z.quot_pos; lia).
  assert (length (Allocate (n + Z.quot n 2)) = Z.to_nat (n + Z.quot n 2)) as Hal.
  { unfold Allocate. apply length_replicate. }
  destruct copy.
  - unfold memcpy_to. destruct (Z.eqb_spec (str_len s) 0) as [Hz|Hnz].
    + cbn [mbind outcome_bind]. eexists. split; [done|].
      unfold scratch_wf, scratch_text. cbn [buffer buffer_len str_len]; rewrite ?bytes_of_Some.
      rewrite Hal, Hz. repeat split; try done; try lia.
    + assert (exists b, buffer s = Some b /\ Z.of_nat (length b) = buffer_len s)
        as (b & Hb & Hbl).
      { unfold scratch_wf in Hwf. destruct (buffer s) as [b|]; [|lia].
        exists b. split; [done|lia]. }
      rewrite Hb, ?bytes_of_Some.
      rewrite memcpy_in by lia. cbn [mbind outcome_bind].
      eexists. split; [done|].
      unfold scratch_wf, scratch_text. cbn [buffer buffer_len str_len]; rewrite ?bytes_of_Some.
      rewrite Hb, ?bytes_of_Some.
      rewrite !length_app, !length_take, length_drop, Hal.
      change (Z.to_nat 0) with 0%nat. cbn [take app].
      repeat split; try done; try lia.
      intros _. unfold StringValue. rewrite take_0. cbn [app].
      rewrite take_app_le by (rewrite length_take; lia).
      rewrite take_take. f_equal. lia.
  - cbn [mbind outcome_bind]. eexists. split; [done|].
    unfold scratch_wf. cbn [buffer buffer_len str_len].
    rewrite Hal. repeat split; try done; try lia.
Qed.

Lemma StringValScratch_Set_ok (dchecks : bool) (s : StringValScratch) (sv : StringVal) :
  scratch_wf s -> sv_ok sv -> growable (len sv) ->
  exists s',
    StringValScratch_Set dchecks s sv = Ok s' /\ scratch_wf s' /\
    scratch_text s' = sv_bytes sv /\
    (buffer s <> None -> buffer s' <> None) /\
    (len sv <> 0 -> buffer s' <> None) /\
    (buffer s = None -> len sv = 0 -> buffer s' = None).
Proof.
  intros Hwf [Hl Hp] Hgrow. unfold StringValScratch_Set.
  destruct (ResizeBufferTo_ok dchecks s (len sv) false Hwf Hl Hgrow)
    as (s1 & -> & Hwf1 & Hcap & Hstr & Hkeep & Hnull & _).
  cbn [mbind outcome_bind]. unfold memcpy_to.
  destruct (Z.eqb_spec (len sv) 0) as [Hz|Hnz].
  - cbn [mbind outcome_bind]. eexists. split; [done|].
    unfold scratch_wf, scratch_text, sv_bytes, StringValue in *.
    cbn [buffer buffer_len str_len]. rewrite Hz. change (Z.to_nat 0) with 0%nat.
    rewrite !take_0.
    repeat split; try done; [|by auto].
    destruct (buffer s1); lia.
  - assert (exists b, buffer s1 = Some b /\ Z.of_nat (length b) = buffer_len s1)
      as (b & Hb & Hbl).
    { unfold scratch_wf in Hwf1. destruct (buffer s1) as [b|]; [|lia].
      exists b. split; [done|lia]. }
    rewrite Hb. rewrite memcpy_in by lia. cbn [mbind outcome_bind].
    eexists. split; [done|].
    unfold scratch_wf, scratch_text, sv_bytes, StringValue.
    cbn [buffer buffer_len str_len]; rewrite ?bytes_of_Some.
    change (Z.to_nat 0) with 0%nat. cbn [take app].
    rewrite !length_app, !length_take, length_drop.
    split; [lia|]. split; [|split; [done|split; [done|]]].
    + rewrite take_0. cbn [app].
      rewrite take_app_le by (rewrite length_take; lia).
      rewrite take_take. f_equal. lia.
    + intros _ Hz. by destruct Hnz.
Qed.

Lemma StringValScratch_Append_ok (dchecks : bool) (s : StringValScratch) (sv : StringVal) :
  scratch_wf s -> sv_ok sv -> growable (str_len s + len sv) ->
  exists s',
    StringValScratch_Append dchecks s sv = Ok s' /\ scratch_wf s' /\
    scratch_text s' = scratch_text s ++ sv_bytes sv /\
    (buffer s <> None -> buffer s' <> None).
Proof.
  intros Hwf [Hl Hp] Hgrow. pose proof (scratch_wf_nonneg s Hwf) as Hs.
  unfold StringValScratch_Append.
  destruct (Z.eqb_spec (len sv) 0) as [Hz|Hnz].
  { exists s. repeat split; try done.
    unfold sv_bytes, StringValue. rewrite Hz. change (Z.to_nat 0) with 0%nat.
    by rewrite take_0, app_nil_r. }
  assert (exists s1,
    (if buffer_len s <? str_len s + len sv
     then ResizeBufferTo dchecks s (str_len s + len sv) true else Ok s) = Ok s1 /\
    scratch_wf s1 /\ str_len s + len sv <= buffer_len s1 /\ str_len s1 = str_len s /\
    scratch_text s1 = scratch_text s) as (s1 & -> & Hwf1 & Hcap & Hstr & Htext).
  { destruct (Z.ltb_spec (buffer_len s) (str_len s + len sv)) as [Hlt|Hge].
    - destruct (ResizeBufferTo_ok dchecks s (str_len s + len sv) true Hwf ltac:(lia) Hgrow)
        as (s1 & Hr & Hwf1 & Hcap & Hstr & _ & _ & Htext).
      exists s1. repeat split; try done. by apply Htext.
    - exists s. repeat split; try done; lia. }
  cbn [mbind outcome_bind]. unfold memcpy_to.
  destruct (Z.eqb_spec (len sv) 0) as [|_]; [done|].
  assert (exists b, buffer s1 = Some b /\ Z.of_nat (length b) = buffer_len s1)
    as (b & Hb & Hbl).
  { unfold scratch_wf in Hwf1. destruct (buffer s1) as [b|]; [|lia].
    exists b. split; [done|lia]. }
  rewrite Hb. rewrite Hstr. rewrite memcpy_in by lia. cbn [mbind outcome_bind].
  eexists. split; [done|].
  unfold scratch_text in Htext. rewrite Hb, Hstr, bytes_of_Some in Htext.
  unfold scratch_wf, scratch_text, sv_bytes, StringValue in *.
  cbn [buffer buffer_len str_len]; rewrite ?bytes_of_Some.
  rewrite !length_app, !length_take, length_drop.
  split; [lia|]. split; [|done].
  rewrite <- Htext.
  rewrite app_assoc. rewrite take_app_length'; [done|].
  rewrite length_app, !length_take. lia.
Qed.

(** ** Concatenation *)

Lemma length_sv_bytes (sv : StringVal) : sv_ok sv -> Z.of_nat (length (sv_bytes sv)) = len sv.
Proof.
  intros [Hl Hp]. unfold sv_bytes, StringValue. rewrite length_take. lia.
Qed.

Lemma length_scratch_text (s : StringValScratch) :
  scratch_wf s -> Z.of_nat (length (scratch_text s)) = str_len s.
Proof.
  unfold scratch_wf, scratch_text, StringValue. intros Hwf. rewrite length_take.
  destruct (buffer s) as [b|]; rewrite ?bytes_of_Some; [lia|].
  destruct Hwf as [_ ->]. done.
Qed.

Lemma live_calls_cons (c : StringVal * StringVal) (calls : list (StringVal * StringVal)) :
  live_calls (c :: calls) = if is_null c.1 then live_calls calls else c :: live_calls calls.
Proof.
  unfold live_calls. rewrite filter_cons.
  destruct (is_null c.1) eqn:Hc.
  - by rewrite decide_False by congruence.
  - by rewrite decide_True.
Qed.

Lemma StringConcat_null (dchecks : bool) (src separator : StringVal) (result : ScratchVal) :
  is_null src = true -> StringConcat dchecks src separator result = Ok result.
Proof. intros Hn. unfold StringConcat. by rewrite Hn. Qed.

Lemma separator_ok (separator : StringVal) :
  sv_ok separator ->
  sv_ok (if is_null separator then DEFAULT_STRING_CONCAT_DELIM else separator).
Proof. intros Hs. destruct (is_null separator); [|done]. unfold sv_ok. simpl. lia. Qed.

Lemma StringConcat_first (dchecks : bool) (src separator : StringVal)
    (s : StringValScratch) :
  scratch_wf s -> buffer s = None -> is_null src = false -> sv_ok src ->
  growable (len src) ->
  exists s',
    StringConcat dchecks src separator (slot s) = Ok (slot s') /\ scratch_wf s' /\
    scratch_text s' = sv_bytes src /\
    (len src <> 0 -> buffer s' <> None) /\ (len src = 0 -> buffer s' = None).
Proof.
  intros Hwf Hnone Hn Hok Hgrow. unfold StringConcat. rewrite Hn.
  cbn [slot with_scratch InitScratch scratch_is_null scratch_len scratch negb].
  rewrite Z.eqb_refl, !DCHECK_true. cbn [mbind outcome_bind].
  rewrite Hnone, bool_decide_eq_true_2 by done.
  destruct (StringValScratch_Set_ok dchecks s src Hwf Hok Hgrow)
    as (s' & -> & Hwf' & Htext & _ & Hsome & Hnull).
  cbn [mbind outcome_bind]. exists s'. repeat split; try done. by auto.
Qed.

Lemma StringConcat_next (dchecks : bool) (src separator : StringVal)
    (s : StringValScratch) :
  scratch_wf s -> buffer s <> None -> is_null src = false -> sv_ok src ->
  sv_ok separator ->
  growable (str_len s + Z.of_nat (length (separator_text separator)) + len src) ->
  exists s',
    StringConcat dchecks src separator (slot s) = Ok (slot s') /\ scratch_wf s' /\
    buffer s' <> None /\
    scratch_text s' = scratch_text s ++ separator_text separator ++ sv_bytes src.
Proof.
  intros Hwf Hsome Hn Hok Hsep Hgrow. unfold StringConcat. rewrite Hn.
  cbn [slot with_scratch InitScratch scratch_is_null scratch_len scratch negb].
  rewrite Z.eqb_refl, !DCHECK_true. cbn [mbind outcome_bind].
  rewrite bool_decide_eq_false_2 by done.
  pose proof (separator_ok separator Hsep) as Heff.
  pose proof (length_sv_bytes _ Heff) as Hlsep.
  pose proof (scratch_wf_nonneg s Hwf) as Hs.
  destruct Hok as [Hl Hp].
  assert (exists s1,
    (if is_null separator
     then StringValScratch_Append dchecks s DEFAULT_STRING_CONCAT_DELIM
     else StringValScratch_Append dchecks s separator) = Ok s1 /\ scratch_wf s1 /\
    scratch_text s1 = scratch_text s ++ separator_text separator /\
    buffer s1 <> None) as (s1 & -> & Hwf1 & Htext1 & Hsome1).
  { unfold separator_text, sv_bytes in *.
    destruct (is_null separator);
      (edestruct StringValScratch_Append_ok as (s1 & Hr & Hwf1 & Ht1 & Hk1);
       [exact Hwf|exact Heff| |exists s1; rewrite Hr; by auto]);
      (eapply growable_le; [|exact Hgrow]; destruct Heff; lia). }
  cbn [mbind outcome_bind].
  pose proof (length_scratch_text s1 Hwf1) as Hl1.
  rewrite Htext1, length_app, (Nat2Z.inj_add), (length_scratch_text s Hwf) in Hl1.
  destruct (StringValScratch_Append_ok dchecks s1 src Hwf1 (conj Hl Hp))
    as (s2 & -> & Hwf2 & Htext2 & Hkeep2).
  { by rewrite <- Hl1. }
  cbn [mbind outcome_bind]. exists s2. split; [done|]. split; [done|].
  split; [by auto|]. by rewrite Htext2, Htext1, <- app_assoc.
Qed.

(** The calls after the first non-empty value. *)
Lemma StringConcat_updates_next (dchecks : bool) (calls : list (StringVal * StringVal)) :
  forall s, scratch_wf s -> buffer s <> None -> calls_ok calls ->
    growable (Z.of_nat (length (scratch_text s ++ tail_text (live_calls calls)))) ->
    exists s',
      updates_o (fun x => StringConcat dchecks x.1 x.2) (slot s) calls = Ok (slot s') /\
      scratch_wf s' /\ buffer s' <> None /\
      scratch_text s' = scratch_text s ++ tail_text (live_calls calls).
Proof.
  induction calls as [|c calls IH]; intros s Hwf Hsome Hok Hgrow.
  - exists s. unfold tail_text. cbn. by rewrite app_nil_r.
  - unfold calls_ok in *. apply Forall_cons_1 in Hok as [[Hc1 Hc2] Hok].
    rewrite updates_o_cons, live_calls_cons.
    rewrite live_calls_cons in Hgrow.
    destruct (is_null c.1) eqn:Hn.
    + rewrite StringConcat_null by done. cbn [mbind outcome_bind]. by apply IH.
    + unfold tail_text in *. rewrite fmap_cons in *. cbn [concat] in *.
      fold (sv_bytes c.1) in *.
      destruct (StringConcat_next dchecks c.1 c.2 s Hwf Hsome Hn Hc1 Hc2)
        as (s1 & -> & Hwf1 & Hsome1 & Htext1).
      { eapply growable_le; [|exact Hgrow].
        rewrite !length_app, !Nat2Z.inj_add, (length_scratch_text s Hwf),
          (length_sv_bytes _ Hc1).
        pose proof (scratch_wf_nonneg s Hwf). destruct Hc1. lia. }
      cbn [mbind outcome_bind].
      destruct (IH s1 Hwf1 Hsome1 Hok) as (s' & -> & Hwf' & Hsome' & Htext').
      { rewrite Htext1. by rewrite <- !app_assoc in *. }
      exists s'. split; [done|]. split; [done|]. split; [done|].
      rewrite Htext', Htext1. by rewrite <- !app_assoc.
Qed.

Lemma concat_expected_cons (first : StringVal * StringVal)
    (rest : list (StringVal * StringVal)) :
  concat_expected (first :: rest) = sv_bytes first.1 ++ tail_text rest.
Proof. done. Qed.

(** The calls from a fresh scratch. *)
Lemma StringConcat_updates_fresh (dchecks : bool) (calls : list (StringVal * StringVal)) :
  calls_ok calls ->
  growable (Z.of_nat (length (concat_expected (live_calls calls)))) ->
  match live_calls calls with
  | [] => updates_o (fun x => StringConcat dchecks x.1 x.2) InitScratch calls = Ok InitScratch
  | first :: _ =>
      len first.1 <> 0 ->
      exists s',
        updates_o (fun x => StringConcat dchecks x.1 x.2) InitScratch calls = Ok (slot s') /\
        scratch_wf s' /\ buffer s' <> None /\
        scratch_text s' = concat_expected (live_calls calls)
  end.
Proof.
  induction calls as [|c calls IH]; intros Hok Hgrow; [done|].
  unfold calls_ok in *. apply Forall_cons_1 in Hok as [[Hc1 Hc2] Hok].
  rewrite live_calls_cons in *. rewrite updates_o_cons.
  destruct (is_null c.1) eqn:Hn.
  - rewrite StringConcat_null by done. cbn [mbind outcome_bind]. by apply IH.
  - intros Hlen. rewrite concat_expected_cons in *.
    destruct (StringConcat_first dchecks c.1 c.2 new_StringValScratch)
      as (s1 & Hrun & Hwf1 & Htext1 & Hsome1 & _); try done.
    { eapply growable_le; [|exact Hgrow].
      rewrite length_app, Nat2Z.inj_add, (length_sv_bytes _ Hc1). destruct Hc1. lia. }
    change InitScratch with (slot new_StringValScratch) at 1. rewrite Hrun.
    cbn [mbind outcome_bind].
    destruct (StringConcat_updates_next dchecks calls s1 Hwf1 (Hsome1 Hlen) Hok)
      as (s' & -> & Hwf' & Hsome' & Htext').
    { by rewrite Htext1. }
    exists s'. split; [done|]. split; [done|]. split; [done|].
    by rewrite Htext', Htext1.
Qed.

Lemma SerializeScratch_text (dchecks : bool) (s : StringValScratch) :
  exists sv, SerializeScratch dchecks (slot s) = Ok sv /\
    text_of sv = if bool_decide (buffer s = None) then None else Some (scratch_text s).
Proof.
  unfold SerializeScratch.
  cbn [slot with_scratch InitScratch scratch_is_null scratch_len scratch negb].
  rewrite Z.eqb_refl, !DCHECK_true. cbn [mbind outcome_bind].
  eexists. split; [done|].
  unfold scratch_text. destruct (buffer s) as [b|]; [|done].
  by rewrite bool_decide_eq_false_2.
Qed.

(** Null values are no-ops. When the first non-null value is not the empty
    string, and the whole text leaves room for the 1.5-fold growth of the
    buffer, the accumulated text is the first value followed, for each later
    non-null value, by the separator of its call (the default delimiter for
    a null separator) and the value. With no non-null value the result is
    NULL. *)
Theorem StringConcat_concatenates (dchecks : bool) (calls : list (StringVal * StringVal)) :
  calls_ok calls ->
  growable (Z.of_nat (length (concat_expected (live_calls calls)))) ->
  match live_calls calls with
  | [] => StringConcat_result dchecks calls = Ok None
  | first :: _ =>
      len first.1 <> 0 ->
      StringConcat_result dchecks calls = Ok (Some (concat_expected (live_calls calls)))
  end.
Proof.
  intros Hok Hgrow. unfold StringConcat_result.
  pose proof (StringConcat_updates_fresh dchecks calls Hok Hgrow) as Hrun.
  destruct (live_calls calls) as [|first rest].
  - rewrite Hrun. cbn [mbind outcome_bind].
    change InitScratch with (slot new_StringValScratch).
    destruct (SerializeScratch_text dchecks new_StringValScratch) as (sv & -> & Hsv).
    cbn [mbind outcome_bind]. by rewrite Hsv.
  - intros Hlen. destruct (Hrun Hlen) as (s' & -> & Hwf' & Hsome' & Htext').
    cbn [mbind outcome_bind].
    destruct (SerializeScratch_text dchecks s') as (sv & -> & Hsv).
    cbn [mbind outcome_bind]. rewrite Hsv, bool_decide_eq_false_2 by done.
    by rewrite Htext'.
Qed.

Lemma example_calls_ok : calls_ok example_calls.
Proof. repeat constructor; simpl; lia. Qed.

(** An instance of [StringConcat_concatenates]. *)
Lemma StringConcat_concatenates_witness :
  StringConcat_result true example_calls = Ok (Some [97; 44; 98; 44; 32; 99]).
Proof.
  apply (StringConcat_concatenates true example_calls example_calls_ok).
  - reflexivity.
  - discriminate.
Defined.

(** ** Text Min and Max *)

Lemma Min_StringVal_select (dchecks : bool) :
  Min_StringVal dchecks = select_StringVal StringValue_lt dchecks.
Proof. done. Qed.

Lemma Max_StringVal_select (dchecks : bool) :
  Max_StringVal dchecks = select_StringVal (fun a b => StringValue_lt b a) dchecks.
Proof. done. Qed.

Lemma StringValue_lt_order : strict_total_order StringValue_lt.
Proof.
  split; [|split].
  - intros x. induction x as [|a x IH]; [done|]. simpl.
    rewrite Z.ltb_irrefl, Z.eqb_refl. done.
  - intros x. induction x as [|a x IH]; intros y z Hxy Hyz.
    + destruct y; [done|]. by destruct z.
    + destruct y as [|b y]; [done|]. destruct z as [|c z]; [done|]. simpl in *.
      apply orb_true_iff in Hxy, Hyz. apply orb_true_iff.
      destruct Hxy as [Hab|Hab], Hyz as [Hbc|Hbc];
        rewrite ?andb_true_iff in *; rewrite ?Z.ltb_lt, ?Z.eqb_eq in *.
      * left. lia.
      * left. lia.
      * left. lia.
      * right. destruct Hab as [-> Hxy], Hbc as [-> Hyz]. split; [done|].
        by apply (IH y z).
  - intros x. induction x as [|a x IH]; intros y Hxy Hyx.
    + by destruct y.
    + destruct y as [|b y]; [done|]. simpl in *.
      apply orb_false_iff in Hxy as [Hab Hxy], Hyx as [Hba Hyx].
      apply Z.ltb_ge in Hab, Hba. assert (a = b) as -> by lia.
      rewrite Z.eqb_refl in *. simpl in *. f_equal. by apply IH.
Qed.

Lemma is_least_step {V : Type} (ltb : V -> V -> bool) (x v m : V) (vs : list V) :
  strict_total_order ltb ->
  is_least ltb m ((if ltb v x then v else x) :: vs) ->
  is_least ltb m (x :: v :: vs).
Proof.
  intros Hord [Hm Hle]. pose proof Hord as (Hirr & Htrans & Htot).
  assert (ltb x (if ltb v x then v else x) = false /\
          ltb v (if ltb v x then v else x) = false) as [Hx Hv].
  { destruct (ltb v x) eqn:Hvx; [|by rewrite Hirr].
    split; [|apply Hirr]. destruct (ltb x v) eqn:Hxv; [|done].
    pose proof (Hirr v) as Hc. by rewrite (Htrans v x v Hvx Hxv) in Hc. }
  split.
  - apply elem_of_cons in Hm as [->|Hm]; [|by do 2 apply list_elem_of_further].
    destruct (ltb v x); [apply list_elem_of_further|]; apply list_elem_of_here.
  - intros w Hw. apply elem_of_cons in Hw as [->|Hw].
    { eapply (not_lt_trans ltb Hord); [exact Hx|]. apply Hle, list_elem_of_here. }
    apply elem_of_cons in Hw as [->|Hw].
    { eapply (not_lt_trans ltb Hord); [exact Hv|]. apply Hle, list_elem_of_here. }
    by apply Hle, list_elem_of_further.
Qed.

Section SelectProps.
Variable better : list Z -> list Z -> bool.
Hypothesis better_order : strict_total_order better.
Variable dchecks : bool.

Lemma texts_cons (sv : StringVal) (inputs : list StringVal) :
  texts (sv :: inputs) = if is_null sv then texts inputs else sv_bytes sv :: texts inputs.
Proof.
  unfold texts. rewrite filter_cons.
  destruct (is_null sv) eqn:Hc.
  - by rewrite decide_False by congruence.
  - by rewrite decide_True.
Qed.

Lemma select_StringVal_null (src : StringVal) (dst : ScratchVal) :
  is_null src = true -> select_StringVal better dchecks src dst = Ok dst.
Proof. intros Hn. unfold select_StringVal. by rewrite Hn. Qed.

Lemma select_StringVal_step (src : StringVal) (s : StringValScratch) :
  scratch_wf s -> is_null src = false -> sv_ok src -> growable (len src) ->
  len src <> 0 ->
  exists s',
    select_StringVal better dchecks src (slot s) = Ok (slot s') /\ scratch_wf s' /\
    buffer s' <> None /\
    scratch_text s' =
      if bool_decide (buffer s = None) || better (sv_bytes src) (scratch_text s)
      then sv_bytes src else scratch_text s.
Proof.
  intros Hwf Hn Hok Hgrow Hlen. unfold select_StringVal. rewrite Hn.
  cbn [slot with_scratch InitScratch scratch_is_null scratch_len scratch negb].
  rewrite Z.eqb_refl, !DCHECK_true. cbn [mbind outcome_bind].
  fold (sv_bytes src). fold (scratch_text s).
  destruct (bool_decide (buffer s = None) || better (sv_bytes src) (scratch_text s))
    eqn:Hsel.
  - destruct (StringValScratch_Set_ok dchecks s src Hwf Hok Hgrow)
      as (s' & -> & Hwf' & Htext & _ & Hsome & _).
    cbn [mbind outcome_bind]. exists s'. by auto.
  - exists s. apply orb_false_iff in Hsel as [Hnone _].
    apply bool_decide_eq_false in Hnone. by auto.
Qed.

Lemma select_updates_value (inputs : list StringVal) :
  forall s, scratch_wf s -> buffer s <> None -> texts_ok inputs ->
    exists s',
      updates_o (select_StringVal better dchecks) (slot s) inputs = Ok (slot s') /\
      scratch_wf s' /\ buffer s' <> None /\
      is_least better (scratch_text s') (scratch_text s :: texts inputs).
Proof.
  pose proof better_order as (Hirr & _ & _).
  induction inputs as [|sv l IH]; intros s Hwf Hsome Hok.
  - exists s. split; [done|]. split; [done|]. split; [done|].
    split; [apply list_elem_of_here|]. intros v Hv.
    apply list_elem_of_singleton in Hv as ->. apply Hirr.
  - unfold texts_ok in *. apply Forall_cons_1 in Hok as [(Hsv & Hgrow & Hlen) Hok].
    rewrite updates_o_cons, texts_cons.
    destruct (is_null sv) eqn:Hn.
    + rewrite select_StringVal_null by done. cbn [mbind outcome_bind]. by apply IH.
    + destruct (select_StringVal_step sv s Hwf Hn Hsv Hgrow (Hlen eq_refl))
        as (s1 & -> & Hwf1 & Hsome1 & Htext1).
      cbn [mbind outcome_bind].
      destruct (IH s1 Hwf1 Hsome1 Hok) as (s' & -> & Hwf' & Hsome' & Hleast).
      exists s'. split; [done|]. split; [done|]. split; [done|].
      apply (is_least_step better); [done|].
      rewrite Htext1, bool_decide_eq_false_2 in Hleast by done. exact Hleast.
Qed.

Lemma select_updates_fresh (inputs : list StringVal) :
  texts_ok inputs -> texts inputs <> [] ->
  exists s',
    updates_o (select_StringVal better dchecks) InitScratch inputs = Ok (slot s') /\
    scratch_wf s' /\ buffer s' <> None /\
    is_least better (scratch_text s') (texts inputs).
Proof.
  induction inputs as [|sv l IH]; intros Hok Hne; [done|].
  unfold texts_ok in *. apply Forall_cons_1 in Hok as [(Hsv & Hgrow & Hlen) Hok].
  rewrite updates_o_cons. rewrite texts_cons in *.
  destruct (is_null sv) eqn:Hn.
  - rewrite select_StringVal_null by done. cbn [mbind outcome_bind]. by apply IH.
  - destruct (select_StringVal_step sv new_StringValScratch)
      as (s1 & Hrun & Hwf1 & Hsome1 & Htext1); try done; [by apply Hlen|].
    change InitScratch with (slot new_StringValScratch) at 1. rewrite Hrun.
    cbn [mbind outcome_bind].
    destruct (select_updates_value l s1 Hwf1 Hsome1 Hok)
      as (s' & -> & Hwf' & Hsome' & Hleast).
    exists s'. split; [done|]. split; [done|]. split; [done|].
    by rewrite Htext1 in Hleast.
Qed.

Lemma select_result_least (inputs : list StringVal) :
  texts_ok inputs -> texts inputs <> [] ->
  exists m, select_result better dchecks inputs = Ok (Some m) /\
            is_least better m (texts inputs).
Proof.
  intros Hok Hne. unfold select_result.
  destruct (select_updates_fresh inputs Hok Hne) as (s' & -> & Hwf' & Hsome' & Hleast).
  cbn [mbind outcome_bind].
  destruct (SerializeScratch_text dchecks s') as (sv & -> & Hsv).
  cbn [mbind outcome_bind]. rewrite Hsv, bool_decide_eq_false_2 by done.
  by exists (scratch_text s').
Qed.

Lemma select_result_perm (inputs inputs' : list StringVal) :
  inputs' ≡ₚ inputs -> texts_ok inputs -> texts inputs <> [] ->
  exists m,
    is_least better m (texts inputs) /\
    select_result better dchecks inputs = Ok (Some m) /\
    select_result better dchecks inputs' = Ok (Some m).
Proof.
  intros Hperm Hok Hne.
  assert (texts inputs' ≡ₚ texts inputs) as Htp by (unfold texts; by rewrite Hperm).
  destruct (select_result_least inputs Hok Hne) as (m & Hrun & Hm).
  destruct (select_result_least inputs') as (m' & Hrun' & Hm').
  { unfold texts_ok in *. by rewrite Hperm. }
  { intros He. apply Hne. apply Permutation_nil_r. by rewrite <- He. }
  exists m. split; [done|]. split; [done|]. rewrite Hrun'. do 2 f_equal.
  apply (is_least_unique better better_order m' m (texts inputs)); [|done].
  by apply (is_least_perm better m' (texts inputs')).
Qed.
End SelectProps.

Section SelectPartitions.
Variable better : list Z -> list Z -> bool.
Hypothesis better_order : strict_total_order better.
Variable dchecks : bool.

Lemma texts_app (l k : list StringVal) : texts (l ++ k) = texts l ++ texts k.
Proof. unfold texts. by rewrite list.filter_app, fmap_app. Qed.

Lemma texts_elem (m : list Z) (inputs : list StringVal) :
  m ∈ texts inputs -> exists sv, sv ∈ inputs /\ is_null sv = false /\ sv_bytes sv = m.
Proof.
  unfold texts. intros Hm. apply list_elem_of_fmap in Hm as (sv & -> & Hsv).
  apply list_elem_of_filter in Hsv as [Hn Hsv]. by exists sv.
Qed.

Lemma select_updates_all_null (inputs : list StringVal) :
  texts inputs = [] ->
  updates_o (select_StringVal better dchecks) InitScratch inputs = Ok InitScratch.
Proof.
  induction inputs as [|sv l IH]; intros He; [done|].
  rewrite texts_cons in He. rewrite updates_o_cons.
  destruct (is_null sv) eqn:Hn; [|done].
  rewrite select_StringVal_null by done. cbn [mbind outcome_bind]. by apply IH.
Qed.

Lemma select_partial_ok (part : list StringVal) :
  texts_ok part ->
  exists sv,
    select_partial better dchecks part = Ok sv /\
    (sv_ok sv /\ growable (len sv) /\ (is_null sv = false -> len sv <> 0)) /\
    ((texts part = [] /\ is_null sv = true) \/
     (is_null sv = false /\ is_least better (sv_bytes sv) (texts part))).
Proof.
  intros Hok. unfold select_partial.
  destruct (decide (texts part = [])) as [He|Hne].
  - rewrite select_updates_all_null by done. cbn [mbind outcome_bind].
    exists StringVal_null. split; [|split; [|by left]].
    + unfold SerializeScratch. cbn. by rewrite !DCHECK_true.
    + unfold sv_ok, growable. cbn. split; [lia|]. split; [done|]. done.
  - destruct (select_updates_fresh better better_order dchecks part Hok Hne)
      as (s' & -> & Hwf' & Hsome' & Hleast).
    cbn [mbind outcome_bind]. unfold SerializeScratch.
    cbn [slot with_scratch InitScratch scratch_is_null scratch_len scratch negb].
    rewrite Z.eqb_refl, !DCHECK_true. cbn [mbind outcome_bind].
    destruct (buffer s') as [b|] eqn:Hb; [|done].
    eexists. split; [done|].
    assert (scratch_text s' = StringValue b (str_len s')) as Htext.
    { unfold scratch_text. by rewrite Hb. }
    pose proof (length_scratch_text s' Hwf') as Hlen.
    destruct Hleast as [Hm Hle].
    destruct (texts_elem _ _ Hm) as (sv0 & Hsv0 & Hn0 & Hbytes0).
    unfold texts_ok in Hok. rewrite list.Forall_forall in Hok.
    destruct (Hok sv0 Hsv0) as (Hok0 & Hgrow0 & Hlen0).
    pose proof (length_sv_bytes sv0 Hok0) as Hl0. rewrite Hbytes0, Hlen in Hl0.
    unfold sv_ok, sv_bytes. cbn [len ptr is_null StringVal_AnyVal string_is_null].
    unfold scratch_wf in Hwf'. rewrite Hb in Hwf'.
    split; [|right; split; [done|]].
    + split; [lia|]. rewrite Hl0. split; [done|]. intros _. by apply Hlen0.
    + rewrite <- Htext. by split.
Qed.

Lemma collect_partials (parts : list (list StringVal)) :
  Forall texts_ok parts ->
  exists partials,
    collect (select_partial better dchecks) parts = Ok partials /\
    texts_ok partials /\
    (forall v, v ∈ texts partials -> v ∈ texts (concat parts)) /\
    (forall w, w ∈ texts (concat parts) ->
               exists v, v ∈ texts partials /\ better w v = false).
Proof.
  induction parts as [|p parts IH]; intros Hok.
  - exists []. split; [done|]. split; [by apply Forall_nil|]. split; [done|].
    intros w Hw. by apply not_elem_of_nil in Hw.
  - apply Forall_cons_1 in Hok as [Hp Hok].
    destruct (IH Hok) as (partials & Hrun & Hpok & Ha & Hb).
    destruct (select_partial_ok p Hp) as (sv & Hsv & Hsvok & Hcase).
    cbn [collect concat]. rewrite Hsv, Hrun. cbn [mbind outcome_bind].
    exists (sv :: partials). split; [done|]. split; [by apply Forall_cons_2|].
    rewrite texts_cons, texts_app.
    destruct Hcase as [[He Hn]|[Hn [Hm Hle]]]; rewrite Hn.
    + rewrite He. cbn [app]. by split.
    + split.
      * intros v Hv. apply elem_of_app.
        apply elem_of_cons in Hv as [->|Hv]; [by left|right; by apply Ha].
      * intros w Hw. apply elem_of_app in Hw as [Hw|Hw].
        -- exists (sv_bytes sv). split; [apply list_elem_of_here|by apply Hle].
        -- destruct (Hb w Hw) as (v & Hv & Hwv). exists v.
           split; [by apply list_elem_of_further|done].
Qed.

Lemma select_partitioned_least (parts : list (list StringVal)) :
  Forall texts_ok parts -> texts (concat parts) <> [] ->
  exists m, select_partitioned better dchecks parts = Ok (Some m) /\
            is_least better m (texts (concat parts)).
Proof.
  intros Hok Hne. unfold select_partitioned.
  destruct (collect_partials parts Hok) as (partials & -> & Hpok & Ha & Hb).
  cbn [mbind outcome_bind].
  destruct (select_result_least better better_order dchecks partials Hpok)
    as (m & -> & Hm & Hle).
  { intros He. destruct (texts (concat parts)) as [|w ws] eqn:Hc; [done|].
    destruct (Hb w) as (v & Hv & _); [apply list_elem_of_here|].
    rewrite He in Hv. by apply not_elem_of_nil in Hv. }
  exists m. split; [done|]. split; [by apply Ha|].
  intros w Hw. destruct (Hb w Hw) as (v & Hv & Hwv).
  apply (not_lt_trans better better_order w v m); [done|by apply Hle].
Qed.

Lemma select_least_order_partition (inputs inputs' : list StringVal)
    (parts : list (list StringVal)) :
  inputs' ≡ₚ inputs -> concat parts ≡ₚ inputs ->
  texts_ok inputs -> texts inputs <> [] ->
  exists m,
    is_least better m (texts inputs) /\
    select_result better dchecks inputs = Ok (Some m) /\
    select_result better dchecks inputs' = Ok (Some m) /\
    select_partitioned better dchecks parts = Ok (Some m).
Proof.
  intros Hperm Hparts Hok Hne.
  destruct (select_result_perm better better_order dchecks inputs inputs' Hperm Hok Hne)
    as (m & Hm & Hrun & Hrun').
  exists m. split; [done|]. split; [done|]. split; [done|].
  assert (texts (concat parts) ≡ₚ texts inputs) as Htp by (unfold texts; by rewrite Hparts).
  destruct (select_partitioned_least parts) as (m' & -> & Hm').
  - apply list.Forall_forall. intros p Hp. unfold texts_ok in *.
    rewrite list.Forall_forall in *. intros sv Hsv. apply Hok. rewrite <- Hparts.
    apply list_elem_of_In, in_concat. exists p. by rewrite <- !list_elem_of_In.
  - intros He. apply Hne. apply Permutation_nil_r. by rewrite <- He.
  - do 2 f_equal. apply (is_least_unique better better_order m' m (texts inputs)); [|done].
    by apply (is_least_perm better m' (texts (concat parts))).
Qed.
End SelectPartitions.

(** Text Min: for inputs whose non-null values are not empty strings (and
    whose lengths the buffer growth can take), with at least one non-null
    value, the serialised result is not null and is the least text in the
    byte-lexicographic order, whatever the order of the Updates and however
    the inputs are split into partitions whose serialised partial results
    are combined by the text Min. *)
Theorem Min_StringVal_least_non_empty (dchecks : bool) (inputs inputs' : list StringVal)
    (parts : list (list StringVal)) :
  inputs' ≡ₚ inputs -> concat parts ≡ₚ inputs ->
  texts_ok inputs -> texts inputs <> [] ->
  exists m,
    is_least StringValue_lt m (texts inputs) /\
    Min_StringVal_result dchecks inputs = Ok (Some m) /\
    Min_StringVal_result dchecks inputs' = Ok (Some m) /\
    Min_StringVal_partitioned dchecks parts = Ok (Some m).
Proof.
  intros Hperm Hparts Hok Hne.
  apply (select_least_order_partition StringValue_lt StringValue_lt_order dchecks
           inputs inputs' parts Hperm Hparts Hok Hne).
Qed.

(** Text Max: the same, with the greatest text. *)
Theorem Max_StringVal_greatest_non_empty (dchecks : bool) (inputs inputs' : list StringVal)
    (parts : list (list StringVal)) :
  inputs' ≡ₚ inputs -> concat parts ≡ₚ inputs ->
  texts_ok inputs -> texts inputs <> [] ->
  exists m,
    is_least (fun a b => StringValue_lt b a) m (texts inputs) /\
    Max_StringVal_result dchecks inputs = Ok (Some m) /\
    Max_StringVal_result dchecks inputs' = Ok (Some m) /\
    Max_StringVal_partitioned dchecks parts = Ok (Some m).
Proof.
  intros Hperm Hparts Hok Hne.
  apply (select_least_order_partition (fun a b => StringValue_lt b a)
           (strict_total_order_flip _ StringValue_lt_order) dchecks
           inputs inputs' parts Hperm Hparts Hok Hne).
Qed.

Lemma example_texts_ok : texts_ok example_texts.
Proof. repeat constructor; try done; simpl; lia. Qed.

Lemma example_texts_non_null : texts example_texts <> [].
Proof. done. Qed.

(** An instance of [Min_StringVal_least_non_empty]. *)
Lemma Min_StringVal_least_non_empty_witness :
  exists m,
    is_least StringValue_lt m (texts example_texts) /\
    Min_StringVal_result true example_texts = Ok (Some m) /\
    Min_StringVal_result true (reverse example_texts) = Ok (Some m) /\
    Min_StringVal_partitioned true [take 2 example_texts; drop 2 example_texts]
    = Ok (Some m).
Proof.
  apply (Min_StringVal_least_non_empty true example_texts (reverse example_texts)
           [take 2 example_texts; drop 2 example_texts]).
  - apply reverse_Permutation.
  - reflexivity.
  - exact example_texts_ok.
  - exact example_texts_non_null.
Defined.

(** An instance of [Max_StringVal_greatest_non_empty]. *)
Lemma Max_StringVal_greatest_non_empty_witness :
  exists m,
    is_least (fun a b => StringValue_lt b a) m (texts example_texts) /\
    Max_StringVal_result true example_texts = Ok (Some m) /\
    Max_StringVal_result true (reverse example_texts) = Ok (Some m) /\
    Max_StringVal_partitioned true [take 2 example_texts; drop 2 example_texts]
    = Ok (Some m).
Proof.
  apply (Max_StringVal_greatest_non_empty true example_texts (reverse example_texts)
           [take 2 example_texts; drop 2 example_texts]).
  - apply reverse_Permutation.
  - reflexivity.
  - exact example_texts_ok.
  - exact example_texts_non_null.
Defined.

(** * The bit matrix of a buffer *)

Lemma byte_at_range (m : list Z) (i : Z) : bytes_ok m -> 0 <= byte_at m i < 256.
Proof.
  intros Hm. unfold byte_at. destruct (m !! Z.to_nat i) as [b|] eqn:Hb; simpl; [|lia].
  exact (bytes_ok_lookup m _ b Hm Hb).
Qed.

Lemma byte_testbit_high (b j : Z) : 0 <= b < 256 -> 8 <= j -> Z.testbit b j = false.
Proof.
  intros Hb Hj. rewrite <- (Z.mod_small b (2 ^ 8)) by lia.
  apply Z.mod_pow2_bits_high. lia.
Qed.

Lemma testbit_word_at (m : list Z) (k c : Z) :
  bytes_ok m -> 0 <= c < 32 ->
  Z.testbit (word_at m k) c = Z.testbit (byte_at m (4 * k + c / 8)) (c mod 8).
Proof.
  intros Hm Hc. unfold word_at.
  pose proof (byte_at_range m (4 * k) Hm) as H0.
  pose proof (byte_at_range m (4 * k + 1) Hm) as H1.
  pose proof (byte_at_range m (4 * k + 2) Hm) as H2.
  pose proof (byte_at_range m (4 * k + 3) Hm) as H3.
  rewrite !Z.lor_spec, !Z.shiftl_spec by lia.
  assert (Hq : c / 8 = 0 \/ c / 8 = 1 \/ c / 8 = 2 \/ c / 8 = 3).
  { assert (0 <= c / 8 < 4) by (split; [apply Z.div_pos; lia | apply Z.div_lt_upper_bound; lia]).
    lia. }
  pose proof (Z.div_mod c 8 ltac:(lia)) as Hdm.
  pose proof (Z.mod_pos_bound c 8 ltac:(lia)) as Hmb.
  destruct Hq as [Hq|[Hq|[Hq|Hq]]]; rewrite Hq in *.
  - replace (4 * k + 0) with (4 * k) by lia. replace (c mod 8) with c by lia.
    rewrite (Z.testbit_neg_r _ (c - 8)), (Z.testbit_neg_r _ (c - 16)),
      (Z.testbit_neg_r _ (c - 24)) by lia.
    by rewrite !orb_false_r.
  - replace (c mod 8) with (c - 8) by lia.
    rewrite (byte_testbit_high _ c H0), (Z.testbit_neg_r _ (c - 16)),
      (Z.testbit_neg_r _ (c - 24)) by lia.
    by rewrite !orb_false_r.
  - replace (c mod 8) with (c - 16) by lia.
    rewrite (byte_testbit_high _ c H0), (byte_testbit_high _ (c - 8) H1),
      (Z.testbit_neg_r _ (c - 24)) by lia.
    by rewrite !orb_false_r.
  - replace (c mod 8) with (c - 24) by lia.
    rewrite (byte_testbit_high _ c H0), (byte_testbit_high _ (c - 8) H1),
      (byte_testbit_high _ (c - 16) H2) by lia.
    done.
Qed.

Lemma bitmap_ext (m1 m2 : list Z) :
  length m1 = 256%nat -> length m2 = 256%nat -> bytes_ok m1 -> bytes_ok m2 ->
  same_bits m1 m2 -> m1 = m2.
Proof.
  intros Hl1 Hl2 Hb1 Hb2 Hs. apply list_eq. intros i.
  destruct (decide (i < 256)%nat) as [Hi|Hi].
  - destruct (lookup_lt_is_Some_2 m1 i ltac:(lia)) as [b1 E1].
    destruct (lookup_lt_is_Some_2 m2 i ltac:(lia)) as [b2 E2].
    rewrite E1, E2. f_equal.
    pose proof (bytes_ok_lookup _ _ _ Hb1 E1) as R1.
    pose proof (bytes_ok_lookup _ _ _ Hb2 E2) as R2.
    apply Z.bits_inj'. intros n Hn.
    destruct (Z.lt_ge_cases n 8) as [Hn8|Hn8].
    + pose proof (Z.div_mod (Z.of_nat i) 4 ltac:(lia)) as Hdm.
      pose proof (Z.mod_pos_bound (Z.of_nat i) 4 ltac:(lia)) as Hmod.
      assert (Hr : 0 <= Z.of_nat i / 4 < NUM_PC_BITMAPS).
      { split; [apply Z.div_pos; lia | apply Z.div_lt_upper_bound; unfold NUM_PC_BITMAPS; lia]. }
      assert (Hc : 0 <= 8 * (Z.of_nat i mod 4) + n < 32) by lia.
      specialize (Hs (Z.of_nat i / 4) (8 * (Z.of_nat i mod 4) + n) Hr Hc).
      unfold bitmap_bit in Hs. rewrite !testbit_word_at in Hs by done.
      replace ((8 * (Z.of_nat i mod 4) + n) / 8) with (Z.of_nat i mod 4) in Hs
        by (apply (Z.div_unique _ 8 _ n); lia).
      replace ((8 * (Z.of_nat i mod 4) + n) mod 8) with n in Hs
        by (apply (Z.mod_unique _ 8 (Z.of_nat i mod 4) n); lia).
      replace (4 * (Z.of_nat i / 4) + Z.of_nat i mod 4) with (Z.of_nat i) in Hs by lia.
      unfold byte_at in Hs. rewrite Nat2Z.id, E1, E2 in Hs. exact Hs.
    + by rewrite !byte_testbit_high.
  - rewrite !lookup_ge_None_2 by lia. done.
Qed.

Lemma is_bitmap_ext (a b : StringVal) :
  is_bitmap a -> is_bitmap b -> same_bits (ptr a) (ptr b) -> a = b.
Proof.
  intros (Ha1 & Ha2 & Ha3 & Ha4) (Hb1 & Hb2 & Hb3 & Hb4) Hs.
  destruct a as [an al ap], b as [bn bl bp]. cbv [is_null StringVal_AnyVal] in Ha1, Hb1.
  simpl in *. subst. f_equal. by apply bitmap_ext.
Qed.

(** * Setting and reading one bit *)

Lemma lookup_store32_bytes (m : list Z) (k w : Z) (i : nat) :
  0 <= k -> 4 * k + 3 < Z.of_nat (length m) ->
  store32_bytes m k w !! i =
    if decide (4 * k <= Z.of_nat i <= 4 * k + 3)
    then Some (to_uint8 (Z.shiftr w (8 * (Z.of_nat i - 4 * k))))
    else m !! i.
Proof.
  intros Hk Hlen. unfold store32_bytes.
  destruct (decide (i = Z.to_nat (4 * k + 3))) as [->|N3].
  { rewrite list_lookup_insert_eq by (rewrite !length_insert; lia).
    rewrite decide_True by lia. do 3 f_equal. lia. }
  rewrite list_lookup_insert_ne by done.
  destruct (decide (i = Z.to_nat (4 * k + 2))) as [->|N2].
  { rewrite list_lookup_insert_eq by (rewrite !length_insert; lia).
    rewrite decide_True by lia. do 3 f_equal. lia. }
  rewrite list_lookup_insert_ne by done.
  destruct (decide (i = Z.to_nat (4 * k + 1))) as [->|N1].
  { rewrite list_lookup_insert_eq by (rewrite ?length_insert; lia).
    rewrite decide_True by lia. do 3 f_equal. lia. }
  rewrite list_lookup_insert_ne by done.
  destruct (decide (i = Z.to_nat (4 * k))) as [->|N0].
  { rewrite list_lookup_insert_eq by lia.
    rewrite decide_True by lia. replace (8 * _) with 0 by lia. by rewrite Z.shiftr_0_r. }
  rewrite list_lookup_insert_ne by done.
  rewrite decide_False by lia. done.
Qed.

Lemma store32_bytes_idemp (m : list Z) (k w : Z) :
  0 <= k -> 4 * k + 3 < Z.of_nat (length m) ->
  store32_bytes (store32_bytes m k w) k w = store32_bytes m k w.
Proof.
  intros Hk Hlen. apply list_eq. intros i.
  rewrite (lookup_store32_bytes (store32_bytes m k w)) by (rewrite ?length_store32_bytes; lia).
  rewrite (lookup_store32_bytes m) by done.
  by destruct (decide _).
Qed.

Lemma set_bit_again (w c : Z) :
  0 <= c < 32 ->
  to_uint32 (Z.lor (to_uint32 (Z.lor w (2 ^ c))) (2 ^ c)) = to_uint32 (Z.lor w (2 ^ c)).
Proof.
  intros Hc. unfold to_uint32. apply Z.bits_inj'. intros n Hn.
  destruct (Z.lt_ge_cases n 32).
  - rewrite !Z.mod_pow2_bits_low, !Z.lor_spec, !Z.mod_pow2_bits_low, !Z.lor_spec by lia.
    by destruct (Z.testbit w n), (Z.testbit (2 ^ c) n).
  - by rewrite !Z.mod_pow2_bits_high by lia.
Qed.

Lemma load8_cases (m : list Z) (i : Z) :
  load8 m i = Undefined \/ exists b, load8 m i = Ok b.
Proof.
  unfold load8. destruct (0 <=? i); [|by left].
  destruct (m !! Z.to_nat i); [right; eauto | by left].
Qed.

Lemma load8_out (m : list Z) (i : Z) : Z.of_nat (length m) <= i -> load8 m i = Undefined.
Proof.
  intros Hi. unfold load8. destruct (0 <=? i); [|done].
  by rewrite lookup_ge_None_2 by lia.
Qed.

Lemma load32_out (m : list Z) (k : Z) :
  Z.of_nat (length m) <= 4 * k + 3 -> load32 m k = Undefined.
Proof.
  intros Hk. unfold load32.
  destruct (load8_cases m (4 * k)) as [->|[b0 ->]]; [done|].
  destruct (load8_cases m (4 * k + 1)) as [->|[b1 ->]]; [done|].
  destruct (load8_cases m (4 * k + 2)) as [->|[b2 ->]]; [done|].
  by rewrite (load8_out m (4 * k + 3)).
Qed.

Lemma shl_int_out (a n : Z) : ~ 0 <= n < 32 -> shl_int a n = None.
Proof.
  intros Hn. unfold shl_int.
  destruct (Z.leb_spec 0 n), (Z.ltb_spec n 32); simpl; try done; lia.
Qed.

(** X10. Setting bit (row, bit) of a buffer that holds the row succeeds and
    changes nothing but that bit: the bit reads back as set, every other bit
    reads as before, the bytes outside the four of the row are untouched, and
    setting the bit a second time changes nothing. *)
Theorem SetDistinctEstimateBit_round_trip (bitmap : list Z) (row bit : Z) :
  0 <= row -> 4 * row + 3 < Z.of_nat (length bitmap) -> 0 <= bit < PC_BITMAP_LENGTH ->
  exists bitmap',
    SetDistinctEstimateBit bitmap row bit = Ok bitmap' /\
    length bitmap' = length bitmap /\
    GetDistinctEstimateBit bitmap' row bit = Ok (Some true) /\
    (forall r c, 0 <= r -> 4 * r + 3 < Z.of_nat (length bitmap) ->
       0 <= c < PC_BITMAP_LENGTH -> (r, c) <> (row, bit) ->
       GetDistinctEstimateBit bitmap' r c = GetDistinctEstimateBit bitmap r c) /\
    (forall i : nat, ~ 4 * row <= Z.of_nat i <= 4 * row + 3 -> bitmap' !! i = bitmap !! i) /\
    SetDistinctEstimateBit bitmap' row bit = Ok bitmap'.
Proof.
  unfold PC_BITMAP_LENGTH. intros Hr Hlen Hb.
  eexists. split; [by apply SetDistinctEstimateBit_in|].
  set (m' := store32_bytes _ _ _).
  assert (Hl' : length m' = length bitmap) by apply length_store32_bytes.
  split; [done|]. split; [|split; [|split]].
  - rewrite GetDistinctEstimateBit_in by (rewrite ?Hl'; lia).
    unfold m'. rewrite bitmap_bit_set by lia.
    rewrite !Z.eqb_refl. by rewrite orb_true_r.
  - intros r c Hr' Hlr Hc Hne.
    rewrite !GetDistinctEstimateBit_in by (rewrite ?Hl'; lia).
    unfold m'. rewrite bitmap_bit_set by lia.
    destruct (Z.eqb_spec row r), (Z.eqb_spec bit c); subst; try done;
      by rewrite orb_false_r.
  - intros i Hi. unfold m'. rewrite lookup_store32_bytes by done.
    by rewrite decide_False.
  - rewrite SetDistinctEstimateBit_in by (rewrite ?Hl'; lia).
    f_equal. unfold m'. rewrite word_at_store32_bytes by lia.
    rewrite decide_True by done.
    rewrite (to_uint32_small (to_uint32 _)) by apply to_uint32_range.
    rewrite set_bit_again by lia.
    by apply store32_bytes_idemp.
Qed.

(** An instance of [SetDistinctEstimateBit_round_trip]. *)
Lemma SetDistinctEstimateBit_round_trip_witness :
  exists bitmap',
    SetDistinctEstimateBit (ptr PcInit) 3 5 = Ok bitmap' /\
    GetDistinctEstimateBit bitmap' 3 5 = Ok (Some true).
Proof.
  destruct (SetDistinctEstimateBit_round_trip (ptr PcInit) 3 5)
    as (m' & H1 & _ & H2 & _); [lia | simpl; lia | unfold PC_BITMAP_LENGTH; lia |].
  exists m'. by split.
Defined.

(** X11. Outside the buffer and outside the row: when the four bytes of
    the row do not all lie in the allocation, both accessors are undefined;
    with the row inside and a bit index that is not below 32, the shift
    [1 << bit_index] has no value, so the write is undefined and the bit
    read is indeterminate. *)
Theorem DistinctEstimateBit_out_of_range (bitmap : list Z) (row bit : Z) :
  0 <= row ->
  (Z.of_nat (length bitmap) <= 4 * row + 3 ->
   SetDistinctEstimateBit bitmap row bit = Undefined /\
   GetDistinctEstimateBit bitmap row bit = Undefined) /\
  (4 * row + 3 < Z.of_nat (length bitmap) -> ~ 0 <= bit < PC_BITMAP_LENGTH ->
   SetDistinctEstimateBit bitmap row bit = Undefined /\
   GetDistinctEstimateBit bitmap row bit = Ok None).
Proof.
  intros Hr. split.
  - intros Hout. unfold SetDistinctEstimateBit, GetDistinctEstimateBit.
    by rewrite load32_out.
  - intros Hin Hbit. unfold SetDistinctEstimateBit, GetDistinctEstimateBit.
    rewrite load32_word by done. rewrite shl_int_out by done. done.
Qed.

(** An instance of [DistinctEstimateBit_out_of_range]. *)
Lemma DistinctEstimateBit_out_of_range_witness :
  (SetDistinctEstimateBit (ptr PcInit) 64 0 = Undefined /\
   GetDistinctEstimateBit (ptr PcInit) 64 0 = Undefined) /\
  (SetDistinctEstimateBit (ptr PcInit) 0 32 = Undefined /\
   GetDistinctEstimateBit (ptr PcInit) 0 32 = Ok None).
Proof.
  split.
  - apply (DistinctEstimateBit_out_of_range (ptr PcInit) 64 0); [lia | simpl; lia].
  - apply (DistinctEstimateBit_out_of_range (ptr PcInit) 0 32);
      [lia | simpl; lia | unfold PC_BITMAP_LENGTH; lia].
Defined.

(** * The debug dump *)

Lemma dump_row_loop (m : list Z) (i : Z) (s : list Z) :
  0 <= i -> 4 * i + 3 < Z.of_nat (length m) ->
  for_loop 0 PC_BITMAP_LENGTH
    (fun j debugstr =>
       bit ← GetDistinctEstimateBit m i j;
       bit ← determinate bit;
       Ok (debugstr ++ print_bool bit)) s
  = Ok (s ++ ((fun c => if bitmap_bit m i c then 49 else 48) <$> seqZ 0 PC_BITMAP_LENGTH)).
Proof.
  intros Hi Hlen. unfold for_loop.
  destruct (for_range_inv
              (fun j t => t = s ++ ((fun c => if bitmap_bit m i c then 49 else 48) <$> seqZ 0 j))
              (fun j debugstr =>
                 bit ← GetDistinctEstimateBit m i j;
                 bit ← determinate bit;
                 Ok (debugstr ++ print_bool bit))
              (Z.to_nat (PC_BITMAP_LENGTH - 0)) 0 s) as (t & -> & Ht).
  - by rewrite app_nil_r.
  - change (Z.of_nat (Z.to_nat (PC_BITMAP_LENGTH - 0))) with 32.
    intros j t Hj ->. rewrite GetDistinctEstimateBit_in by lia. simpl.
    eexists. split; [done|].
    rewrite seqZ_app by lia. rewrite fmap_app, app_assoc.
    change (seqZ (0 + j) 1) with [0 + j]. by rewrite Z.add_0_l.
  - by rewrite Ht.
Qed.

Lemma DistinctEstimateBitMapToString_dump (m : list Z) :
  length m = 256%nat -> DistinctEstimateBitMapToString m = Ok (dump m).
Proof.
  intros Hlen. unfold DistinctEstimateBitMapToString. unfold for_loop at 1.
  destruct (for_range_inv
              (fun i t => t = concat (dump_row m <$> seqZ 0 i))
              (fun i debugstr =>
                 debugstr ← for_loop 0 PC_BITMAP_LENGTH
                   (fun j debugstr =>
                      bit ← GetDistinctEstimateBit m i j;
                      bit ← determinate bit;
                      Ok (debugstr ++ print_bool bit))
                   debugstr;
                 Ok (debugstr ++ [10]))
              (Z.to_nat (NUM_PC_BITMAPS - 0)) 0 []) as (t & -> & Ht).
  - done.
  - change (Z.of_nat (Z.to_nat (NUM_PC_BITMAPS - 0))) with 64.
    intros j t Hj ->. rewrite dump_row_loop by lia. cbn [mbind outcome_bind].
    eexists. split; [done|].
    rewrite seqZ_app by lia. rewrite fmap_app, concat_app.
    change (seqZ (0 + j) 1) with [0 + j]. rewrite Z.add_0_l.
    rewrite fmap_cons, fmap_nil. cbn [concat]. rewrite app_nil_r.
    unfold dump_row at 2. symmetry. apply app_assoc.
  - cbn [mbind outcome_bind]. rewrite Ht. reflexivity.
Qed.

Lemma length_dump_row (m : list Z) (r : Z) : length (dump_row m r) = 33%nat.
Proof. unfold dump_row. by rewrite length_app, length_fmap, length_seqZ. Qed.

Lemma lookup_concat_uniform {A : Type} (k : nat) (ls : list (list A)) :
  Forall (fun l => length l = k) ls ->
  forall i c : nat, (c < k)%nat -> concat ls !! (i * k + c)%nat = ls !! i ≫= (.!! c).
Proof.
  intros Hall. induction Hall as [|l ls Hl _ IH]; intros i c Hc.
  - by rewrite lookup_nil.
  - destruct i as [|i]; simpl.
    + by rewrite lookup_app_l by lia.
    + rewrite lookup_app_r by lia.
      replace (k + i * k + c - length l)%nat with (i * k + c)%nat by lia. by apply IH.
Qed.

Lemma length_concat_uniform {A : Type} (k : nat) (ls : list (list A)) :
  Forall (fun l => length l = k) ls -> length (concat ls) = (length ls * k)%nat.
Proof.
  intros Hall. induction Hall as [|l ls Hl _ IH]; simpl; [done|].
  rewrite length_app. lia.
Qed.

Lemma dump_rows_uniform (m : list Z) (rows : list Z) :
  Forall (fun l => length l = 33%nat) (dump_row m <$> rows).
Proof. apply Forall_fmap, Forall_forall. intros r _. apply length_dump_row. Qed.

Lemma length_dump (m : list Z) : length (dump m) = 2113%nat.
Proof.
  unfold dump. rewrite length_app, (length_concat_uniform 33) by apply dump_rows_uniform.
  by rewrite length_fmap, length_seqZ.
Qed.

Lemma lookup_dump (m : list Z) (r c : Z) :
  0 <= r < NUM_PC_BITMAPS -> 0 <= c <= PC_BITMAP_LENGTH ->
  dump m !! Z.to_nat (33 * r + c) =
    Some (if decide (c = PC_BITMAP_LENGTH) then 10
          else if bitmap_bit m r c then 49 else 48).
Proof.
  unfold NUM_PC_BITMAPS, PC_BITMAP_LENGTH. intros Hr Hc. unfold dump.
  rewrite lookup_app_l
    by (rewrite (length_concat_uniform 33), length_fmap, length_seqZ
          by apply dump_rows_uniform; unfold NUM_PC_BITMAPS; lia).
  replace (Z.to_nat (33 * r + c)) with (Z.to_nat r * 33 + Z.to_nat c)%nat by lia.
  rewrite (lookup_concat_uniform 33) by (try apply dump_rows_uniform; lia).
  rewrite list_lookup_fmap, lookup_seqZ_lt by (unfold NUM_PC_BITMAPS; lia). simpl.
  rewrite Z2Nat.id by lia. unfold dump_row.
  destruct (decide (c = 32)) as [->|Hne].
  - rewrite lookup_app_r by (rewrite length_fmap, length_seqZ; unfold PC_BITMAP_LENGTH; lia).
    by rewrite length_fmap, length_seqZ.
  - rewrite lookup_app_l by (rewrite length_fmap, length_seqZ; unfold PC_BITMAP_LENGTH; lia).
    rewrite list_lookup_fmap, lookup_seqZ_lt by (unfold PC_BITMAP_LENGTH; lia). simpl.
    by rewrite Z2Nat.id by lia.
Qed.

(** X12. The dump of a 256-byte bitmap is a text of 2113 characters: for
    each row in turn the 32 bits of the row as the digits 0 and 1, column 0
    first, and a newline; then one more newline. The bit index 32 is never
    read. *)
Theorem DistinctEstimateBitMapToString_layout (v : list Z) :
  length v = 256%nat ->
  exists str,
    DistinctEstimateBitMapToString v = Ok str /\
    length str = 2113%nat /\
    (forall r c, 0 <= r < NUM_PC_BITMAPS -> 0 <= c < PC_BITMAP_LENGTH ->
       exists b, GetDistinctEstimateBit v r c = Ok (Some b) /\
                 str !! Z.to_nat (33 * r + c) = Some (if b then 49 else 48)) /\
    (forall r, 0 <= r < NUM_PC_BITMAPS -> str !! Z.to_nat (33 * r + 32) = Some 10) /\
    str !! 2112%nat = Some 10.
Proof.
  intros Hlen. exists (dump v).
  split; [by apply DistinctEstimateBitMapToString_dump|].
  split; [apply length_dump|]. split; [|split].
  - intros r c Hr Hc. exists (bitmap_bit v r c).
    unfold NUM_PC_BITMAPS, PC_BITMAP_LENGTH in *.
    split; [apply GetDistinctEstimateBit_in; lia|].
    rewrite lookup_dump by (unfold NUM_PC_BITMAPS, PC_BITMAP_LENGTH; lia).
    rewrite decide_False by (unfold PC_BITMAP_LENGTH; lia). done.
  - intros r Hr. rewrite lookup_dump by (unfold PC_BITMAP_LENGTH; lia). done.
  - unfold dump. rewrite lookup_app_r
      by (rewrite (length_concat_uniform 33), length_fmap, length_seqZ
            by apply dump_rows_uniform; unfold NUM_PC_BITMAPS; lia).
    rewrite (length_concat_uniform 33), length_fmap, length_seqZ
      by apply dump_rows_uniform. done.
Qed.

(** An instance of [DistinctEstimateBitMapToString_layout]. *)
Lemma DistinctEstimateBitMapToString_layout_witness :
  exists str,
    DistinctEstimateBitMapToString (ptr bitmap_ones) = Ok str /\
    length str = 2113%nat /\ str !! 32%nat = Some 10.
Proof.
  destruct (DistinctEstimateBitMapToString_layout (ptr bitmap_ones))
    as (str & H1 & H2 & _ & H4 & _); [reflexivity|].
  exists str. split; [exact H1|]. split; [exact H2|].
  apply (H4 0). unfold NUM_PC_BITMAPS. lia.
Defined.

(** X13. The dump determines the bitmap: two 256-byte buffers with the
    same dump are the same buffer. *)
Theorem DistinctEstimateBitMapToString_injective (v1 v2 : list Z) :
  length v1 = 256%nat -> length v2 = 256%nat -> bytes_ok v1 -> bytes_ok v2 ->
  DistinctEstimateBitMapToString v1 = DistinctEstimateBitMapToString v2 ->
  v1 = v2.
Proof.
  intros Hl1 Hl2 Hb1 Hb2 Heq.
  rewrite !DistinctEstimateBitMapToString_dump in Heq by done.
  assert (Hd : dump v1 = dump v2) by congruence. clear Heq.
  apply bitmap_ext; try done. intros r c Hr Hc.
  assert (Hl : dump v1 !! Z.to_nat (33 * r + c) = dump v2 !! Z.to_nat (33 * r + c))
    by (by rewrite Hd).
  rewrite !lookup_dump in Hl by lia.
  rewrite !decide_False in Hl by lia.
  revert Hl. by destruct (bitmap_bit v1 r c), (bitmap_bit v2 r c).
Qed.

(** An instance of [DistinctEstimateBitMapToString_injective]. *)
Lemma DistinctEstimateBitMapToString_injective_witness :
  ptr PcInit = replicate 256 0.
Proof.
  apply DistinctEstimateBitMapToString_injective; reflexivity.
Defined.

(** * Runs of updates and merges of partitions *)

Lemma byte_at_zip_lor (a b : list Z) (i : Z) :
  length a = length b ->
  byte_at (zip_with Z.lor a b) i = Z.lor (byte_at a i) (byte_at b i).
Proof.
  intros Hl. unfold byte_at. rewrite lookup_zip_with.
  destruct (a !! Z.to_nat i) as [x|] eqn:Ha, (b !! Z.to_nat i) as [y|] eqn:Hb; simpl; try done.
  - apply lookup_ge_None in Hb. apply lookup_lt_Some in Ha. lia.
  - apply lookup_ge_None in Ha. apply lookup_lt_Some in Hb. lia.
Qed.

Lemma bitmap_bit_zip_lor (a b : list Z) (r c : Z) :
  length a = length b -> bytes_ok a -> bytes_ok b -> 0 <= c < 32 ->
  bitmap_bit (zip_with Z.lor a b) r c = bitmap_bit a r c || bitmap_bit b r c.
Proof.
  intros Hl Ha Hb Hc. unfold bitmap_bit.
  rewrite !testbit_word_at by (done || by apply bytes_ok_zip_lor).
  by rewrite byte_at_zip_lor, Z.lor_spec.
Qed.

Lemma bitmap_bit_PcInit (r c : Z) : bitmap_bit (ptr PcInit) r c = false.
Proof.
  assert (Hz : forall i, byte_at (ptr PcInit) i = 0).
  { intros i. unfold byte_at. destruct (ptr PcInit !! Z.to_nat i) as [b|] eqn:Hb; [|done].
    apply lookup_replicate in Hb as [-> _]. done. }
  unfold bitmap_bit, word_at. rewrite !Hz. apply Z.bits_0.
Qed.

Lemma PcMerge_bits (dchecks : bool) (src dst : StringVal) :
  is_bitmap src -> is_bitmap dst ->
  exists dst', PcMerge dchecks src dst = Ok dst' /\ is_bitmap dst' /\
    forall r c, 0 <= r < NUM_PC_BITMAPS -> 0 <= c < PC_BITMAP_LENGTH ->
      bitmap_bit (ptr dst') r c = bitmap_bit (ptr dst) r c || bitmap_bit (ptr src) r c.
Proof.
  intros Hs Hd. eexists. split; [by apply PcMerge_in|].
  split; [by apply PcMerge_is_bitmap|].
  destruct Hs as (_ & _ & Hls & Hbs), Hd as (_ & _ & Hld & Hbd).
  intros r c _ Hc. cbn [ptr]. apply bitmap_bit_zip_lor; try done. by rewrite Hls, Hld.
Qed.

Lemma PcUpdate_bits {T : Type} `{AnyVal T} (Hash : T -> Z -> Z) (x : T) (dst : StringVal) :
  is_bitmap dst ->
  exists dst', PcUpdate Hash x dst = Ok dst' /\ is_bitmap dst' /\
    forall r c, 0 <= r < NUM_PC_BITMAPS -> 0 <= c < PC_BITMAP_LENGTH ->
      bitmap_bit (ptr dst') r c = bitmap_bit (ptr dst) r c || PcUpdate_sets Hash x r c.
Proof.
  intros Hd. pose proof Hd as (Hnull & Hlen & Hbytes & Hok).
  unfold PcUpdate, PcUpdate_sets. destruct (is_null x) eqn:Hx.
  { exists dst. split; [done|]. split; [done|]. intros r c _ _. by rewrite orb_false_r. }
  destruct (PcUpdate_loop_in (Hash x) (ptr dst) Hbytes Hok) as (m & -> & Hl & Hb & Hbits).
  cbn [mbind outcome_bind]. eexists. split; [done|]. split.
  { unfold is_bitmap; cbn [ptr len]. by rewrite Hl. }
  cbn [ptr]. unfold NUM_PC_BITMAPS, PC_BITMAP_LENGTH. intros r c Hr Hc.
  rewrite Hbits by lia.
  destruct (Z.ltb_spec r NUM_PC_BITMAPS) as [_|Hge]; [|unfold NUM_PC_BITMAPS in Hge; lia].
  done.
Qed.

Lemma PcsaUpdate_bits {T : Type} `{AnyVal T} (Hash : T -> Z -> Z) (x : T) (dst : StringVal) :
  pcsa_input_ok Hash x -> is_bitmap dst ->
  exists dst', PcsaUpdate Hash x dst = Ok dst' /\ is_bitmap dst' /\
    forall r c, 0 <= r < NUM_PC_BITMAPS -> 0 <= c < PC_BITMAP_LENGTH ->
      bitmap_bit (ptr dst') r c = bitmap_bit (ptr dst) r c || PcsaUpdate_sets Hash x r c.
Proof.
  intros Hx Hd. pose proof Hd as (Hnull & Hlen & Hbytes & Hok).
  unfold PcsaUpdate, PcsaUpdate_sets. destruct (is_null x) eqn:Hn.
  { exists dst. split; [done|]. split; [done|]. intros r c _ _. by rewrite orb_false_r. }
  destruct Hx as [Hx|Hx]; [congruence|].
  pose proof (to_uint32_range (Hash x 0)) as Hrange.
  set (h := to_uint32 (Hash x 0)) in *.
  destruct (PcsaUpdate_hash_in (ptr dst) h Hbytes) as [Hcol ->]; [lia|].
  cbn [mbind outcome_bind].
  pose proof (Z.mod_pos_bound h NUM_PC_BITMAPS) as Hrow.
  unfold NUM_PC_BITMAPS, PC_BITMAP_LENGTH in *.
  eexists. split; [done|]. split.
  { unfold is_bitmap. cbn [ptr len]. rewrite length_store32_bytes.
    split; [done|]. split; [done|]. split; [done|]. by apply bytes_ok_store32_bytes. }
  cbn [ptr]. intros r c Hr Hc.
  rewrite bitmap_bit_set by (rewrite ?Hbytes; lia).
  cbn [negb andb]. by rewrite (Z.eqb_sym r).
Qed.

Section SketchRuns.
Context {T : Type}.
Variable update : T -> StringVal -> outcome StringVal.
Variable sets : T -> Z -> Z -> bool.
Variable valid : T -> Prop.
Hypothesis update_bits : forall x dst, valid x -> is_bitmap dst ->
  exists dst', update x dst = Ok dst' /\ is_bitmap dst' /\
    forall r c, 0 <= r < NUM_PC_BITMAPS -> 0 <= c < PC_BITMAP_LENGTH ->
      bitmap_bit (ptr dst') r c = bitmap_bit (ptr dst) r c || sets x r c.

Lemma run_bits (inputs : list T) :
  forall dst, Forall valid inputs -> is_bitmap dst ->
    exists dst', updates_o update dst inputs = Ok dst' /\ is_bitmap dst' /\
      forall r c, 0 <= r < NUM_PC_BITMAPS -> 0 <= c < PC_BITMAP_LENGTH ->
        bitmap_bit (ptr dst') r c
        = bitmap_bit (ptr dst) r c || existsb (fun x => sets x r c) inputs.
Proof.
  induction inputs as [|x inputs IH]; intros dst Hv Hd.
  - exists dst. split; [done|]. split; [done|]. intros r c _ _. simpl. by rewrite orb_false_r.
  - apply Forall_cons_1 in Hv as [Hx Hv]. rewrite updates_o_cons.
    destruct (update_bits x dst Hx Hd) as (d1 & -> & Hd1 & Hb1). cbn [mbind outcome_bind].
    destruct (IH d1 Hv Hd1) as (d2 & -> & Hd2 & Hb2).
    exists d2. split; [done|]. split; [done|]. intros r c Hr Hc.
    rewrite Hb2, Hb1 by done. simpl. by rewrite orb_assoc.
Qed.

Lemma run_same_members (inputs inputs' : list T) (dst : StringVal) :
  Forall valid inputs -> Forall valid inputs' -> is_bitmap dst ->
  (forall x r c, sets x r c = true -> (x ∈ inputs <-> x ∈ inputs')) ->
  exists dst', updates_o update dst inputs = Ok dst' /\
               updates_o update dst inputs' = Ok dst' /\ is_bitmap dst'.
Proof.
  intros Hv Hv' Hd Hm.
  destruct (run_bits inputs dst Hv Hd) as (d1 & H1 & Hd1 & Hb1).
  destruct (run_bits inputs' dst Hv' Hd) as (d2 & H2 & Hd2 & Hb2).
  exists d1. split; [done|]. split; [|done]. rewrite H2. f_equal.
  apply is_bitmap_ext; try done. intros r c Hr Hc. rewrite Hb1, Hb2 by done. f_equal.
  apply eq_true_iff_eq. rewrite !existsb_exists. 
  split; intros (x & Hin & Hs); exists x; (split; [|done]);
    apply list_elem_of_In; apply list_elem_of_In in Hin; by apply (Hm x r c Hs).
Qed.

Lemma merge_run_bits (dchecks : bool) (partials : list StringVal) :
  forall dst, Forall is_bitmap partials -> is_bitmap dst ->
    exists dst', updates_o (PcMerge dchecks) dst partials = Ok dst' /\ is_bitmap dst' /\
      forall r c, 0 <= r < NUM_PC_BITMAPS -> 0 <= c < PC_BITMAP_LENGTH ->
        bitmap_bit (ptr dst') r c
        = bitmap_bit (ptr dst) r c || existsb (fun p => bitmap_bit (ptr p) r c) partials.
Proof.
  induction partials as [|p partials IH]; intros dst Hv Hd.
  - exists dst. split; [done|]. split; [done|]. intros r c _ _. simpl. by rewrite orb_false_r.
  - apply Forall_cons_1 in Hv as [Hp Hv]. rewrite updates_o_cons.
    destruct (PcMerge_bits dchecks p dst Hp Hd) as (d1 & -> & Hd1 & Hb1).
    cbn [mbind outcome_bind].
    destruct (IH d1 Hv Hd1) as (d2 & -> & Hd2 & Hb2).
    exists d2. split; [done|]. split; [done|]. intros r c Hr Hc.
    rewrite Hb2, Hb1 by done. simpl. by rewrite orb_assoc.
Qed.

Lemma collect_runs (parts : list (list T)) :
  Forall (Forall valid) parts ->
  exists partials, collect (updates_o update PcInit) parts = Ok partials /\
    Forall is_bitmap partials /\
    forall r c, 0 <= r < NUM_PC_BITMAPS -> 0 <= c < PC_BITMAP_LENGTH ->
      existsb (fun p => bitmap_bit (ptr p) r c) partials
      = existsb (fun x => sets x r c) (concat parts).
Proof.
  induction parts as [|part parts IH]; intros Hv.
  - exists []. by split.
  - apply Forall_cons_1 in Hv as [Hp Hv].
    destruct (run_bits part PcInit Hp PcInit_is_bitmap) as (p & Hrun & Hbp & Hbits).
    destruct (IH Hv) as (ps & Hps & Hbps & Hex).
    exists (p :: ps). cbn [collect]. rewrite Hrun, Hps. split; [done|].
    split; [by apply Forall_cons_2|]. intros r c Hr Hc.
    cbn [existsb concat]. rewrite existsb_app, Hex, Hbits by done.
    by rewrite bitmap_bit_PcInit.
Qed.

Lemma partitioned_run (dchecks : bool) (parts : list (list T)) :
  Forall (Forall valid) parts ->
  exists merged,
    sketch_partitioned dchecks update parts = Ok merged /\
    updates_o update PcInit (concat parts) = Ok merged /\ is_bitmap merged.
Proof.
  intros Hv. unfold sketch_partitioned.
  destruct (collect_runs parts Hv) as (ps & -> & Hbps & Hex). cbn [mbind outcome_bind].
  destruct (merge_run_bits dchecks ps PcInit Hbps PcInit_is_bitmap) as (m & -> & Hm & Hbm).
  destruct (run_bits (concat parts) PcInit) as (d & -> & Hd & Hbd);
    [by apply Forall_concat | apply PcInit_is_bitmap |].
  exists m. split; [done|]. split; [|done]. f_equal.
  apply is_bitmap_ext; try done. intros r c Hr Hc.
  by rewrite Hbd, Hbm, Hex.
Qed.
End SketchRuns.

Lemma PcUpdate_sets_spec {T : Type} `{AnyVal T} (Hash : T -> Z -> Z) (x : T) (r c : Z) :
  PcUpdate_sets Hash x r c = true <->
  is_null x = false /\ hash_column (to_uint32 (Hash x r)) c.
Proof.
  unfold PcUpdate_sets. rewrite andb_true_iff, negb_true_iff, Z.eqb_eq.
  pose proof (to_uint32_range (Hash x r)) as Hh.
  destruct (column_of_hash _ Hh) as [Hcol _].
  split; intros [Hn Hc]; (split; [done|]).
  - by rewrite <- Hc.
  - by eapply hash_column_unique.
Qed.

(** X14. A run of plain-variant updates over any inputs, from a 256-byte
    bitmap, returns a 256-byte bitmap in which a bit (row [r], column [c]) is
    set exactly when it was set before or some non-null input of the run has
    [c] as the column of its hash seeded with [r]. *)
Theorem PcUpdate_run_sets_hash_columns {T : Type} `{AnyVal T} (Hash : T -> Z -> Z)
    (inputs : list T) (dst : StringVal) :
  is_bitmap dst ->
  exists dst', updates_o (PcUpdate Hash) dst inputs = Ok dst' /\ is_bitmap dst' /\
    forall r c, 0 <= r < NUM_PC_BITMAPS -> 0 <= c < PC_BITMAP_LENGTH ->
      exists b b',
        GetDistinctEstimateBit (ptr dst) r c = Ok (Some b) /\
        GetDistinctEstimateBit (ptr dst') r c = Ok (Some b') /\
        (b' = true <->
         b = true \/
         exists x, x ∈ inputs /\ is_null x = false /\
                   hash_column (to_uint32 (Hash x r)) c).
Proof.
  intros Hd.
  destruct (run_bits (PcUpdate Hash) (PcUpdate_sets Hash) (fun _ => True)
              (fun x d _ => PcUpdate_bits Hash x d) inputs dst) as (d & Hrun & Hbd & Hbits).
  { by apply Forall_forall. }
  { done. }
  exists d. split; [done|]. split; [done|]. intros r c Hr Hc.
  exists (bitmap_bit (ptr dst) r c), (bitmap_bit (ptr d) r c).
  destruct Hd as (_ & _ & Hl & _), Hbd as (_ & _ & Hl' & _).
  unfold NUM_PC_BITMAPS, PC_BITMAP_LENGTH in *.
  rewrite !GetDistinctEstimateBit_in by lia.
  split; [done|]. split; [done|].
  rewrite Hbits by done. rewrite orb_true_iff, existsb_exists.
  split; (intros [Hb|(x & Hin & Hs)]; [by left|right; exists x]).
  - apply PcUpdate_sets_spec in Hs as [? ?]. by rewrite list_elem_of_In.
  - destruct Hs as [? ?]. split; [by apply list_elem_of_In|]. by apply PcUpdate_sets_spec.
Qed.

(** An instance of [PcUpdate_run_sets_hash_columns]. *)
Lemma PcUpdate_run_sets_hash_columns_witness :
  exists dst', updates_o (PcUpdate example_hash) PcInit sketch_inputs = Ok dst' /\
    is_bitmap dst'.
Proof.
  destruct (PcUpdate_run_sets_hash_columns example_hash sketch_inputs PcInit)
    as (d & H1 & H2 & _); [apply PcInit_is_bitmap|].
  exists d. by split.
Defined.

(** X15. The plain-variant sketch depends only on the set of its non-null
    inputs: two runs from the same bitmap whose non-null inputs are the same
    up to order and repetition return the same bitmap. *)
Theorem PcUpdate_order_and_duplicates {T : Type} `{AnyVal T} (Hash : T -> Z -> Z)
    (inputs inputs' : list T) (dst : StringVal) :
  is_bitmap dst ->
  (forall x, is_null x = false -> (x ∈ inputs <-> x ∈ inputs')) ->
  exists dst', updates_o (PcUpdate Hash) dst inputs = Ok dst' /\
               updates_o (PcUpdate Hash) dst inputs' = Ok dst'.
Proof.
  intros Hd Hm.
  destruct (run_same_members (PcUpdate Hash) (PcUpdate_sets Hash) (fun _ => True)
              (fun x d _ => PcUpdate_bits Hash x d) inputs inputs' dst)
    as (d & H1 & H2 & _); try done; try by apply Forall_forall.
  - intros x r c Hs. apply Hm. by apply PcUpdate_sets_spec in Hs as [? _].
  - by exists d.
Qed.

(** An instance of [PcUpdate_order_and_duplicates]. *)
Lemma PcUpdate_order_and_duplicates_witness :
  exists dst', updates_o (PcUpdate example_hash) PcInit sketch_inputs = Ok dst' /\
               updates_o (PcUpdate example_hash) PcInit
                 (reverse sketch_inputs ++ sketch_inputs) = Ok dst'.
Proof.
  apply PcUpdate_order_and_duplicates; [apply PcInit_is_bitmap|].
  intros x _. unfold sketch_inputs. cbn [reverse rev_append app].
  rewrite !elem_of_cons, !elem_of_nil. tauto.
Defined.

(** X16. Splitting the inputs over partitions does not change the
    plain-variant sketch: accumulating each partition from [PcInit] and
    merging the partial bitmaps into a fresh [PcInit] returns the bitmap one
    run over all the inputs returns. *)
Theorem PcMerge_PcUpdate_partitions {T : Type} `{AnyVal T} (Hash : T -> Z -> Z)
    (dchecks : bool) (parts : list (list T)) :
  exists merged,
    sketch_partitioned dchecks (PcUpdate Hash) parts = Ok merged /\
    updates_o (PcUpdate Hash) PcInit (concat parts) = Ok merged /\
    is_bitmap merged.
Proof.
  apply (partitioned_run (PcUpdate Hash) (PcUpdate_sets Hash) (fun _ => True)
           (fun x d _ => PcUpdate_bits Hash x d)).
  apply Forall_forall. intros part _. by apply Forall_forall.
Qed.

(** X17. The same for the stochastic-averaging variant, over inputs it has
    a defined call for (NULL, or a hash that is zero or at least 64): the
    sketch depends only on the set of the non-null inputs. *)
Theorem PcsaUpdate_order_and_duplicates {T : Type} `{AnyVal T} (Hash : T -> Z -> Z)
    (inputs inputs' : list T) (dst : StringVal) :
  is_bitmap dst ->
  Forall (pcsa_input_ok Hash) inputs -> Forall (pcsa_input_ok Hash) inputs' ->
  (forall x, is_null x = false -> (x ∈ inputs <-> x ∈ inputs')) ->
  exists dst', updates_o (PcsaUpdate Hash) dst inputs = Ok dst' /\
               updates_o (PcsaUpdate Hash) dst inputs' = Ok dst'.
Proof.
  intros Hd Hv Hv' Hm.
  destruct (run_same_members (PcsaUpdate Hash) (PcsaUpdate_sets Hash) (pcsa_input_ok Hash)
              (PcsaUpdate_bits Hash) inputs inputs' dst) as (d & H1 & H2 & _); try done.
  - intros x r c Hs. apply Hm. unfold PcsaUpdate_sets in Hs.
    rewrite !andb_true_iff, negb_true_iff in Hs. tauto.
  - by exists d.
Qed.

Lemma sketch_inputs_ok : Forall (pcsa_input_ok example_hash) sketch_inputs.
Proof.
  repeat apply Forall_cons_2; try apply Forall_nil_2; unfold pcsa_input_ok.
  - right. right. by vm_compute.
  - by left.
  - right. right. by vm_compute.
Qed.

(** An instance of [PcsaUpdate_order_and_duplicates]. *)
Lemma PcsaUpdate_order_and_duplicates_witness :
  exists dst', updates_o (PcsaUpdate example_hash) PcInit sketch_inputs = Ok dst' /\
               updates_o (PcsaUpdate example_hash) PcInit
                 (reverse sketch_inputs ++ sketch_inputs) = Ok dst'.
Proof.
  apply PcsaUpdate_order_and_duplicates;
    [apply PcInit_is_bitmap | apply sketch_inputs_ok | |].
  - apply Forall_app. split; [apply Forall_reverse|]; apply sketch_inputs_ok.
  - intros x _. unfold sketch_inputs. cbn [reverse rev_append app].
    rewrite !elem_of_cons, !elem_of_nil. tauto.
Defined.

(** X18. Splitting the inputs over partitions does not change the
    stochastic-averaging sketch either, for inputs it has a defined call
    for. *)
Theorem PcMerge_PcsaUpdate_partitions {T : Type} `{AnyVal T} (Hash : T -> Z -> Z)
    (dchecks : bool) (parts : list (list T)) :
  Forall (Forall (pcsa_input_ok Hash)) parts ->
  exists merged,
    sketch_partitioned dchecks (PcsaUpdate Hash) parts = Ok merged /\
    updates_o (PcsaUpdate Hash) PcInit (concat parts) = Ok merged /\
    is_bitmap merged.
Proof.
  apply (partitioned_run (PcsaUpdate Hash) (PcsaUpdate_sets Hash) (pcsa_input_ok Hash)
           (PcsaUpdate_bits Hash)).
Qed.

(** An instance of [PcMerge_PcsaUpdate_partitions]. *)
Lemma PcMerge_PcsaUpdate_partitions_witness :
  exists merged,
    sketch_partitioned true (PcsaUpdate example_hash)
      [take 1 sketch_inputs; drop 1 sketch_inputs] = Ok merged /\
    updates_o (PcsaUpdate example_hash) PcInit
      (concat [take 1 sketch_inputs; drop 1 sketch_inputs]) = Ok merged /\
    is_bitmap merged.
Proof.
  apply (PcMerge_PcsaUpdate_partitions example_hash true).
  apply Forall_cons_2; [apply Forall_take, sketch_inputs_ok|].
  apply Forall_cons_2; [apply Forall_drop, sketch_inputs_ok|]. apply Forall_nil_2.
Defined.

(** * The leading-run sum under updates and merges *)

Lemma run_of_ones_mono (n : nat) (w w' : Z) :
  forall c,
    (forall j, c <= j < c + Z.of_nat n -> Z.testbit w j = true -> Z.testbit w' j = true) ->
    run_of_ones n w c <= run_of_ones n w' c.
Proof.
  induction n as [|n IH]; intros c Hsub; simpl; [lia|].
  destruct (Z.testbit w c) eqn:Hw.
  - rewrite (Hsub c) by (done || lia).
    assert (run_of_ones n w (c + 1) <= run_of_ones n w' (c + 1)); [|lia].
    apply IH. intros j Hj. apply Hsub. lia.
  - pose proof (run_of_ones_range n w' (c + 1)). destruct (Z.testbit w' c); lia.
Qed.

Lemma sum_runs_le (f g : Z -> Z) (l : list Z) :
  (forall r, r ∈ l -> f r <= g r) ->
  foldr Z.add 0 (f <$> l) <= foldr Z.add 0 (g <$> l).
Proof.
  induction l as [|r l IH]; intros Hle; [simpl; lia|].
  rewrite !fmap_cons. cbn [foldr].
  pose proof (Hle r ltac:(left)).
  assert (foldr Z.add 0 (f <$> l) <= foldr Z.add 0 (g <$> l)); [|lia].
  apply IH. intros r' Hr'. apply Hle. by right.
Qed.

Lemma sum_leading_runs_mono (m m' : list Z) :
  (forall r c, 0 <= r < NUM_PC_BITMAPS -> 0 <= c < PC_BITMAP_LENGTH ->
     bitmap_bit m r c = true -> bitmap_bit m' r c = true) ->
  sum_leading_runs m <= sum_leading_runs m'.
Proof.
  intros Hsub. unfold sum_leading_runs. apply sum_runs_le. intros r Hr.
  apply elem_of_seqZ in Hr. unfold leading_run_length. apply run_of_ones_mono.
  intros j Hj. apply Hsub; [lia|]. unfold PC_BITMAP_LENGTH in *. lia.
Qed.

Lemma sum_leading_runs_range (m : list Z) : 0 <= sum_leading_runs m <= 2048.
Proof.
  unfold sum_leading_runs.
  assert (Hg : forall l : list Z,
             0 <= foldr Z.add 0 ((fun r => leading_run_length (word_at m r)) <$> l)
             <= 32 * Z.of_nat (length l)).
  { induction l as [|r l IH]; [simpl; lia|].
    rewrite fmap_cons, length_cons. cbn [foldr].
    assert (Hr : 0 <= leading_run_length (word_at m r) <= 32)
      by exact (run_of_ones_range (Z.to_nat PC_BITMAP_LENGTH) (word_at m r) 0).
    lia. }
  specialize (Hg (seqZ 0 NUM_PC_BITMAPS)). rewrite length_seqZ in Hg.
  change (Z.of_nat (Z.to_nat NUM_PC_BITMAPS)) with 64 in Hg. lia.
Qed.

Lemma leading_sum_bitmap (s : StringVal) :
  is_bitmap s -> leading_sum (ptr s) (sum_leading_runs (ptr s)).
Proof. intros (_ & _ & Hl & _). eexists. by apply sum_rows_spec. Qed.

Lemma leading_sum_unique (m : list Z) (s s' : Z) :
  leading_sum m s -> leading_sum m s' -> s = s'.
Proof. intros [rd H1] [rd' H2]. rewrite H1 in H2. by injection H2. Qed.

(** X19. Neither an update nor a merge lowers the sum of leading-run
    lengths from which the estimate is computed: the sum for the merged
    bitmap is at least the sum for either operand, the sum after an update is
    at least the sum before, and every sum lies between 0 and 2048. *)
Theorem sketch_sum_never_decreases {T : Type} `{AnyVal T} (Hash : T -> Z -> Z)
    (dchecks : bool) (input : T) (src dst : StringVal) :
  is_bitmap src -> is_bitmap dst ->
  exists merged updated s_src s_dst s_merged s_updated,
    PcMerge dchecks src dst = Ok merged /\
    PcUpdate Hash input dst = Ok updated /\
    leading_sum (ptr src) s_src /\ leading_sum (ptr dst) s_dst /\
    leading_sum (ptr merged) s_merged /\ leading_sum (ptr updated) s_updated /\
    0 <= s_src <= s_merged /\ 0 <= s_dst <= s_merged /\ s_merged <= 2048 /\
    s_dst <= s_updated <= 2048 /\
    (pcsa_input_ok Hash input ->
     exists updated' s_updated',
       PcsaUpdate Hash input dst = Ok updated' /\
       leading_sum (ptr updated') s_updated' /\ s_dst <= s_updated' <= 2048).
Proof.
  intros Hs Hd.
  destruct (PcMerge_bits dchecks src dst Hs Hd) as (m & Hm & Hbm & Hmb).
  destruct (PcUpdate_bits Hash input dst Hd) as (u & Hu & Hbu & Hub).
  exists m, u, (sum_leading_runs (ptr src)), (sum_leading_runs (ptr dst)),
    (sum_leading_runs (ptr m)), (sum_leading_runs (ptr u)).
  split; [done|]. split; [done|].
  do 4 (split; [by apply leading_sum_bitmap|]).
  pose proof (sum_leading_runs_range (ptr src)).
  pose proof (sum_leading_runs_range (ptr dst)).
  pose proof (sum_leading_runs_range (ptr m)).
  pose proof (sum_leading_runs_range (ptr u)).
  assert (sum_leading_runs (ptr src) <= sum_leading_runs (ptr m)).
  { apply sum_leading_runs_mono. intros r c Hr Hc Hb. rewrite Hmb, Hb by done.
    by rewrite orb_true_r. }
  assert (sum_leading_runs (ptr dst) <= sum_leading_runs (ptr m)).
  { apply sum_leading_runs_mono. intros r c Hr Hc Hb. by rewrite Hmb, Hb by done. }
  assert (sum_leading_runs (ptr dst) <= sum_leading_runs (ptr u)).
  { apply sum_leading_runs_mono. intros r c Hr Hc Hb. by rewrite Hub, Hb by done. }
  do 4 (split; [lia|]).
  intros Hx. destruct (PcsaUpdate_bits Hash input dst Hx Hd) as (u' & Hu' & Hbu' & Hub').
  exists u', (sum_leading_runs (ptr u')). split; [done|].
  split; [by apply leading_sum_bitmap|].
  pose proof (sum_leading_runs_range (ptr u')). split; [|lia].
  apply sum_leading_runs_mono. intros r c Hr Hc Hb. by rewrite Hub', Hb by done.
Qed.

(** An instance of [sketch_sum_never_decreases]. *)
Lemma sketch_sum_never_decreases_witness :
  exists merged s_src s_dst s_merged,
    PcMerge true bitmap_ones PcInit = Ok merged /\
    leading_sum (ptr bitmap_ones) s_src /\ leading_sum (ptr PcInit) s_dst /\
    leading_sum (ptr merged) s_merged /\
    0 <= s_src <= s_merged /\ 0 <= s_dst <= s_merged.
Proof.
  destruct (sketch_sum_never_decreases example_hash true (mkScalarVal false 100)
              bitmap_ones PcInit)
    as (m & u & s1 & s2 & s3 & s4 & H1 & _ & H3 & H4 & H5 & _ & H7 & H8 & _).
  - by repeat split.
  - apply PcInit_is_bitmap.
  - exists m, s1, s2, s3. exact (conj H1 (conj H3 (conj H4 (conj H5 (conj H7 H8))))).
Defined.

(** * An empty sketch *)

Lemma all_zero_bit (m : list Z) (r c : Z) :
  all_zero m = true -> bitmap_bit m r c = false.
Proof.
  intros Hz.
  assert (Hb : forall i, byte_at m i = 0).
  { intros i. unfold byte_at. destruct (m !! Z.to_nat i) as [b|] eqn:Hb; [|done].
    unfold all_zero in Hz. rewrite forallb_forall in Hz.
    apply list_elem_of_lookup_2, list_elem_of_In, Hz, Z.eqb_eq in Hb. by subst. }
  unfold bitmap_bit, word_at. rewrite !Hb. apply Z.bits_0.
Qed.

Section SketchEmpty.
Context {T : Type} `{AnyVal T}.
Variable update : T -> StringVal -> outcome StringVal.
Variable sets : T -> Z -> Z -> bool.
Variable valid : T -> Prop.
Hypothesis update_bits : forall x dst, valid x -> is_bitmap dst ->
  exists dst', update x dst = Ok dst' /\ is_bitmap dst' /\
    forall r c, 0 <= r < NUM_PC_BITMAPS -> 0 <= c < PC_BITMAP_LENGTH ->
      bitmap_bit (ptr dst') r c = bitmap_bit (ptr dst) r c || sets x r c.
Hypothesis sets_null : forall x r c, is_null x = true -> sets x r c = false.
Hypothesis sets_hit : forall x, valid x -> is_null x = false ->
  exists r c, 0 <= r < NUM_PC_BITMAPS /\ 0 <= c < PC_BITMAP_LENGTH /\ sets x r c = true.

Lemma run_empty_iff (inputs : list T) :
  Forall valid inputs ->
  exists dst', updates_o update PcInit inputs = Ok dst' /\ is_bitmap dst' /\
    (all_zero (ptr dst') = true <-> Forall (fun x => is_null x = true) inputs).
Proof.
  intros Hv.
  destruct (run_bits update sets valid update_bits inputs PcInit Hv PcInit_is_bitmap)
    as (d & Hrun & Hd & Hbits).
  exists d. split; [done|]. split; [done|]. split.
  - intros Hz. apply list.Forall_forall. intros x Hx.
    destruct (is_null x) eqn:Hn; [done|].
    rewrite list.Forall_forall in Hv.
    destruct (sets_hit x (Hv x Hx) Hn) as (r & c & Hr & Hc & Hs).
    pose proof (all_zero_bit (ptr d) r c Hz) as Hb. rewrite Hbits in Hb by done.
    apply orb_false_iff in Hb as [_ Hb].
    assert (He : existsb (fun x => sets x r c) inputs = true).
    { apply existsb_exists. exists x. split; [by apply list_elem_of_In|done]. }
    congruence.
  - intros Hnull.
    assert (d = PcInit) as ->; [|done].
    apply is_bitmap_ext; [done | apply PcInit_is_bitmap |].
    intros r c Hr Hc. rewrite Hbits by done. rewrite bitmap_bit_PcInit. simpl.
    destruct (existsb (fun x => sets x r c) inputs) eqn:He; [|done].
    apply existsb_exists in He as (x & Hx & Hs).
    rewrite list.Forall_forall in Hnull.
    apply list_elem_of_In in Hx. by rewrite (sets_null x r c (Hnull x Hx)) in Hs.
Qed.
End SketchEmpty.

(** X20. A sketch run from [PcInit] is still all zero exactly when every
    input was NULL; the estimate is then the literal 0, and comes from the
    leading-run sum as soon as one input was not NULL. This holds for the
    plain variant, and for the stochastic-averaging variant over inputs it
    has a defined call for. *)
Theorem sketch_empty_iff_no_input {T : Type} `{AnyVal T} (Hash : T -> Z -> Z)
    (dchecks : bool) (pow : float -> float -> float) (inputs : list T) :
  let estimate (m : list Z) :=
    (pow (int_to_double 2)
       (int_to_double (sum_leading_runs m) / int_to_double NUM_PC_BITMAPS)
     / PC_THETA)%float in
  (exists dst', updates_o (PcUpdate Hash) PcInit inputs = Ok dst' /\
     (all_zero (ptr dst') = true <-> Forall (fun x => is_null x = true) inputs) /\
     DistinceEstimateFinalize dchecks pow dst'
     = Ok (if all_zero (ptr dst') then 0%float else estimate (ptr dst'))) /\
  (Forall (pcsa_input_ok Hash) inputs ->
   exists dst', updates_o (PcsaUpdate Hash) PcInit inputs = Ok dst' /\
     (all_zero (ptr dst') = true <-> Forall (fun x => is_null x = true) inputs) /\
     DistinceEstimateFinalize dchecks pow dst'
     = Ok (if all_zero (ptr dst') then 0%float else estimate (ptr dst'))).
Proof.
  intros estimate. split.
  - destruct (run_empty_iff (PcUpdate Hash) (PcUpdate_sets Hash) (fun _ => True)
                (fun x d _ => PcUpdate_bits Hash x d)) with (inputs := inputs)
      as (d & Hrun & Hd & Hiff).
    + intros x r c Hn. unfold PcUpdate_sets. by rewrite Hn.
    + intros x _ Hn. exists 0. eexists. split; [done|]. split; [|by apply PcUpdate_sets_spec;
        split; [done|]; apply column_of_hash, to_uint32_range].
      apply column_of_hash, to_uint32_range.
    + by apply list.Forall_forall.
    + exists d. split; [done|]. split; [done|]. by apply DistinceEstimateFinalize_in.
  - intros Hv.
    destruct (run_empty_iff (PcsaUpdate Hash) (PcsaUpdate_sets Hash) (pcsa_input_ok Hash)
                (PcsaUpdate_bits Hash)) with (inputs := inputs)
      as (d & Hrun & Hd & Hiff); [| |done|].
    + intros x r c Hn. unfold PcsaUpdate_sets. by rewrite Hn.
    + intros x Hx Hn. destruct Hx as [Hx|Hx]; [congruence|].
      pose proof (to_uint32_range (Hash x 0)) as Hrange.
      destruct (PcsaUpdate_hash_in (ptr PcInit) (to_uint32 (Hash x 0)) eq_refl) as [Hcol _];
        [lia|].
      exists (to_uint32 (Hash x 0) mod NUM_PC_BITMAPS). eexists.
      split; [by apply Z.mod_pos_bound|]. split; [exact Hcol|].
      unfold PcsaUpdate_sets. by rewrite Hn, !Z.eqb_refl.
    + exists d. split; [done|]. split; [done|]. by apply DistinceEstimateFinalize_in.
Qed.

(** An instance of [sketch_empty_iff_no_input]. *)
Lemma sketch_empty_iff_no_input_witness :
  exists dst', updates_o (PcsaUpdate example_hash) PcInit sketch_inputs = Ok dst' /\
    (all_zero (ptr dst') = true <-> Forall (fun x => is_null x = true) sketch_inputs).
Proof.
  destruct (sketch_empty_iff_no_input example_hash true pow_whole sketch_inputs)
    as [_ Hpcsa].
  destruct (Hpcsa sketch_inputs_ok) as (d & H1 & H2 & _).
  exists d. exact (conj H1 H2).
Defined.

(** * Buffers shorter than a bitmap *)

Lemma for_range_undefined {S : Type} (P : S -> Prop) (body : Z -> S -> outcome S) :
  forall (n : nat) (i : Z) (s : S) (j : Z),
    P s -> i <= j < i + Z.of_nat n ->
    (forall k t, i <= k < j -> P t ->
                 body k t = Undefined \/ exists t', body k t = Ok t' /\ P t') ->
    (forall t, P t -> body j t = Undefined) ->
    for_range n i body s = Undefined.
Proof.
  induction n as [|n IH]; intros i s j HP Hj Hpre Hat; [lia|].
  cbn [for_range]. destruct (decide (i = j)) as [->|Hne].
  - by rewrite Hat.
  - destruct (Hpre i s) as [->|(t & -> & Ht)]; [lia|done|done|].
    cbn [mbind outcome_bind]. apply (IH (i + 1) t j); [done|lia| |done].
    intros k u Hk Hu. apply Hpre; [lia|done].
Qed.

Lemma PcUpdate_row_out (m : list Z) (h i : Z) :
  0 <= h -> Z.of_nat (length m) <= 4 * i + 3 -> PcUpdate_row h i m = Undefined.
Proof.
  intros Hh Hi. unfold PcUpdate_row, SetDistinctEstimateBit.
  destruct h as [|p|p]; [| |lia]; cbn [Z.eqb builtin_ctz determinate mbind outcome_bind];
    by rewrite load32_out.
Qed.

Lemma PcUpdate_short {T : Type} `{AnyVal T} (Hash : T -> Z -> Z) (input : T)
    (dst : StringVal) :
  (length (ptr dst) < 256)%nat -> is_null input = false ->
  PcUpdate Hash input dst = Undefined.
Proof.
  intros Hlen Hn. unfold PcUpdate. rewrite Hn. unfold for_loop.
  rewrite (for_range_undefined (fun t => length t = length (ptr dst)) _ _ 0 (ptr dst) 63);
    [done|done|by vm_compute| |].
  - intros k t Hk Ht. pose proof (to_uint32_range (Hash input k)) as Hh.
    destruct (Z.lt_ge_cases (4 * k + 3) (Z.of_nat (length t))).
    + right. rewrite PcUpdate_row_in by lia. eexists. split; [done|].
      by rewrite length_store32_bytes.
    + left. apply PcUpdate_row_out; lia.
  - intros t Ht. pose proof (to_uint32_range (Hash input 63)).
    apply PcUpdate_row_out; lia.
Qed.

Lemma PcMerge_byte_cases (src t : list Z) (k : Z) :
  PcMerge_byte src k t = Undefined \/
  exists t', PcMerge_byte src k t = Ok t' /\ length t' = length t.
Proof.
  unfold PcMerge_byte.
  destruct (load8_cases t k) as [->|[d ->]]; [by left|].
  destruct (load8_cases src k) as [->|[s ->]]; [by left|].
  cbn [mbind outcome_bind]. unfold store8.
  destruct (_ && _); [right|by left]. eexists. split; [done|]. by rewrite length_insert.
Qed.

Lemma PcMerge_loop_short (src dst : list Z) :
  (length src < 256)%nat \/ (length dst < 256)%nat ->
  for_loop 0 (NUM_PC_BITMAPS * PC_BITMAP_LENGTH / 8) (PcMerge_byte src) dst = Undefined.
Proof.
  intros Hshort. unfold for_loop.
  apply (for_range_undefined (fun t => length t = length dst) _ _ 0 dst 255);
    [done|by vm_compute| |].
  - intros k t _ Ht. rewrite <- Ht. apply PcMerge_byte_cases.
  - intros t Ht. unfold PcMerge_byte.
    destruct (decide (length dst < 256)%nat).
    + by rewrite (load8_out t) by lia.
    + destruct (load8_cases t 255) as [->|[d ->]]; [done|].
      cbn [mbind outcome_bind]. by rewrite (load8_out src) by lia.
Qed.

Lemma is_empty_loop_short (m : list Z) :
  forall (n : nat) (i : Z),
    0 <= i <= Z.of_nat (length m) -> Z.of_nat (length m) < i + Z.of_nat n ->
    is_empty_loop n i m = Ok false \/ is_empty_loop n i m = Undefined.
Proof.
  induction n as [|n IH]; intros i Hi Hlen.
  - lia.
  - cbn [is_empty_loop]. destruct (load8_cases m i) as [->|[b Hb]]; [by right|].
    rewrite Hb. cbn [mbind outcome_bind].
    destruct (negb (b =? 0)); [by left|].
    assert (i < Z.of_nat (length m)).
    { destruct (Z.lt_ge_cases i (Z.of_nat (length m))); [done|].
      by rewrite load8_out in Hb. }
    apply IH; lia.
Qed.

Lemma leading_ones_out (m : list Z) (i : Z) :
  Z.of_nat (length m) <= 4 * i + 3 -> leading_ones m i = Undefined.
Proof.
  intros Hi. unfold leading_ones.
  change (Z.to_nat (PC_BITMAP_LENGTH + 1)) with (Datatypes.S 32).
  cbn [leading_ones_loop]. unfold GetDistinctEstimateBit. by rewrite load32_out.
Qed.

Lemma sum_rows_short (m : list Z) : (length m < 256)%nat -> sum_rows m = Undefined.
Proof.
  intros Hlen. unfold sum_rows, for_loop.
  apply (for_range_undefined (fun _ => True) _ _ 0 (0, []) 63); [done|by vm_compute| |].
  - intros k t Hk _.
    destruct (Z.lt_ge_cases (4 * k + 3) (Z.of_nat (length m))).
    + right. rewrite leading_ones_spec by lia. cbn [mbind outcome_bind]. by eexists.
    + left. by rewrite leading_ones_out.
  - intros t _. by rewrite leading_ones_out by lia.
Qed.

Lemma dump_row_loop_out (m : list Z) (i : Z) (s : list Z) :
  Z.of_nat (length m) <= 4 * i + 3 ->
  for_loop 0 PC_BITMAP_LENGTH
    (fun j debugstr =>
       bit ← GetDistinctEstimateBit m i j;
       bit ← determinate bit;
       Ok (debugstr ++ print_bool bit)) s
  = Undefined.
Proof.
  intros Hi. unfold for_loop.
  change (Z.to_nat (PC_BITMAP_LENGTH - 0)) with (Datatypes.S 31).
  cbn [for_range]. unfold GetDistinctEstimateBit. by rewrite load32_out.
Qed.

Lemma DistinctEstimateBitMapToString_short (m : list Z) :
  (length m < 256)%nat -> DistinctEstimateBitMapToString m = Undefined.
Proof.
  intros Hlen. unfold DistinctEstimateBitMapToString. unfold for_loop at 1.
  rewrite (for_range_undefined (fun _ => True) _ _ 0 [] 63); [done|done|by vm_compute| |].
  - intros k t Hk _.
    destruct (Z.lt_ge_cases (4 * k + 3) (Z.of_nat (length m))).
    + right. rewrite dump_row_loop by lia. cbn [mbind outcome_bind]. by eexists.
    + left. by rewrite dump_row_loop_out.
  - intros t _. by rewrite dump_row_loop_out by lia.
Qed.

Lemma DistinceEstimateFinalize_short (dchecks : bool) (pow : float -> float -> float)
    (src : StringVal) :
  (length (ptr src) < 256)%nat ->
  DistinceEstimateFinalize dchecks pow src =
    if dchecks && (is_null src || negb (len src =? 256)) then DcheckFailure else Undefined.
Proof.
  intros Hlen. unfold DistinceEstimateFinalize, DCHECK.
  change (NUM_PC_BITMAPS * PC_BITMAP_LENGTH / 8) with 256.
  assert (Hrest :
    (is_empty ← is_empty_loop (Z.to_nat 256) 0 (ptr src);
     if is_empty : bool then Ok 0%float else
     st ← sum_rows (ptr src);
     Ok (pow (int_to_double 2) (int_to_double st.1 / int_to_double NUM_PC_BITMAPS)
         / PC_THETA)%float) = Undefined).
  { destruct (is_empty_loop_short (ptr src) (Z.to_nat 256) 0) as [->| ->]; [lia|lia| |done].
    cbn [mbind outcome_bind]. by rewrite sum_rows_short. }
  destruct dchecks, (is_null src), (len src =? 256);
    cbn [andb orb negb mbind outcome_bind]; try done; exact Hrest.
Qed.

(** X21. On a buffer whose allocation is shorter than 256 bytes no part of
    the sketch has a defined result: an update with a non-null input, a merge
    from it or into it, the estimate, both finalize calls and the debug dump
    all run past the end of the allocation. A build with DCHECKs aborts
    first where a checked null flag or length field gives the buffer away. *)
Theorem sketch_short_buffer {T : Type} `{AnyVal T} (Hash : T -> Z -> Z)
    (dchecks : bool) (pow : float -> float -> float) (input : T)
    (other short : StringVal) :
  (length (ptr short) < 256)%nat ->
  (is_null input = false -> PcUpdate Hash input short = Undefined) /\
  PcMerge dchecks other short =
    (if dchecks && (is_null other || is_null short || negb (len other =? 256))
     then DcheckFailure else Undefined) /\
  PcMerge dchecks short other =
    (if dchecks && (is_null short || is_null other || negb (len short =? 256))
     then DcheckFailure else Undefined) /\
  DistinceEstimateFinalize dchecks pow short =
    (if dchecks && (is_null short || negb (len short =? 256))
     then DcheckFailure else Undefined) /\
  PcFinalize dchecks pow short =
    (if dchecks && (is_null short || negb (len short =? 256))
     then DcheckFailure else Undefined) /\
  PcsaFinalize dchecks pow short =
    (if dchecks && (is_null short || negb (len short =? 256))
     then DcheckFailure else Undefined) /\
  DistinctEstimateBitMapToString (ptr short) = Undefined.
Proof.
  intros Hlen. split; [by apply PcUpdate_short|].
  split; [|split].
  - unfold PcMerge, DCHECK. rewrite PcMerge_loop_short by (by right).
    change (NUM_PC_BITMAPS * PC_BITMAP_LENGTH / 8) with 256.
    by destruct dchecks, (is_null other), (is_null short), (len other =? 256).
  - unfold PcMerge, DCHECK. rewrite PcMerge_loop_short by (by left).
    change (NUM_PC_BITMAPS * PC_BITMAP_LENGTH / 8) with 256.
    by destruct dchecks, (is_null other), (is_null short), (len short =? 256).
  - pose proof (DistinceEstimateFinalize_short dchecks pow short Hlen) as Hf.
    split; [done|]. unfold PcFinalize, PcsaFinalize. rewrite Hf.
    split; [|split]; [by destruct (_ && _)..|].
    by apply DistinctEstimateBitMapToString_short.
Qed.

(** An instance of [sketch_short_buffer]. *)
Lemma sketch_short_buffer_witness :
  PcMerge true PcInit bitmap100 = Undefined /\
  PcFinalize true pow_whole bitmap100 = Undefined.
Proof.
  destruct (sketch_short_buffer example_hash true pow_whole (mkScalarVal false 100)
              PcInit bitmap100) as (_ & H1 & _ & _ & H2 & _).
  - simpl. lia.
  - exact (conj H1 H2).
Defined.

(** * Counting *)

Lemma count_non_null_cons {T : Type} `{AnyVal T} (x : T) (inputs : list T) :
  count_non_null (x :: inputs) =
    if is_null x then count_non_null inputs else 1 + count_non_null inputs.
Proof.
  unfold count_non_null. rewrite filter_cons.
  destruct (is_null x) eqn:Hx.
  - by rewrite decide_False by done.
  - rewrite decide_True by done. rewrite length_cons. lia.
Qed.

Lemma count_non_null_app {T : Type} `{AnyVal T} (l k : list T) :
  count_non_null (l ++ k) = count_non_null l + count_non_null k.
Proof. unfold count_non_null. rewrite list.filter_app, length_app. lia. Qed.

Lemma count_non_null_range {T : Type} `{AnyVal T} (inputs : list T) :
  0 <= count_non_null inputs <= Z.of_nat (length inputs).
Proof.
  unfold count_non_null. pose proof (length_filter (fun x => is_null x = false) inputs). lia.
Qed.

Lemma to_int64_small (z : Z) : - 2 ^ 63 <= z < 2 ^ 63 -> to_int64 z = z.
Proof. intros Hz. unfold to_int64. rewrite Z.mod_small by lia. lia. Qed.

Lemma CountUpdate_step {T : Type} `{AnyVal T} (dchecks : bool) (x : T) (v : Z) :
  CountUpdate dchecks x (mkScalarVal false v)
  = Ok (mkScalarVal false (if is_null x then v else to_int64 (v + 1))).
Proof.
  unfold CountUpdate. change (negb (is_null (mkScalarVal false v))) with true.
  rewrite DCHECK_true. by destruct (is_null x).
Qed.

Lemma CountStarUpdate_step (dchecks : bool) (v : Z) :
  CountStarUpdate dchecks (mkScalarVal false v) = Ok (mkScalarVal false (to_int64 (v + 1))).
Proof.
  unfold CountStarUpdate. change (negb (is_null (mkScalarVal false v))) with true.
  by rewrite DCHECK_true.
Qed.

Lemma CountUpdate_release_null {T : Type} `{AnyVal T} (x : T) (d : BigIntVal) :
  exists d', CountUpdate false x d = Ok d' /\ is_null d' = is_null d.
Proof. unfold CountUpdate, DCHECK. cbn [andb mbind outcome_bind]. destruct (negb _); by eexists. Qed.

Lemma CountUpdate_run {T : Type} `{AnyVal T} (dchecks : bool) (inputs : list T) :
  forall v,
    updates_o (CountUpdate dchecks) (mkScalarVal false v) inputs
    = Ok (mkScalarVal false
            (if decide (count_non_null inputs = 0) then v
             else to_int64 (v + count_non_null inputs))).
Proof.
  induction inputs as [|x inputs IH]; intros v; [done|].
  rewrite updates_o_cons, count_non_null_cons, CountUpdate_step.
  cbn [mbind outcome_bind].
  pose proof (count_non_null_range inputs) as Hc.
  destruct (is_null x).
  - apply IH.
  - rewrite IH. do 2 f_equal. rewrite (decide_False (P := 1 + _ = 0)) by lia.
    destruct (decide (count_non_null inputs = 0)) as [->|_].
    + by rewrite Z.add_0_r.
    + rewrite to_int64_idemp_l. f_equal. lia.
Qed.

Lemma CountStarUpdate_run {I : Type} (dchecks : bool) (rows : list I) :
  forall v,
    updates_o (fun _ => CountStarUpdate dchecks) (mkScalarVal false v) rows
    = Ok (mkScalarVal false
            (if decide (rows = []) then v else to_int64 (v + Z.of_nat (length rows)))).
Proof.
  induction rows as [|x rows IH]; intros v; [done|].
  rewrite updates_o_cons, CountStarUpdate_step. cbn [mbind outcome_bind].
  rewrite IH. do 2 f_equal. rewrite (decide_False (P := x :: rows = [])) by done.
  destruct (decide (rows = [])) as [->|_].
  - done.
  - rewrite to_int64_idemp_l, length_cons. f_equal. lia.
Qed.

Lemma CountUpdate_from_zero {T : Type} `{AnyVal T} (dchecks : bool) (inputs : list T)
    (dst : BigIntVal) :
  updates_o (CountUpdate dchecks) (InitZero 0 dst) inputs
  = Ok (mkScalarVal false (to_int64 (count_non_null inputs))).
Proof.
  unfold InitZero. rewrite CountUpdate_run. destruct (decide _) as [->|_]; done.
Qed.

(** X22. From [InitZero], a run of [CountUpdate] returns the number of
    inputs that are not NULL and a run of [CountStarUpdate] the number of
    rows, both as 64-bit two's complement integers and, below 2^63 rows,
    exactly; neither ever returns NULL. *)
Theorem Count_counts_rows {T : Type} `{AnyVal T} (dchecks : bool) (inputs : list T)
    (dst : BigIntVal) :
  updates_o (CountUpdate dchecks) (InitZero 0 dst) inputs
  = Ok (mkScalarVal false (to_int64 (count_non_null inputs))) /\
  updates_o (fun _ => CountStarUpdate dchecks) (InitZero 0 dst) inputs
  = Ok (mkScalarVal false (to_int64 (Z.of_nat (length inputs)))) /\
  (Z.of_nat (length inputs) < 2 ^ 63 ->
   to_int64 (count_non_null inputs) = count_non_null inputs /\
   to_int64 (Z.of_nat (length inputs)) = Z.of_nat (length inputs)).
Proof.
  unfold InitZero. split; [|split].
  - apply (CountUpdate_from_zero dchecks inputs dst).
  - rewrite CountStarUpdate_run. destruct (decide _) as [->|_]; done.
  - intros Hn. pose proof (count_non_null_range inputs).
    split; apply to_int64_small; lia.
Qed.

(** An instance of [Count_counts_rows]. *)
Lemma Count_counts_rows_witness :
  updates_o (CountUpdate true) (InitZero 0 (mkScalarVal true 0)) scenario_inputs
  = Ok (mkScalarVal false 3) /\
  updates_o (fun _ : ScalarVal Z => CountStarUpdate true) (InitZero 0 (mkScalarVal true 0))
    scenario_inputs
  = Ok (mkScalarVal false 4).
Proof.
  destruct (Count_counts_rows true scenario_inputs (mkScalarVal true 0)) as (H1 & H2 & _).
  exact (conj H1 H2).
Defined.

(** X23. Counts of partitions add up: summing the counts of the
    partitions with [Sum] on [BigIntVal], from [InitZero], returns the count
    over all the inputs. *)
Theorem Count_partitions_sum {T : Type} `{AnyVal T} (dchecks : bool)
    (parts : list (list T)) (dst : BigIntVal) :
  exists partials,
    collect (updates_o (CountUpdate dchecks) (InitZero 0 dst)) parts = Ok partials /\
    Ok (updates Sum_BigIntVal (InitZero 0 dst) partials)
    = updates_o (CountUpdate dchecks) (InitZero 0 dst) (concat parts).
Proof.
  exists ((fun part => mkScalarVal false (to_int64 (count_non_null part))) <$> parts).
  split.
  - induction parts as [|part parts IH]; [done|].
    cbn [collect]. rewrite CountUpdate_from_zero.
    cbn [mbind outcome_bind]. rewrite IH. done.
  - rewrite CountUpdate_from_zero. f_equal.
    unfold InitZero. rewrite Sum_BigIntVal_updates_value by done. f_equal.
    rewrite Z.add_0_l.
    assert (Hnn : non_null_vals
              ((fun part => mkScalarVal false (to_int64 (count_non_null part))) <$> parts)
            = to_int64 <$> (count_non_null <$> parts)).
    { induction parts as [|part parts IH]; [done|].
      rewrite !fmap_cons, non_null_vals_cons. cbn [is_null ScalarVal_AnyVal scalar_is_null val].
      by rewrite IH. }
    rewrite Hnn, to_int64_sum_Z_fmap. f_equal. clear Hnn.
    induction parts as [|part parts IH]; [done|].
    rewrite fmap_cons. cbn [concat]. rewrite count_non_null_app.
    unfold sum_Z in *. cbn [foldr]. by rewrite IH.
Qed.

(** X24. A counter that is NULL when an update arrives: a build with
    DCHECKs aborts on the first call; a build without them goes on and the
    counter stays NULL whatever the inputs. *)
Theorem Count_null_destination {T : Type} `{AnyVal T} (src : T) (inputs : list T)
    (dst : BigIntVal) :
  CountUpdate true src (InitNull dst) = DcheckFailure /\
  CountStarUpdate true (InitNull dst) = DcheckFailure /\
  updates_o (CountUpdate true) (InitNull dst) (src :: inputs) = DcheckFailure /\
  exists r, updates_o (CountUpdate false) (InitNull dst) inputs = Ok r /\ is_null r = true.
Proof.
  split; [done|]. split; [done|]. split.
  - rewrite updates_o_cons. cbn [mbind outcome_bind CountUpdate DCHECK].
    done.
  - generalize (InitNull dst), (eq_refl : is_null (InitNull dst) = true).
    induction inputs as [|x inputs IH]; intros d Hd; [by exists d|].
    rewrite updates_o_cons.
    destruct (CountUpdate_release_null x d) as (d' & -> & Hd').
    cbn [mbind outcome_bind]. apply IH. by rewrite Hd'.
Qed.

(** * Growth of the scratch buffer *)

Lemma quot2_range (n : Z) : 0 <= n -> 2 * Z.quot n 2 <= n <= 2 * Z.quot n 2 + 1.
Proof.
  intros Hn. rewrite Z.quot_div_nonneg by lia.
  pose proof (Z.div_mod n 2 ltac:(lia)). pose proof (Z.mod_pos_bound n 2 ltac:(lia)). lia.
Qed.

Lemma ResizeBufferTo_grow (dchecks : bool) (s : StringValScratch) (n : Z) (copy : bool) :
  scratch_wf s -> buffer_len s < n -> growable n ->
  exists b,
    ResizeBufferTo dchecks s n copy
    = Ok {| buffer_len := n + Z.quot n 2; str_len := str_len s; buffer := Some b |} /\
    Z.of_nat (length b) = n + Z.quot n 2 /\
    (copy = true -> take (Z.to_nat (str_len s)) b = scratch_text s).
Proof.
  intros Hwf Hlt Hgrow. pose proof (scratch_wf_nonneg s Hwf) as Hs.
  pose proof (quot2_range n ltac:(lia)) as Hq.
  unfold ResizeBufferTo.
  destruct (Z.leb_spec n (buffer_len s)) as [Hle|_]; [lia|].
  unfold DCHECK. destruct (Z.ltb_spec 0 n) as [_|]; [|lia].
  rewrite andb_false_r. cbn [mbind outcome_bind negb].
  unfold growable in Hgrow.
  destruct (Z.ltb_spec (n + Z.quot n 2) (2 ^ 31)) as [_|]; [|lia].
  cbn [mbind outcome_bind].
  assert (length (Allocate (n + Z.quot n 2)) = Z.to_nat (n + Z.quot n 2)) as Hal.
  { unfold Allocate. apply length_replicate. }
  destruct copy.
  - unfold memcpy_to. destruct (Z.eqb_spec (str_len s) 0) as [Hz|Hnz].
    + cbn [mbind outcome_bind]. eexists. split; [done|]. split; [rewrite Hal; lia|].
      intros _. unfold scratch_text, StringValue. rewrite Hz. by rewrite !take_0.
    + assert (exists b, buffer s = Some b /\ Z.of_nat (length b) = buffer_len s)
        as (b & Hb & Hbl).
      { unfold scratch_wf in Hwf. destruct (buffer s) as [b|]; [|lia].
        exists b. split; [done|lia]. }
      rewrite Hb, ?bytes_of_Some.
      rewrite memcpy_in by lia. cbn [mbind outcome_bind].
      eexists. split; [done|].
      rewrite !length_app, !length_take, length_drop, Hal.
      split; [lia|]. intros _.
      unfold scratch_text, StringValue. rewrite Hb, bytes_of_Some.
      change (Z.to_nat 0) with 0%nat. rewrite take_0. cbn [app].
      rewrite take_app_le by (rewrite length_take; lia).
      rewrite take_take. f_equal. lia.
  - cbn [mbind outcome_bind]. eexists. split; [done|]. split; [rewrite Hal; lia|done].
Qed.

(** X25. [ResizeBufferTo] on a consistent scratch: a length the buffer
    already holds changes nothing; a larger one gives a buffer of exactly one
    and a half times that length (rounded down), which starts with the
    current string when [copy] is set; and where that size is no [int] the
    call is undefined. *)
Theorem ResizeBufferTo_capacity (dchecks : bool) (s : StringValScratch) (new_len : Z)
    (copy : bool) :
  scratch_wf s ->
  (new_len <= buffer_len s -> ResizeBufferTo dchecks s new_len copy = Ok s) /\
  (buffer_len s < new_len -> growable new_len ->
   exists b,
     ResizeBufferTo dchecks s new_len copy
     = Ok {| buffer_len := new_len + Z.quot new_len 2; str_len := str_len s;
             buffer := Some b |} /\
     Z.of_nat (length b) = new_len + Z.quot new_len 2 /\
     (copy = true -> take (Z.to_nat (str_len s)) b = scratch_text s)) /\
  (buffer_len s < new_len -> ~ growable new_len ->
   ResizeBufferTo dchecks s new_len copy = Undefined).
Proof.
  intros Hwf. split; [|split].
  - intros Hle. unfold ResizeBufferTo. by destruct (Z.leb_spec new_len (buffer_len s)); [|lia].
  - by apply ResizeBufferTo_grow.
  - intros Hlt Hng. pose proof (scratch_wf_nonneg s Hwf) as Hs.
    unfold ResizeBufferTo, growable in *.
    destruct (Z.leb_spec new_len (buffer_len s)) as [Hle|_]; [lia|].
    unfold DCHECK. destruct (Z.ltb_spec 0 new_len) as [_|]; [|lia].
    rewrite andb_false_r. cbn [mbind outcome_bind negb].
    by destruct (Z.ltb_spec (new_len + Z.quot new_len 2) (2 ^ 31)) as [|_]; [lia|].
Qed.

(** An instance of [ResizeBufferTo_capacity]. *)
Lemma ResizeBufferTo_capacity_witness :
  exists b,
    ResizeBufferTo true new_StringValScratch 5 true
    = Ok {| buffer_len := 7; str_len := 0; buffer := Some b |} /\
    Z.of_nat (length b) = 7.
Proof.
  destruct (ResizeBufferTo_capacity true new_StringValScratch 5 true) as (_ & H & _).
  - by split.
  - destruct H as (b & H1 & H2 & _); [simpl; lia | reflexivity |].
    exists b. exact (conj H1 H2).
Defined.

Lemma Append_capacity (dchecks : bool) (s s' : StringValScratch) (sv : StringVal) :
  StringValScratch_Append dchecks s sv = Ok s' ->
  (len sv = 0 -> s' = s) /\
  (len sv <> 0 ->
   str_len s' = str_len s + len sv /\
   buffer_len s' =
     if buffer_len s <? str_len s + len sv
     then (str_len s + len sv) + Z.quot (str_len s + len sv) 2
     else buffer_len s).
Proof.
  unfold StringValScratch_Append. intros Heq.
  destruct (Z.eqb_spec (len sv) 0) as [Hz|Hnz].
  { split; [|done]. intros _. by injection Heq. }
  split; [done|]. intros _.
  destruct (Z.ltb_spec (buffer_len s) (str_len s + len sv)) as [Hlt|Hge].
  - unfold ResizeBufferTo in Heq.
    destruct (Z.leb_spec (str_len s + len sv) (buffer_len s)) as [|_]; [lia|].
    destruct (DCHECK dchecks _); cbn [mbind outcome_bind] in Heq; try done.
    destruct (_ <? 2 ^ 31); cbn [mbind outcome_bind] in Heq; try done.
    destruct (memcpy_to (Some _) 0 _ _); cbn [mbind outcome_bind] in Heq; try done.
    cbn [buffer buffer_len str_len] in Heq.
    destruct (memcpy_to _ _ _ _); cbn [mbind outcome_bind] in Heq; try done.
    injection Heq as <-. done.
  - cbn [mbind outcome_bind] in Heq.
    destruct (memcpy_to _ _ _ _); cbn [mbind outcome_bind] in Heq; try done.
    injection Heq as <-. done.
Qed.

(** The bounds kept along a run of appends, [r] being the number of
    reallocations so far. *)
Lemma growth_step (A B cap n : Z) :
  0 < B -> 0 <= cap < n -> A <= B * (cap + 1) ->
  3 * A <= 2 * B * (n + Z.quot n 2 + 1) /\ 2 * (3 * A) <= 3 * (2 * B) * n.
Proof.
  intros HB Hn HA. pose proof (quot2_range n ltac:(lia)) as Hq.
  assert (B * (cap + 1) <= B * n) by (apply Z.mul_le_mono_nonneg_l; lia).
  assert (B * (3 * n) <= B * (2 * (n + Z.quot n 2 + 1)))
    by (apply Z.mul_le_mono_nonneg_l; lia).
  lia.
Qed.

Lemma append_states_inv (dchecks : bool) (svs : list StringVal) :
  forall (s : StringValScratch) (r : nat),
    scratch_wf s -> Forall sv_ok svs ->
    growable (str_len s + Z.of_nat (length (all_bytes svs))) ->
    buffer_len s <= str_len s + Z.quot (str_len s) 2 ->
    3 ^ Z.of_nat r <= 2 ^ Z.of_nat r * (buffer_len s + 1) ->
    2 * 3 ^ Z.of_nat r <= 3 * 2 ^ Z.of_nat r * Z.max 1 (str_len s) ->
    exists rest final,
      append_states dchecks s svs = Ok (s :: rest) /\
      list.last (s :: rest) = Some final /\
      scratch_wf final /\
      scratch_text final = scratch_text s ++ all_bytes svs /\
      buffer_len final <= str_len final + Z.quot (str_len final) 2 /\
      2 * 3 ^ Z.of_nat (r + reallocations (s :: rest))
      <= 3 * 2 ^ Z.of_nat (r + reallocations (s :: rest)) * Z.max 1 (str_len final).
Proof.
  induction svs as [|sv svs IH]; intros s r Hwf Hok Hgrow Hcap HA HL.
  - exists [], s. cbn [append_states list.last reallocations all_bytes fmap list_fmap concat].
    rewrite app_nil_r, Nat.add_0_r. done.
  - apply Forall_cons_1 in Hok as [Hsv Hok].
    pose proof (scratch_wf_nonneg s Hwf) as Hs.
    unfold all_bytes in Hgrow. rewrite fmap_cons in Hgrow. cbn [concat] in Hgrow.
    rewrite length_app, Nat2Z.inj_add, length_sv_bytes in Hgrow by done.
    fold (all_bytes svs) in Hgrow. destruct Hsv as [Hl0 Hl1].
    destruct (StringValScratch_Append_ok dchecks s sv Hwf (conj Hl0 Hl1))
      as (s1 & Happ & Hwf1 & Htext1 & _).
    { eapply growable_le; [|exact Hgrow]. lia. }
    destruct (Append_capacity dchecks s s1 sv Happ) as [Hsame Hgrew].
    pose proof (Z.pow_pos_nonneg 2 (Z.of_nat r) ltac:(lia) ltac:(lia)) as HB.
    assert (Hstep : exists k : nat,
               (if (buffer_len s =? buffer_len s1)%Z then 0 else 1)%nat = k /\
               str_len s1 = str_len s + len sv /\
               buffer_len s1 <= str_len s1 + Z.quot (str_len s1) 2 /\
               3 ^ Z.of_nat (r + k) <= 2 ^ Z.of_nat (r + k) * (buffer_len s1 + 1) /\
               2 * 3 ^ Z.of_nat (r + k)
               <= 3 * 2 ^ Z.of_nat (r + k) * Z.max 1 (str_len s1)).
    { destruct (Z.eq_dec (len sv) 0) as [Hz|Hnz].
      - rewrite (Hsame Hz). rewrite Z.eqb_refl. exists 0%nat.
        rewrite Nat.add_0_r, Hz, Z.add_0_r. done.
      - destruct (Hgrew Hnz) as [Hstr Hbuf].
        destruct (Z.ltb_spec (buffer_len s) (str_len s + len sv)) as [Hlt|Hge].
        + exists 1%nat.
          pose proof (quot2_range (str_len s + len sv) ltac:(lia)) as Hq.
          split; [by destruct (Z.eqb_spec (buffer_len s) (buffer_len s1)); [lia|]|].
          split; [done|]. rewrite Hstr, Hbuf. split; [lia|].
          replace (Z.of_nat (r + 1)) with (Z.succ (Z.of_nat r)) by lia.
          rewrite !Z.pow_succ_r by lia.
          destruct (growth_step (3 ^ Z.of_nat r) (2 ^ Z.of_nat r) (buffer_len s)
                      (str_len s + len sv)) as [G1 G2]; [done|lia|done|].
          split; [lia|]. rewrite Z.max_r by lia. lia.
        + exists 0%nat. rewrite Hbuf, Z.eqb_refl, Nat.add_0_r, Hstr.
          split; [done|]. split; [done|].
          pose proof (Z.quot_le_mono (str_len s) (str_len s + len sv) 2 ltac:(lia) ltac:(lia)).
          split; [lia|]. split; [done|].
          assert (3 * 2 ^ Z.of_nat r * Z.max 1 (str_len s)
                  <= 3 * 2 ^ Z.of_nat r * Z.max 1 (str_len s + len sv))
            by (apply Z.mul_le_mono_nonneg_l; lia).
          lia. }
    destruct Hstep as (k & Hk & Hstr & Hcap1 & HA1 & HL1).
    destruct (IH s1 (r + k)%nat Hwf1 Hok) as (rest & final & Hrun & Hlast & Hwff & Htextf
                                               & Hcapf & HLf); try done.
    { rewrite Hstr. eapply growable_le; [|exact Hgrow].
      pose proof (length_scratch_text s Hwf). lia. }
    exists (s1 :: rest), final.
    cbn [append_states]. rewrite Happ. cbn [mbind outcome_bind]. rewrite Hrun.
    cbn [mbind outcome_bind]. split; [done|].
    split; [by rewrite last_cons, Hlast|]. split; [done|].
    split.
    { rewrite Htextf, Htext1. unfold all_bytes. rewrite fmap_cons. cbn [concat].
      by rewrite app_assoc. }
    split; [done|].
    replace (r + reallocations (s :: s1 :: rest))%nat
      with (r + k + reallocations (s1 :: rest))%nat; [done|].
    change (reallocations (s :: s1 :: rest))
      with ((if (buffer_len s =? buffer_len s1)%Z then 0 else 1)
            + reallocations (s1 :: rest))%nat.
    rewrite Hk. lia.
Qed.

(** X26. Appending to a fresh scratch is amortised: after any run of
    [Append] calls the scratch holds the appended bytes in order, its
    capacity is at most one and a half times the length of the string, and
    the number [r] of calls that allocated a new buffer is logarithmic in
    that length [n]: (3/2)^r <= (3/2) * max(1, n). *)
Theorem Append_amortized (dchecks : bool) (svs : list StringVal) :
  Forall sv_ok svs -> growable (Z.of_nat (length (all_bytes svs))) ->
  exists states final,
    append_states dchecks new_StringValScratch svs = Ok states /\
    list.last states = Some final /\
    scratch_text final = all_bytes svs /\
    str_len final = Z.of_nat (length (all_bytes svs)) /\
    buffer_len final <= str_len final + Z.quot (str_len final) 2 /\
    2 * 3 ^ Z.of_nat (reallocations states)
    <= 3 * 2 ^ Z.of_nat (reallocations states) * Z.max 1 (str_len final).
Proof.
  intros Hok Hgrow.
  destruct (append_states_inv dchecks svs new_StringValScratch 0) as
    (rest & final & Hrun & Hlast & Hwf & Htext & Hcap & HL); try done.
  exists (new_StringValScratch :: rest), final.
  split; [done|]. split; [done|]. split; [done|].
  split; [|done]. by rewrite <- (length_scratch_text final Hwf), Htext.
Qed.

Lemma ten_bytes_ok : Forall sv_ok ten_bytes.
Proof. apply Forall_replicate. unfold sv_ok. simpl. lia. Qed.

(** An instance of [Append_amortized]. *)
Lemma Append_amortized_witness :
  exists states final,
    append_states true new_StringValScratch ten_bytes = Ok states /\
    list.last states = Some final /\
    scratch_text final = all_bytes ten_bytes /\
    str_len final = 10.
Proof.
  destruct (Append_amortized true ten_bytes) as (states & final & H1 & H2 & H3 & H4 & _).
  - apply ten_bytes_ok.
  - reflexivity.
  - exists states, final. exact (conj H1 (conj H2 (conj H3 H4))).
Defined.

(** * The text of the estimate is its decimal notation *)

Lemma decimal_value_snoc (l : list Z) (d : Z) :
  decimal_value (l ++ [d]) = 10 * decimal_value l + (d - 48).
Proof. unfold decimal_value. by rewrite foldl_app. Qed.

Lemma digits_rev_value (fuel : nat) :
  forall n, 0 <= n < 10 ^ Z.of_nat fuel ->
    decimal_value (reverse (digits_rev fuel n)) = n /\
    Forall is_digit (digits_rev fuel n).
Proof.
  induction fuel as [|fuel IH]; intros n Hn.
  - change (10 ^ Z.of_nat 0) with 1 in Hn. assert (n = 0) as -> by lia. by split.
  - cbn [digits_rev].
    replace (Z.of_nat (Datatypes.S fuel)) with (Z.succ (Z.of_nat fuel)) in Hn by lia.
    rewrite Z.pow_succ_r in Hn by lia.
    pose proof (Z.div_mod n 10 ltac:(lia)) as Hdm.
    pose proof (Z.mod_pos_bound n 10 ltac:(lia)) as Hmod.
    rewrite reverse_cons, decimal_value_snoc.
    destruct (Z.eqb_spec (n / 10) 0) as [Hz|Hnz].
    + split; [cbn; lia|]. apply Forall_cons_2; [unfold is_digit; lia|done].
    + destruct (IH (n / 10)) as [Hv Hd].
      { split; [apply Z.div_pos; lia|]. apply Z.div_lt_upper_bound; lia. }
      rewrite Hv. split; [lia|]. apply Forall_cons_2; [unfold is_digit; lia|done].
Qed.

Lemma digits_rev_head (fuel : nat) :
  forall n, 0 < n < 10 ^ Z.of_nat fuel ->
    exists d ds, reverse (digits_rev fuel n) = d :: ds /\ 49 <= d <= 57.
Proof.
  induction fuel as [|fuel IH]; intros n Hn.
  - change (10 ^ Z.of_nat 0) with 1 in Hn. lia.
  - cbn [digits_rev].
    replace (Z.of_nat (Datatypes.S fuel)) with (Z.succ (Z.of_nat fuel)) in Hn by lia.
    rewrite Z.pow_succ_r in Hn by lia.
    pose proof (Z.div_mod n 10 ltac:(lia)) as Hdm.
    pose proof (Z.mod_pos_bound n 10 ltac:(lia)) as Hmod.
    rewrite reverse_cons.
    destruct (Z.eqb_spec (n / 10) 0) as [Hz|Hnz].
    + exists (48 + n mod 10), []. split; [done|lia].
    + destruct (IH (n / 10)) as (d & ds & -> & Hd).
      { pose proof (Z.div_pos n 10 ltac:(lia) ltac:(lia)).
        split; [lia|]. apply Z.div_lt_upper_bound; lia. }
      exists d, (ds ++ [48 + n mod 10]). by split.
Qed.

Lemma int64_to_string_parse (z : Z) :
  - 2 ^ 63 <= z < 2 ^ 63 -> parse_int64 (int64_to_string z) = z.
Proof.
  intros Hz. unfold int64_to_string.
  destruct (Z.ltb_spec z 0) as [Hneg|Hpos].
  - cbn [parse_int64]. destruct (digits_rev_value 19 (- z)) as [-> _]; lia.
  - destruct (Z.eq_dec z 0) as [->|Hnz]; [done|].
    destruct (digits_rev_head 19 z) as (d & ds & Hrev & Hd); [lia|].
    pose proof (digits_rev_value 19 z ltac:(lia)) as [Hv _].
    rewrite Hrev in *. unfold parse_int64.
    destruct d as [|p|p]; try lia.
    assert (p <> 45%positive) by lia.
    do 6 (destruct p as [p|p|]; try done).
Qed.

Lemma double_to_int64_range (f : float) (r : Z) :
  double_to_int64 f = Some r -> - 2 ^ 63 <= r < 2 ^ 63.
Proof.
  unfold double_to_int64. destruct (Prim2SF f) as [s| | |s m e]; try done.
  - intros [= <-]. lia.
  - set (v := if s then _ else _).
    destruct (Z.leb_spec (- 2 ^ 63) v), (Z.ltb_spec v (2 ^ 63)); simpl; try done.
    intros [= <-]. lia.
Qed.

(** X27. What the finalize calls return is the decimal notation of the
    truncated estimate: for a 256-byte bitmap, whenever [PcFinalize] or
    [PcsaFinalize] returns a value, reading the first [len] bytes of it as a
    decimal integer gives the estimate (times 64 for the stochastic
    variant) truncated to an [int64_t]; the text has between 1 and 20
    characters; and where the truncation has no value the call is
    undefined. *)
Theorem Finalize_text_is_decimal (dchecks : bool) (pow : float -> float -> float)
    (src : StringVal) :
  is_bitmap src ->
  exists estimate,
    DistinceEstimateFinalize dchecks pow src = Ok estimate /\
    (forall dst, PcFinalize dchecks pow src = Ok dst ->
       double_to_int64 estimate = Some (parse_int64 (sv_bytes dst)) /\ 1 <= len dst <= 20) /\
    (forall dst, PcsaFinalize dchecks pow src = Ok dst ->
       double_to_int64 (estimate * int_to_double NUM_PC_BITMAPS)
       = Some (parse_int64 (sv_bytes dst)) /\ 1 <= len dst <= 20) /\
    (double_to_int64 estimate = None -> PcFinalize dchecks pow src = Undefined) /\
    (double_to_int64 (estimate * int_to_double NUM_PC_BITMAPS) = None ->
     PcsaFinalize dchecks pow src = Undefined).
Proof.
  intros Hb. pose proof Hb as (_ & _ & Hlen & _).
  eexists. split; [by apply DistinceEstimateFinalize_in|].
  set (e := if all_zero (ptr src) then _ else _).
  assert (Htext : forall f dst, finalize_text src f = Ok dst ->
            double_to_int64 f = Some (parse_int64 (sv_bytes dst)) /\ 1 <= len dst <= 20).
  { intros f dst Hf. destruct (double_to_int64 f) as [r|] eqn:Hr.
    - rewrite (finalize_text_in src f r) in Hf by (done || lia).
      injection Hf as <-. pose proof (length_int64_to_string r).
      unfold sv_bytes, StringValue, estimate_text. cbn [ptr len].
      rewrite Nat2Z.id, take_app_length.
      rewrite int64_to_string_parse by (by eapply double_to_int64_range).
      split; [done|lia].
    - unfold finalize_text in Hf. by rewrite Hr in Hf. }
  unfold PcFinalize, PcsaFinalize.
  rewrite (DistinceEstimateFinalize_in dchecks pow src Hb). fold e.
  cbn [mbind outcome_bind].
  split; [by apply Htext|]. split; [by apply Htext|].
  split; intros Hn; unfold finalize_text; by rewrite Hn.
Qed.

(** An instance of [Finalize_text_is_decimal]. *)
Lemma Finalize_text_is_decimal_witness :
  exists estimate,
    DistinceEstimateFinalize true pow_whole bitmap_ones = Ok estimate /\
    (forall dst, PcsaFinalize true pow_whole bitmap_ones = Ok dst ->
       double_to_int64 (estimate * int_to_double NUM_PC_BITMAPS)
       = Some (parse_int64 (sv_bytes dst)) /\ 1 <= len dst <= 20).
Proof.
  destruct (Finalize_text_is_decimal true pow_whole bitmap_ones) as (e & H1 & _ & H3 & _).
  - by repeat split.
  - exists e. exact (conj H1 H3).
Defined.

(** * The loop that counts leading ones *)

(** X28. For a row inside the buffer, the loop that counts the leading
    ones ends, within 33 tests of its condition: it returns a count between 0
    and 32 such that every bit below the count reads as set and, when the
    count is below 32, the bit at the count reads as unset; the bit indices
    it reads are 0 up to the count, in order. *)
Theorem leading_ones_counts_run (bitmap : list Z) (i : Z) :
  0 <= i -> 4 * i + 3 < Z.of_nat (length bitmap) ->
  exists count,
    leading_ones bitmap i = Ok (count, seqZ 0 (count + 1)) /\
    0 <= count <= PC_BITMAP_LENGTH /\
    (forall c, 0 <= c < count -> GetDistinctEstimateBit bitmap i c = Ok (Some true)) /\
    (count < PC_BITMAP_LENGTH -> GetDistinctEstimateBit bitmap i count = Ok (Some false)).
Proof.
  intros Hi Hlen. exists (leading_run_length (word_at bitmap i)).
  split; [by apply leading_ones_spec|].
  unfold leading_run_length.
  pose proof (run_of_ones_range (Z.to_nat PC_BITMAP_LENGTH) (word_at bitmap i) 0) as Hr.
  pose proof (run_of_ones_spec (Z.to_nat PC_BITMAP_LENGTH) (word_at bitmap i) 0) as [Hs Hu].
  change (Z.of_nat (Z.to_nat PC_BITMAP_LENGTH)) with PC_BITMAP_LENGTH in *.
  set (count := run_of_ones _ _ _) in *. unfold PC_BITMAP_LENGTH in *.
  split; [done|]. split.
  - intros c Hc. rewrite GetDistinctEstimateBit_in by lia.
    unfold bitmap_bit. by rewrite Hs by lia.
  - intros Hlt. rewrite GetDistinctEstimateBit_in by lia.
    unfold bitmap_bit. specialize (Hu Hlt). by rewrite Z.add_0_l in Hu; rewrite Hu.
Qed.

(** An instance of [leading_ones_counts_run]. *)
Lemma leading_ones_counts_run_witness :
  exists count,
    leading_ones (ptr bitmap_ones) 0 = Ok (count, seqZ 0 (count + 1)) /\
    0 <= count <= PC_BITMAP_LENGTH.
Proof.
  destruct (leading_ones_counts_run (ptr bitmap_ones) 0) as (count & H1 & H2 & _);
    [lia | simpl; lia |].
  exists count. exact (conj H1 H2).
Defined.

(** * The checks on the scratch slot *)

Lemma no_abort_memcpy_to (dst : option (list Z)) (off : Z) (src : list Z) (n : Z) :
  no_abort (memcpy_to dst off src n).
Proof.
  unfold memcpy_to, memcpy, no_abort. destruct (n =? 0); [done|].
  destruct dst; [|done]. by destruct (_ && _).
Qed.

Lemma ResizeBufferTo_no_abort (dchecks : bool) (s : StringValScratch) (n : Z) (copy : bool) :
  0 <= buffer_len s -> no_abort (ResizeBufferTo dchecks s n copy).
Proof.
  intros Hs. unfold ResizeBufferTo.
  destruct (Z.leb_spec n (buffer_len s)); [done|].
  unfold DCHECK. destruct (Z.ltb_spec 0 n); [|lia].
  rewrite andb_false_r. cbn [mbind outcome_bind].
  destruct (_ <? 2 ^ 31); [|done]. cbn [mbind outcome_bind].
  apply no_abort_bind; [|done]. destruct copy; [apply no_abort_memcpy_to|done].
Qed.

Lemma ResizeBufferTo_nonneg (dchecks : bool) (s s' : StringValScratch) (n : Z) (copy : bool) :
  0 <= buffer_len s -> ResizeBufferTo dchecks s n copy = Ok s' -> 0 <= buffer_len s'.
Proof.
  intros Hs. unfold ResizeBufferTo.
  destruct (Z.leb_spec n (buffer_len s)); [by intros [= <-]|].
  destruct (DCHECK _ _); [|done..]. cbn [mbind outcome_bind].
  destruct (_ <? 2 ^ 31); [|done]. cbn [mbind outcome_bind].
  destruct (if copy then _ else _); [|done..]. cbn [mbind outcome_bind].
  intros [= <-]. cbn [buffer_len]. pose proof (quot2_range n ltac:(lia)). lia.
Qed.

Lemma Set_no_abort (dchecks : bool) (s : StringValScratch) (sv : StringVal) :
  0 <= buffer_len s -> no_abort (StringValScratch_Set dchecks s sv).
Proof.
  intros Hs. unfold StringValScratch_Set.
  apply no_abort_bind; [by apply ResizeBufferTo_no_abort|].
  intros s1. apply no_abort_bind; [apply no_abort_memcpy_to|done].
Qed.

Lemma Append_no_abort (dchecks : bool) (s : StringValScratch) (sv : StringVal) :
  0 <= buffer_len s -> no_abort (StringValScratch_Append dchecks s sv).
Proof.
  intros Hs. unfold StringValScratch_Append. destruct (len sv =? 0); [done|].
  apply no_abort_bind.
  - destruct (_ <? _); [by apply ResizeBufferTo_no_abort|done].
  - intros s1. apply no_abort_bind; [apply no_abort_memcpy_to|done].
Qed.

Lemma Append_nonneg (dchecks : bool) (s s' : StringValScratch) (sv : StringVal) :
  0 <= buffer_len s -> StringValScratch_Append dchecks s sv = Ok s' -> 0 <= buffer_len s'.
Proof.
  intros Hs. unfold StringValScratch_Append. destruct (len sv =? 0); [by intros [= <-]|].
  destruct (if _ <? _ then _ else _) as [s1| | |] eqn:Hr; [|done..].
  cbn [mbind outcome_bind].
  destruct (memcpy_to _ _ _ _); [|done..]. cbn [mbind outcome_bind].
  intros [= <-]. cbn [buffer_len].
  destruct (_ <? _); [by eapply ResizeBufferTo_nonneg|]. by injection Hr as <-.
Qed.

Lemma select_body_no_abort (dchecks cond : bool) (src : StringVal) (dst : ScratchVal) :
  0 <= buffer_len (scratch dst) ->
  no_abort (if cond
            then s ← StringValScratch_Set dchecks (scratch dst) src; Ok (with_scratch dst s)
            else Ok dst).
Proof.
  intros Hs. destruct cond; [|done].
  apply no_abort_bind; [by apply Set_no_abort|done].
Qed.

Lemma concat_body_no_abort (dchecks : bool) (src separator : StringVal) (dst : ScratchVal) :
  0 <= buffer_len (scratch dst) ->
  no_abort (if bool_decide (buffer (scratch dst) = None)
            then s ← StringValScratch_Set dchecks (scratch dst) src; Ok (with_scratch dst s)
            else
              s ← (if is_null separator
                   then StringValScratch_Append dchecks (scratch dst)
                          DEFAULT_STRING_CONCAT_DELIM
                   else StringValScratch_Append dchecks (scratch dst) separator);
              s ← StringValScratch_Append dchecks s src;
              Ok (with_scratch dst s)).
Proof.
  intros Hs. destruct (bool_decide _).
  { apply no_abort_bind; [by apply Set_no_abort|done]. }
  destruct (if is_null separator then _ else _) as [s1| | |] eqn:H1; try done.
  - cbn [mbind outcome_bind]. apply no_abort_bind; [|done].
    apply Append_no_abort. destruct (is_null separator); by eapply Append_nonneg.
  - exfalso. destruct (is_null separator); by eapply Append_no_abort.
Qed.

Lemma slot_checks {A : Type} (body : outcome A) (dst : ScratchVal) :
  no_abort body ->
  ((DCHECK true (negb (scratch_is_null dst));;
    DCHECK true (scratch_len dst =? sizeof_StringValScratch);;
    body) = DcheckFailure <-> bad_slot dst).
Proof.
  intros Hb. unfold DCHECK, bad_slot.
  destruct (scratch_is_null dst); cbn [negb andb mbind outcome_bind].
  { split; [by left|done]. }
  destruct (Z.eqb_spec (scratch_len dst) sizeof_StringValScratch);
    cbn [negb andb mbind outcome_bind].
  - split; [done|]. intros [|]; done.
  - split; [by right|done].
Qed.

(** X29. The checks the text accumulators make on their slot. With a
    non-null input, a build with DCHECKs aborts a text Min, a text Max or a
    concatenation exactly when the slot is NULL or has not the size of a
    scratch, and never for another reason; serialising aborts in exactly
    the same case. A NULL input is ignored before any check. A build
    without DCHECKs never aborts. *)
Theorem text_slot_checks (src separator : StringVal) (dst : ScratchVal) :
  0 <= buffer_len (scratch dst) ->
  (is_null src = true ->
   forall dchecks,
     Min_StringVal dchecks src dst = Ok dst /\ Max_StringVal dchecks src dst = Ok dst /\
     StringConcat dchecks src separator dst = Ok dst) /\
  (is_null src = false ->
   (Min_StringVal true src dst = DcheckFailure <-> bad_slot dst) /\
   (Max_StringVal true src dst = DcheckFailure <-> bad_slot dst) /\
   (StringConcat true src separator dst = DcheckFailure <-> bad_slot dst)) /\
  (SerializeScratch true dst = DcheckFailure <-> bad_slot dst) /\
  no_abort (Min_StringVal false src dst) /\ no_abort (Max_StringVal false src dst) /\
  no_abort (StringConcat false src separator dst) /\ no_abort (SerializeScratch false dst).
Proof.
  intros Hs. split; [|split; [|split; [|split; [|split; [|split]]]]].
  - intros Hn dchecks. unfold Min_StringVal, Max_StringVal, StringConcat. by rewrite Hn.
  - intros Hn. unfold Min_StringVal, Max_StringVal, StringConcat. rewrite Hn.
    split; [|split]; apply slot_checks.
    + by apply select_body_no_abort.
    + by apply select_body_no_abort.
    + by apply concat_body_no_abort.
  - unfold SerializeScratch. by apply slot_checks.
  - unfold Min_StringVal. destruct (is_null src); [done|].
    by apply select_body_no_abort.
  - unfold Max_StringVal. destruct (is_null src); [done|].
    by apply select_body_no_abort.
  - unfold StringConcat. destruct (is_null src); [done|].
    by apply concat_body_no_abort.
  - done.
Qed.

(** An instance of [text_slot_checks]. *)
Lemma text_slot_checks_witness :
  (SerializeScratch true InitScratch = DcheckFailure <-> bad_slot InitScratch) /\
  no_abort (StringConcat false (text [97]) StringVal_null InitScratch).
Proof.
  destruct (text_slot_checks (text [97]) StringVal_null InitScratch)
    as (_ & _ & H1 & _ & _ & H2 & _).
  - simpl. lia.
  - exact (conj H1 H2).
Defined.

(** * Replacing the string of a scratch *)

Lemma Set_capacity (dchecks : bool) (s s' : StringValScratch) (sv : StringVal) :
  0 <= buffer_len s -> StringValScratch_Set dchecks s sv = Ok s' ->
  str_len s' = len sv /\ buffer_len s <= buffer_len s'.
Proof.
  intros Hs. unfold StringValScratch_Set.
  destruct (ResizeBufferTo dchecks s (len sv) false) as [s1| | |] eqn:Hr; [|done..].
  cbn [mbind outcome_bind].
  destruct (memcpy_to _ _ _ _); [|done..]. cbn [mbind outcome_bind].
  intros [= <-]. cbn [str_len buffer_len]. split; [done|].
  revert Hr. unfold ResizeBufferTo.
  destruct (Z.leb_spec (len sv) (buffer_len s)); [by intros [= <-]|].
  destruct (DCHECK _ _); [|done..]. cbn [mbind outcome_bind].
  destruct (_ <? 2 ^ 31); [|done]. cbn [mbind outcome_bind].
  intros [= <-]. cbn [buffer_len]. pose proof (quot2_range (len sv) ltac:(lia)). lia.
Qed.

(** X30. [Set] replaces the string of a consistent scratch by the value,
    whatever the scratch held: the scratch stays consistent, its capacity
    never shrinks, and its buffer is NULL afterwards exactly when it was
    NULL before and the value is empty. *)
Theorem Set_replaces_text (dchecks : bool) (s : StringValScratch) (sv : StringVal) :
  scratch_wf s -> sv_ok sv -> growable (len sv) ->
  exists s',
    StringValScratch_Set dchecks s sv = Ok s' /\ scratch_wf s' /\
    scratch_text s' = sv_bytes sv /\ str_len s' = len sv /\
    buffer_len s <= buffer_len s' /\
    (buffer s' = None <-> buffer s = None /\ len sv = 0).
Proof.
  intros Hwf Hsv Hgrow.
  destruct (StringValScratch_Set_ok dchecks s sv Hwf Hsv Hgrow)
    as (s' & Hset & Hwf' & Htext & Hkeep & Hnz & Hnull).
  pose proof (scratch_wf_nonneg s Hwf) as Hs.
  destruct (Set_capacity dchecks s s' sv ltac:(lia) Hset) as [Hstr Hcap].
  exists s'. do 5 (split; [done|]). split.
  - intros Hn. split.
    + destruct (buffer s) eqn:Hb; [|done]. by destruct Hkeep.
    + destruct (Z.eq_dec (len sv) 0); [done|]. by destruct Hnz.
  - intros [Hb Hz]. by apply Hnull.
Qed.

(** An instance of [Set_replaces_text]. *)
Lemma Set_replaces_text_witness :
  exists s',
    StringValScratch_Set true new_StringValScratch (text [97; 98]) = Ok s' /\
    scratch_wf s' /\ scratch_text s' = sv_bytes (text [97; 98]).
Proof.
  destruct (Set_replaces_text true new_StringValScratch (text [97; 98]))
    as (s' & H1 & H2 & H3 & _).
  - by split.
  - unfold sv_ok. simpl. lia.
  - reflexivity.
  - exists s'. exact (conj H1 (conj H2 H3)).
Defined.

(** * The estimate and its text *)

Lemma int64_to_string_decimal (r : Z) :
  - 2 ^ 63 <= r < 2 ^ 63 -> is_decimal_of (int64_to_string r) r.
Proof.
  intros Hr. unfold int64_to_string, is_decimal_of.
  assert (Hm : 0 <= Z.abs r < 10 ^ Z.of_nat 19) by lia.
  exists (reverse (digits_rev 19 (Z.abs r))).
  destruct (digits_rev_value 19 (Z.abs r) Hm) as [Hv Hd].
  split; [|split; [|split; [|split]]].
  - destruct (Z.ltb_spec r 0).
    + by rewrite Z.abs_neq by lia.
    + by rewrite Z.abs_eq by lia.
  - intros He. apply (f_equal length) in He. rewrite length_reverse in He.
    destruct (length_digits_rev 19 (Z.abs r)) as [_ Hpos]. cbn [length] in He. lia.
  - by apply Forall_reverse.
  - done.
  - intros rest Hrest. destruct (Z.eq_dec (Z.abs r) 0) as [Hz|Hnz].
    + rewrite Hz in Hrest. by injection Hrest as <-.
    + destruct (digits_rev_head 19 (Z.abs r)) as (d & ds & Hrev & Hd49); [lia|].
      rewrite Hrev in Hrest. injection Hrest as -> _. lia.
Qed.

Lemma estimate_text_decimal (src : StringVal) (r : Z) :
  is_null src = false -> - 2 ^ 63 <= r < 2 ^ 63 ->
  decimal_result (estimate_text src r) r.
Proof.
  intros Hn Hr. unfold decimal_result, sv_ok, sv_bytes, StringValue, estimate_text.
  cbn [len ptr]. split; [exact Hn|]. split.
  - rewrite length_app. lia.
  - rewrite Nat2Z.id, take_app_length. by apply int64_to_string_decimal.
Qed.

Lemma finalize_text_decimal (src : StringVal) (estimate : float) (r : Z) :
  is_bitmap src -> double_to_int64 estimate = Some r ->
  exists dst, finalize_text src estimate = Ok dst /\ decimal_result dst r.
Proof.
  intros (Hn & _ & Hlen & _) Hr. exists (estimate_text src r).
  split; [apply finalize_text_in; [lia|done]|].
  apply estimate_text_decimal; [done|]. by eapply double_to_int64_range.
Qed.

(** C1. On a 256-byte bitmap: if every byte is zero, the estimate is 0 and
    both finalize calls return the text 0. Otherwise the estimate is
    [pow(2, avg) / PC_THETA] in binary64, [avg] being the sum of the 64
    leading-run lengths over 64 and [PC_THETA] the single-precision constant
    [0.77351f]; [PcFinalize] returns the decimal notation of that number
    truncated to an integer, and [PcsaFinalize] the decimal notation of 64
    times that number, truncated after the multiplication. *)
Theorem Finalize_estimate (dchecks : bool) (pow : float -> float -> float)
    (src : StringVal) :
  is_bitmap src ->
  let avg :=
    (int_to_double (sum_leading_runs (ptr src)) / int_to_double NUM_PC_BITMAPS)%float in
  let base := (pow (int_to_double 2) avg / PC_THETA)%float in
  (all_zero (ptr src) = true ->
     DistinceEstimateFinalize dchecks pow src = Ok 0%float /\
     (exists dst, PcFinalize dchecks pow src = Ok dst /\ decimal_result dst 0) /\
     (exists dst, PcsaFinalize dchecks pow src = Ok dst /\ decimal_result dst 0)) /\
  (all_zero (ptr src) = false ->
     DistinceEstimateFinalize dchecks pow src = Ok base /\
     (forall r, double_to_int64 base = Some r ->
                exists dst, PcFinalize dchecks pow src = Ok dst /\ decimal_result dst r) /\
     (forall r, double_to_int64 (base * int_to_double NUM_PC_BITMAPS) = Some r ->
                exists dst, PcsaFinalize dchecks pow src = Ok dst /\ decimal_result dst r)).
Proof.
  intros Hsrc avg base.
  pose proof (DistinceEstimateFinalize_in dchecks pow src Hsrc) as HF.
  unfold PcFinalize, PcsaFinalize. rewrite HF. cbn [mbind outcome_bind].
  split; intros Hz; rewrite Hz.
  - split; [done|].
    split; apply finalize_text_decimal; try done; reflexivity.
  - split; [done|].
    split; intros r Hr; by apply finalize_text_decimal.
Qed.

(** An instance of [Finalize_estimate]: with column 0 of every row set the
    plain variant returns the text 2 and the stochastic one the text 165. *)
Lemma Finalize_estimate_witness :
  (exists dst, PcFinalize true pow_whole bitmap_ones = Ok dst /\
               decimal_result dst 2 /\ sv_bytes dst = [50]) /\
  (exists dst, PcsaFinalize true pow_whole bitmap_ones = Ok dst /\
               decimal_result dst 165 /\ sv_bytes dst = [49; 54; 53]).
Proof.
  destruct (Finalize_estimate true pow_whole bitmap_ones) as [_ Hpos].
  { by repeat split. }
  destruct Hpos as (_ & Hpc & Hpcsa); [reflexivity|].
  split.
  - destruct (Hpc 2) as (dst & H1 & H2); [vm_compute; reflexivity|].
    exists dst. refine (conj H1 (conj H2 _)).
    pose proof H1 as Hc. vm_compute in Hc. injection Hc as <-. reflexivity.
  - destruct (Hpcsa 165) as (dst & H1 & H2); [vm_compute; reflexivity|].
    exists dst. refine (conj H1 (conj H2 _)).
    pose proof H1 as Hc. vm_compute in Hc. injection Hc as <-. reflexivity.
Defined.

(** C1 (counterexample). The divisor is not the double 0.77351. With
    columns 0 to 23 set in every row the average is 24 and [pow] returns
    2^24 exactly; 2^24 / 0.77351 truncates to 21689720, and 64 times it to
    1388142136, but the finalize calls return the texts 21689721 and
    1388142173, the quotients by the single-precision constant. *)
Lemma Finalize_divides_by_float_theta :
  PrimFloat.eqb PC_THETA theta_double = false /\
  is_bitmap bitmap_24 /\ all_zero (ptr bitmap_24) = false /\
  sum_leading_runs (ptr bitmap_24) = 24 * NUM_PC_BITMAPS /\
  pow_whole (int_to_double 2)
    (int_to_double (sum_leading_runs (ptr bitmap_24)) / int_to_double NUM_PC_BITMAPS)
  = 0x1p24%float /\
  double_to_int64 (0x1p24 / theta_double) = Some 21689720 /\
  double_to_int64 (0x1p24 / theta_double * int_to_double NUM_PC_BITMAPS)
  = Some 1388142136 /\
  (exists dst, PcFinalize true pow_whole bitmap_24 = Ok dst /\
               sv_bytes dst = [50; 49; 54; 56; 57; 55; 50; 49] /\
               parse_int64 (sv_bytes dst) = 21689721) /\
  (exists dst, PcsaFinalize true pow_whole bitmap_24 = Ok dst /\
               sv_bytes dst = [49; 51; 56; 56; 49; 52; 50; 49; 55; 51] /\
               parse_int64 (sv_bytes dst) = 1388142173).
Proof.
  split; [vm_compute; reflexivity|].
  split; [by repeat split|].
  split; [vm_compute; reflexivity|].
  split; [vm_compute; reflexivity|].
  split; [vm_compute; reflexivity|].
  split; [vm_compute; reflexivity|].
  split; [vm_compute; reflexivity|].
  split; eexists; (split; [vm_compute; reflexivity|]); split; vm_compute; reflexivity.
Qed.

(** * The loop over the rows *)

Lemma leading_ones_row (m : list Z) (i : Z) :
  0 <= i -> 4 * i + 3 < Z.of_nat (length m) ->
  let count := leading_run_length (word_at m i) in
  leading_ones m i = Ok (count, seqZ 0 (count + 1)) /\
  0 <= count <= PC_BITMAP_LENGTH /\
  (forall c, 0 <= c < count -> GetDistinctEstimateBit m i c = Ok (Some true)) /\
  (count < PC_BITMAP_LENGTH -> GetDistinctEstimateBit m i count = Ok (Some false)).
Proof.
  intros Hi Hlen count. split; [by apply leading_ones_spec|].
  unfold count, leading_run_length.
  pose proof (run_of_ones_range (Z.to_nat PC_BITMAP_LENGTH) (word_at m i) 0) as Hr.
  pose proof (run_of_ones_spec (Z.to_nat PC_BITMAP_LENGTH) (word_at m i) 0) as [Hs Hu].
  change (Z.of_nat (Z.to_nat PC_BITMAP_LENGTH)) with PC_BITMAP_LENGTH in *.
  set (n := run_of_ones _ _ _) in *. unfold PC_BITMAP_LENGTH in *.
  split; [done|]. split.
  - intros c Hc. rewrite GetDistinctEstimateBit_in by lia.
    unfold bitmap_bit. by rewrite Hs by lia.
  - intros Hlt. rewrite GetDistinctEstimateBit_in by lia.
    unfold bitmap_bit. specialize (Hu Hlt). by rewrite Z.add_0_l in Hu; rewrite Hu.
Qed.

(** X9. On a 256-byte buffer the loop of [DistinceEstimateFinalize] over
    the rows returns: its sum is the sum of 64 counts, one per row, where the
    count of row [i] is what the inner loop returns for that row, lies
    between 0 and 32, has every bit below it read as set and, when it is
    below 32, the bit at it read as unset. *)
Theorem sum_rows_sums_row_counts (bitmap : list Z) :
  length bitmap = 256%nat ->
  exists counts reads,
    sum_rows bitmap = Ok (foldr Z.add 0 counts, reads) /\
    length counts = 64%nat /\
    forall i, 0 <= i < NUM_PC_BITMAPS ->
      exists count row_reads,
        counts !! Z.to_nat i = Some count /\
        leading_ones bitmap i = Ok (count, row_reads) /\
        0 <= count <= PC_BITMAP_LENGTH /\
        (forall c, 0 <= c < count ->
           GetDistinctEstimateBit bitmap i c = Ok (Some true)) /\
        (count < PC_BITMAP_LENGTH ->
           GetDistinctEstimateBit bitmap i count = Ok (Some false)).
Proof.
  intros Hlen.
  exists ((fun r => leading_run_length (word_at bitmap r)) <$> seqZ 0 NUM_PC_BITMAPS).
  exists (finalize_reads bitmap).
  split; [by apply sum_rows_spec|].
  split; [by rewrite length_fmap, length_seqZ|].
  unfold NUM_PC_BITMAPS. intros i Hi.
  destruct (leading_ones_row bitmap i) as (H1 & H2 & H3 & H4); [lia|lia|].
  exists (leading_run_length (word_at bitmap i)).
  exists (seqZ 0 (leading_run_length (word_at bitmap i) + 1)).
  split; [|split; [exact H1|split; [exact H2|split; [exact H3|exact H4]]]].
  rewrite list_lookup_fmap, lookup_seqZ_lt by lia. cbn [fmap option_fmap option_map].
  replace (0 + Z.of_nat (Z.to_nat i)) with i by lia. reflexivity.
Qed.

(** An instance of [sum_rows_sums_row_counts]. *)
Lemma sum_rows_sums_row_counts_witness :
  exists counts reads,
    sum_rows (ptr bitmap_24) = Ok (foldr Z.add 0 counts, reads) /\
    length counts = 64%nat /\
    exists count row_reads,
      counts !! 0%nat = Some count /\
      leading_ones (ptr bitmap_24) 0 = Ok (count, row_reads) /\
      0 <= count <= PC_BITMAP_LENGTH.
Proof.
  destruct (sum_rows_sums_row_counts (ptr bitmap_24)) as (counts & reads & H1 & H2 & H3);
    [reflexivity|].
  exists counts, reads. refine (conj H1 (conj H2 _)).
  destruct (H3 0) as (count & rr & G1 & G2 & G3 & _); [unfold NUM_PC_BITMAPS; lia|].
  exists count, rr. exact (conj G1 (conj G2 G3)).
Defined.
